(** * Schema graph of the instant CLI: link index, enriched entities,
      attribute builders and InstaQL result shapes

    Shallow embedding of the schema part of
    [client/packages/cli/index.js] (the [i.graph] API, the internal
    [enrichEntitiesWithLinks], the classes [DataAttrDef], [LinkAttrDef],
    [InstantGraph] and the InstaQL helper types).

    Conventions of the embedding:
    - the objects that [enrichEntitiesWithLinks] creates, and the built-in
      objects they inherit from, live in a heap; a property is read and
      written along the prototype chain, so a name such as [__proto__] or
      [constructor] reaches [Object.prototype] or [Object], and a call
      leaves the heap for the next call;
    - the arguments [entities] and [links] are given by their own
      properties: a finite map, and for [links] an association list in
      the order [Object.values] visits it;
    - [DataAttrDef] instances live in an object store, so that "returns a
      new object" and "leaves the receiver alone" are statements about
      the store;
    - the InstaQL helper types are type-level functions; they are embedded
      as functions computing a descriptor of the resulting type. *)

From Stdlib Require Import List Permutation.
From stdpp Require Import gmap strings list fin_maps pretty.
Import ListNotations.

Open Scope string_scope.
Open Scope list_scope.
Set Warnings "-register-all".


(** ** Base types *)

(** [type CardinalityKind = "one" | "many"] *)
Inductive CardinalityKind := one | many.

(** [type ValueTypes = "string" | "number" | "boolean" | "json"] *)
Inductive ValueTypes := vt_string | vt_number | vt_boolean | vt_json.

#[global] Instance CardinalityKind_eq_dec : EqDecision CardinalityKind.
Proof. solve_decision. Defined.

#[global] Instance ValueTypes_eq_dec : EqDecision ValueTypes.
Proof. solve_decision. Defined.

(** [class LinkAttrDef { entityName; cardinality }], also the shape of the
    object literals stored in the links index. *)
Record LinkAttrDef := mkLinkAttrDef {
  entityName : string;
  cardinality : CardinalityKind;
}.

#[global] Instance LinkAttrDef_eq_dec : EqDecision LinkAttrDef.
Proof. solve_decision. Defined.

(** One direction of a [LinkDef]: [{ on, label, has }]. *)
Record LinkSide := mkLinkSide {
  on : string;
  label : string;
  has : CardinalityKind;
}.

(** [type LinkDef = { forward: {...}; reverse: {...} }] *)
Record LinkDef := mkLinkDef {
  forward : LinkSide;
  reverse : LinkSide;
}.

(** The [config] object of a [DataAttrDef]. *)
Record Config := mkConfig {
  cfg_indexed : bool;
  cfg_unique : bool;
}.

(** Contents of a [DataAttrDef] instance, read through the store. *)
Record DataAttrDef := mkDataAttrDef {
  valueType : ValueTypes;
  required : bool;
  config : Config;
}.

(** [type EntityDef = { attrs; links }] *)
Record EntityDef := mkEntityDef {
  attrs : gmap string DataAttrDef;
  links : gmap string LinkAttrDef;
}.

(** [type LinksIndex = Record<"fwd" | "rev", Record<string, Record<string, ...>>>] *)
Record LinksIndex := mkLinksIndex {
  fwd : gmap string (gmap string LinkAttrDef);
  rev : gmap string (gmap string LinkAttrDef);
}.

(** [type LinksDef]: the links object, in the order [Object.values] visits it. *)
Abbreviation LinksDef := (list (string * LinkDef)).

(** [class InstantGraph { appId; entities; links }] *)
Record InstantGraph := mkInstantGraph {
  graph_appId : string;
  graph_entities : gmap string EntityDef;
  graph_links : LinksDef;
}.

(** ** The API *)

(** [function entity(attrs) { return { attrs, links: {} }; }] *)
Definition entity (a : gmap string DataAttrDef) : EntityDef :=
  {| attrs := a; links := ∅ |}.

(** ** [class DataAttrDef] over an object store *)

(** Object identities are indices into the store. *)
Abbreviation loc := nat.

(** The two kinds of object the class creates: an instance, whose [config]
    field is a reference, and a [config] object literal. *)
Inductive Obj :=
| ODataAttrDef (vt : ValueTypes) (req : bool) (cfg : loc)
| OConfig (idx uniq : bool).

Abbreviation Store := (list Obj).

(** A fresh object is placed after all existing ones. *)
Definition alloc (o : Obj) (s : Store) : loc * Store :=
  (List.length s, (s ++ [o])%list).

(** [new DataAttrDef(valueType, required, config = { indexed: false,
    unique: false })]; [None] is the omitted third argument. *)
Definition new_DataAttrDef (vt : ValueTypes) (req : bool) (cfg : option loc)
    (s : Store) : loc * Store :=
  match cfg with
  | Some c => alloc (ODataAttrDef vt req c) s
  | None =>
      let '(c, s1) := alloc (OConfig false false) s in
      alloc (ODataAttrDef vt req c) s1
  end.

(** [i.string()], [i.number()], [i.boolean()], [i.json()], [i.any()] *)
Definition i_string : Store -> loc * Store := new_DataAttrDef vt_string true None.
Definition i_number : Store -> loc * Store := new_DataAttrDef vt_number true None.
Definition i_boolean : Store -> loc * Store := new_DataAttrDef vt_boolean true None.
Definition i_json : Store -> loc * Store := new_DataAttrDef vt_json true None.
Definition i_any : Store -> loc * Store := new_DataAttrDef vt_json true None.

(** [optional() { return new DataAttrDef(this.valueType, false); }]
    The result is [None] when [this] is not a [DataAttrDef] of the store. *)
Definition optional (this : loc) (s : Store) : option (loc * Store) :=
  match s !! this with
  | Some (ODataAttrDef vt _ _) => Some (new_DataAttrDef vt false None s)
  | _ => None
  end.

(** [unique() { return new DataAttrDef(this.valueType, this.required,
    { ...this.config, unique: true }); }] *)
Definition unique (this : loc) (s : Store) : option (loc * Store) :=
  match s !! this with
  | Some (ODataAttrDef vt req c) =>
      match s !! c with
      | Some (OConfig i _) =>
          let '(c', s1) := alloc (OConfig i true) s in
          Some (new_DataAttrDef vt req (Some c') s1)
      | _ => None
      end
  | _ => None
  end.

(** [indexed() { return new DataAttrDef(this.valueType, this.required,
    { ...this.config, indexed: true }); }] *)
Definition indexed (this : loc) (s : Store) : option (loc * Store) :=
  match s !! this with
  | Some (ODataAttrDef vt req c) =>
      match s !! c with
      | Some (OConfig _ u) =>
          let '(c', s1) := alloc (OConfig true u) s in
          Some (new_DataAttrDef vt req (Some c') s1)
      | _ => None
      end
  | _ => None
  end.

(** What a holder of reference [r] observes: [r.valueType], [r.required],
    [r.config.indexed], [r.config.unique]. *)
Definition read_DataAttrDef (s : Store) (r : loc) : option DataAttrDef :=
  match s !! r with
  | Some (ODataAttrDef vt req c) =>
      match s !! c with
      | Some (OConfig i u) =>
          Some {| valueType := vt; required := req;
                  config := {| cfg_indexed := i; cfg_unique := u |} |}
      | _ => None
      end
  | _ => None
  end.

(** ** JavaScript objects

    [enrichEntitiesWithLinks] reads and writes properties by computed
    name ([linksIndex.fwd[on]], [linksIndex.fwd[on][label] = ...]), so what
    it does depends on the properties every object inherits from
    [Object.prototype].  The objects therefore live in a heap, and
    property reads and writes follow [OrdinaryGet] and [OrdinarySet] of
    ECMAScript along the prototype chain. *)

Inductive Value :=
| VUndefined
| VNull
| VNumber (n : nat)
| VString (s : string)
| VObject (l : loc).

(** The two accessor properties of the built-in objects that a computed
    name can reach: [Object.prototype.__proto__], and the [caller] and
    [arguments] of [Function.prototype], whose getter and setter both
    throw. *)
Inductive Accessor := accessor_proto | accessor_thrower.

(** A property is a data property with its [writable] and [enumerable]
    attributes, or one of these accessors, which are not enumerable. *)
Inductive Property :=
| DataProperty (value : Value) (writable enumerable : bool)
| AccessorProperty (a : Accessor).

(** What calling an object does: the three functions the source calls,
    any other function, or nothing ([not_callable]). *)
Inductive Callable :=
| not_callable
| fn_Object_values
| fn_Object_entries
| fn_Object_fromEntries
| fn_other.

#[global] Instance Value_eq_dec : EqDecision Value.
Proof. solve_decision. Defined.

#[global] Instance Accessor_eq_dec : EqDecision Accessor.
Proof. solve_decision. Defined.

#[global] Instance Property_eq_dec : EqDecision Property.
Proof. solve_decision. Defined.

#[global] Instance Callable_eq_dec : EqDecision Callable.
Proof. solve_decision. Defined.

Record JSObject := mkJSObject {
  properties : gmap string Property;
  prototype : option loc;
  extensible : bool;
  immutable_prototype : bool;
  callable : Callable }.

#[global] Instance JSObject_eq_dec : EqDecision JSObject.
Proof. solve_decision. Defined.

Abbreviation Heap := (list JSObject).

(** [Object.prototype] and the global [Object] are the first two objects
    of every heap. *)
Definition Object_prototype : loc := 0.
Definition Object_constructor : loc := 1.

(** The source is module code, hence strict: a failed assignment throws a
    [TypeError].  [Unspecified] is the result of calling a function other
    than the one the source names. *)
Inductive Completion (A : Type) :=
| Normal (a : A)
| Throw_TypeError
| Unspecified.
Arguments Normal {A} a.
Arguments Throw_TypeError {A}.
Arguments Unspecified {A}.

Definition JS (A : Type) : Type := Heap -> Completion A * Heap.

Definition js_ret {A} (a : A) : JS A := fun h => (Normal a, h).

Definition js_throw {A} : JS A := fun h => (Throw_TypeError, h).

Definition js_bind {A B} (m : JS A) (k : A -> JS B) : JS B := fun h =>
  match m h with
  | (Normal a, h') => k a h'
  | (Throw_TypeError, h') => (Throw_TypeError, h')
  | (Unspecified, h') => (Unspecified, h')
  end.

Notation "'let*' x := m 'in' k" := (js_bind m (fun x => k))
  (at level 10, x name, k at level 200, only parsing).

(** An object literal [{ ... }]: a new extensible object whose prototype
    is [Object.prototype] and whose properties are writable and
    enumerable. *)
Definition literal (fields : gmap string Value) : JSObject :=
  {| properties := (fun v => DataProperty v true true) <$> fields;
     prototype := Some Object_prototype;
     extensible := true;
     immutable_prototype := false;
     callable := not_callable |}.

Definition js_alloc (o : JSObject) : JS loc := fun h =>
  (Normal (List.length h), h ++ [o]).

(** [ToBoolean] *)
Definition truthy_value (v : Value) : bool :=
  match v with
  | VUndefined | VNull => false
  | VNumber n => negb (Nat.eqb n 0)
  | VString s => negb (String.eqb s "")
  | VObject _ => true
  end.

(** The property [k] as [OrdinaryGet] and [OrdinarySet] find it: the
    object's own one, else the one of the nearest prototype that has it.
    A chain has no cycle, so it is no longer than the heap. *)
Fixpoint chain_lookup (fuel : nat) (h : Heap) (l : loc) (k : string)
  : option Property :=
  match fuel with
  | 0 => None
  | S fuel' =>
      match h !! l with
      | None => None
      | Some o =>
          match properties o !! k with
          | Some p => Some p
          | None =>
              match prototype o with
              | Some parent => chain_lookup fuel' h parent k
              | None => None
              end
          end
      end
  end.

Definition find_property (h : Heap) (l : loc) (k : string) : option Property :=
  chain_lookup (S (List.length h)) h l k.

Definition GetOwnProperty (h : Heap) (l : loc) (k : string) : option Property :=
  h !! l ≫= fun o => properties o !! k.

Definition GetPrototypeOf (h : Heap) (l : loc) : option loc :=
  h !! l ≫= prototype.

(** [o[k]] for an object [o] *)
Definition Get (l : loc) (k : string) : JS Value := fun h =>
  match find_property h l k with
  | None => (Normal VUndefined, h)
  | Some (DataProperty v _ _) => (Normal v, h)
  | Some (AccessorProperty accessor_proto) =>
      (Normal (match GetPrototypeOf h l with
               | Some p => VObject p
               | None => VNull
               end), h)
  | Some (AccessorProperty accessor_thrower) => (Throw_TypeError, h)
  end.

(** [target] is on the prototype chain that starts at [l]. *)
Fixpoint on_chain (fuel : nat) (h : Heap) (l target : loc) : bool :=
  match fuel with
  | 0 => false
  | S fuel' =>
      if decide (l = target) then true
      else match GetPrototypeOf h l with
           | Some parent => on_chain fuel' h parent target
           | None => false
           end
  end.

Definition with_prototype (o : JSObject) (p : option loc) : JSObject :=
  {| properties := properties o;
     prototype := p;
     extensible := extensible o;
     immutable_prototype := immutable_prototype o;
     callable := callable o |}.

Definition with_property (o : JSObject) (k : string) (p : Property) : JSObject :=
  {| properties := <[k := p]> (properties o);
     prototype := prototype o;
     extensible := extensible o;
     immutable_prototype := immutable_prototype o;
     callable := callable o |}.

(** [[SetPrototypeOf]]: refused for another prototype than the current one
    by [Object.prototype] (its prototype is immutable) and by an object
    that is not extensible, and refused when it would close a cycle. *)
Definition SetPrototypeOf (l : loc) (p : option loc) : JS bool := fun h =>
  match h !! l with
  | None => (Normal false, h)
  | Some o =>
      if decide (prototype o = p) then (Normal true, h)
      else if immutable_prototype o then (Normal false, h)
      else if negb (extensible o) then (Normal false, h)
      else if match p with
              | Some p' => on_chain (S (List.length h)) h p' l
              | None => false
              end then (Normal false, h)
      else (Normal true, <[l := with_prototype o p]> h)
  end.

(** Calling the setter of an accessor property with [this = receiver]. *)
Definition call_setter (a : Accessor) (receiver v : Value) : JS unit :=
  match a with
  | accessor_thrower => js_throw
  | accessor_proto =>
      match receiver with
      | VObject l =>
          match v with
          | VObject p =>
              let* ok := SetPrototypeOf l (Some p) in
              if ok : bool then js_ret tt else js_throw
          | VNull =>
              let* ok := SetPrototypeOf l None in
              if ok : bool then js_ret tt else js_throw
          | _ => js_ret tt
          end
      | VUndefined | VNull => js_throw
      | VNumber _ | VString _ => js_ret tt
      end
  end.

(** The own properties of a string: its indices and [length]. *)
Definition string_own_key (s k : string) : bool :=
  bool_decide (k = "length" \/ k ∈ (pretty <$> seq 0 (String.length s))).

(** [target[k] = v] in strict code, as [PutValue] and [OrdinarySet] do it:
    a setter found on the chain is called; a read-only property, own or
    inherited, makes the assignment fail; otherwise the own property is
    updated or, on an extensible object, created.  A failed assignment
    throws.  When [target] is a string or a number the receiver is not an
    object, so the assignment can only succeed through a setter; the
    prototypes [String.prototype] and [Number.prototype] hold data
    properties and no accessor, so the only setters are those of
    [Object.prototype]. *)
Definition PutValue (target : Value) (k : string) (v : Value) : JS unit :=
  match target with
  | VObject l => fun h =>
      match find_property h l k with
      | Some (AccessorProperty a) => call_setter a target v h
      | Some (DataProperty _ false _) => (Throw_TypeError, h)
      | Some (DataProperty _ true _) | None =>
          match h !! l with
          | None => (Throw_TypeError, h)
          | Some o =>
              match properties o !! k with
              | Some (DataProperty _ true e) =>
                  (Normal tt, <[l := with_property o k (DataProperty v true e)]> h)
              | Some _ => (Throw_TypeError, h)
              | None =>
                  if extensible o
                  then (Normal tt, <[l := with_property o k (DataProperty v true true)]> h)
                  else (Throw_TypeError, h)
              end
          end
      end
  | VString s => fun h =>
      if string_own_key s k then (Throw_TypeError, h)
      else match find_property h Object_prototype k with
           | Some (AccessorProperty a) => call_setter a target v h
           | _ => (Throw_TypeError, h)
           end
  | VNumber _ => fun h =>
      match find_property h Object_prototype k with
      | Some (AccessorProperty a) => call_setter a target v h
      | _ => (Throw_TypeError, h)
      end
  | VUndefined | VNull => js_throw
  end.

(** The own enumerable properties of an object, as [{ ...o }] copies
    them. *)
Definition enumerable_value (p : Property) : option Value :=
  match p with
  | DataProperty v _ true => Some v
  | _ => None
  end.

Definition string_indices (s : string) : gmap string Value :=
  list_to_map (imap (fun i c => (pretty i, VString (String c EmptyString)))
                    (String.list_ascii_of_string s)).

(** [{ ...into, ...src }] for an object under construction that holds
    [into] so far. *)
Definition spread (src : Value) (into : gmap string Value) : JS (gmap string Value) :=
  match src with
  | VUndefined | VNull | VNumber _ => js_ret into
  | VString s => js_ret (string_indices s ∪ into)
  | VObject l => fun h =>
      match h !! l with
      | Some o => (Normal (omap enumerable_value (properties o) ∪ into), h)
      | None => (Normal into, h)
      end
  end.

(** Calling [f], which the source expects to be the built-in [expected]. *)
Definition call_builtin (expected : Callable) (f : Value) : JS unit := fun h =>
  match f with
  | VObject l =>
      match callable <$> h !! l with
      | Some c =>
          if decide (c = expected) then (Normal tt, h)
          else if decide (c = not_callable) then (Throw_TypeError, h)
          else (Unspecified, h)
      | None => (Throw_TypeError, h)
      end
  | _ => (Throw_TypeError, h)
  end.

Fixpoint js_mapM {A B} (f : A -> JS B) (l : list A) : JS (list B) :=
  match l with
  | [] => js_ret []
  | a :: l' =>
      let* b := f a in
      let* bs := js_mapM f l' in
      js_ret (b :: bs)
  end.

(** [for (const a of l) body(a)] *)
Fixpoint js_for {A} (l : list A) (body : A -> JS unit) : JS unit :=
  match l with
  | [] => js_ret tt
  | a :: l' => let* _ := body a in js_for l' body
  end.

(** ** [enrichEntitiesWithLinks] *)

(** The object literals [{ entityName: ..., cardinality: ... }] stored in
    the index; a cardinality is the string ["one"] or ["many"]. *)
Definition cardinality_string (c : CardinalityKind) : string :=
  match c with one => "one" | many => "many" end.

Definition link_object (v : LinkAttrDef) : JSObject :=
  literal {[ "entityName" := VString (entityName v);
             "cardinality" := VString (cardinality_string (cardinality v)) ]}.

(** [const linksIndex = { fwd: {}, rev: {} }]: the two objects its own
    properties [fwd] and [rev] hold; the source reads [linksIndex] at
    these two names only and never assigns to them. *)
Record LinksIndexObject := mkLinksIndexObject {
  fwd_object : loc;
  rev_object : loc;
}.

(** [obj[k] ||= {}] *)
Definition or_assign_empty (obj : loc) (k : string) : JS unit :=
  let* v := Get obj k in
  if truthy_value v then js_ret tt
  else
    let* o := js_alloc (literal ∅) in
    PutValue (VObject obj) k (VObject o).

(** [obj[k][l] = { entityName: ..., cardinality: ... }] *)
Definition set_nested (obj : loc) (k l : string) (v : LinkAttrDef) : JS unit :=
  let* target := Get obj k in
  let* o := js_alloc (link_object v) in
  PutValue target l (VObject o).

(** Body of the [for (const linkDef of Object.values(links))] loop, one
    statement after the other. *)
Definition index_step (idx : LinksIndexObject) (linkDef : LinkDef) : JS unit :=
  let* _ := or_assign_empty (fwd_object idx) (on (forward linkDef)) in
  let* _ := or_assign_empty (rev_object idx) (on (reverse linkDef)) in
  let* _ := set_nested (fwd_object idx) (on (forward linkDef)) (label (forward linkDef))
              {| entityName := on (reverse linkDef);
                 cardinality := has (forward linkDef) |} in
  set_nested (rev_object idx) (on (reverse linkDef)) (label (reverse linkDef))
    {| entityName := on (forward linkDef);
       cardinality := has (reverse linkDef) |}.

(** What the built-in [Object.values] and [Object.entries] return for the
    arguments of the source: the own properties of [links] in iteration
    order, those of [entities]. *)
Definition Object_values {A} (o : list (string * A)) : list A := snd <$> o.

Definition Object_entries {A} (o : gmap string A) : list (string * A) :=
  map_to_list o.

Definition Object_fromEntries {A} (l : list (string * A)) : gmap string A :=
  list_to_map l.

(** The declaration of [linksIndex] and the loop. *)
Definition linksIndex (links : LinksDef) : JS LinksIndexObject :=
  let* f := js_alloc (literal ∅) in
  let* r := js_alloc (literal ∅) in
  let idx := {| fwd_object := f; rev_object := r |} in
  let* values := Get Object_constructor "values" in
  let* _ := call_builtin fn_Object_values values in
  let* _ := js_for (Object_values links) (index_step idx) in
  js_ret idx.

(** An entity of the result: [attrs] as in the input, [links] a new object
    holding whatever the two spreads copied. *)
Record EnrichedEntity := mkEnrichedEntity {
  enriched_attrs : gmap string DataAttrDef;
  enriched_links : gmap string Value;
}.

(** [([name, def]) => [name, { ...def, links: { ...linksIndex.fwd[name],
    ...linksIndex.rev[name] } }]] *)
Definition enrich_entry (idx : LinksIndexObject) (entry : string * EntityDef)
  : JS (string * EnrichedEntity) :=
  let* a := Get (fwd_object idx) (fst entry) in
  let* l1 := spread a ∅ in
  let* b := Get (rev_object idx) (fst entry) in
  let* l2 := spread b l1 in
  js_ret (fst entry, {| enriched_attrs := attrs (snd entry); enriched_links := l2 |}).

Definition enrichEntitiesWithLinks (entities : gmap string EntityDef)
    (links : LinksDef) : JS (gmap string EnrichedEntity) :=
  let* idx := linksIndex links in
  let* fromEntries := Get Object_constructor "fromEntries" in
  let* entries := Get Object_constructor "entries" in
  let* _ := call_builtin fn_Object_entries entries in
  let* enriched := js_mapM (enrich_entry idx) (Object_entries entities) in
  let* _ := call_builtin fn_Object_fromEntries fromEntries in
  js_ret (Object_fromEntries enriched).

(** The [InstantGraph] instance as it is at run time. *)
Record GraphObject := mkGraphObject {
  object_appId : string;
  object_entities : gmap string EnrichedEntity;
  object_links : LinksDef;
}.

(** [function graph(appId, entities, links)]: the new [InstantGraph] holds
    its three arguments as own properties. *)
Definition graph (appId : string) (entities : gmap string EntityDef)
    (links : LinksDef) : JS GraphObject :=
  let* enriched := enrichEntitiesWithLinks entities links in
  js_ret {| object_appId := appId;
            object_entities := enriched;
            object_links := links |}.

(** ** Reading the result back as typed values *)

Definition cardinality_of_string (s : string) : option CardinalityKind :=
  if decide (s = "one") then Some one
  else if decide (s = "many") then Some many
  else None.

(** The value is an object that is exactly a literal
    [{ entityName, cardinality }]. *)
Definition read_LinkAttrDef (h : Heap) (v : Value) : option LinkAttrDef :=
  match v with
  | VObject l =>
      o ← h !! l;
      match properties o !! "entityName", properties o !! "cardinality" with
      | Some (DataProperty (VString e) _ _), Some (DataProperty (VString c) _ _) =>
          c' ← cardinality_of_string c;
          let v := {| entityName := e; cardinality := c' |} in
          if decide (o = link_object v) then Some v else None
      | _, _ => None
      end
  | _ => None
  end.

(** All the values of a map, if each of them reads. *)
Definition read_all {A B} (f : A -> option B) (m : gmap string A)
  : option (gmap string B) :=
  if decide (map_Forall (fun _ a => is_Some (f a)) m)
  then Some (omap f m) else None.

Definition read_entity (h : Heap) (e : EnrichedEntity) : option EntityDef :=
  l ← read_all (read_LinkAttrDef h) (enriched_links e);
  Some {| attrs := enriched_attrs e; links := l |}.

(** The graph as an [InstantGraph] of the declared type, when every link
    entry is a [LinkAttrDef]. *)
Definition read_graph (h : Heap) (g : GraphObject) : option InstantGraph :=
  es ← read_all (read_entity h) (object_entities g);
  Some {| graph_appId := object_appId g;
          graph_entities := es;
          graph_links := object_links g |}.

(** ** The built-in objects *)

(** A built-in function object: [length] and [name] are read-only and
    not enumerable, its prototype is [Function.prototype]. *)
Definition Function_prototype : loc := 2.
Definition Function_constructor : loc := 3.

Definition builtin_function (c : Callable) (f : string * nat) : JSObject :=
  {| properties := {[ "length" := DataProperty (VNumber (snd f)) false false;
                      "name" := DataProperty (VString (fst f)) false false ]};
     prototype := Some Function_prototype;
     extensible := true;
     immutable_prototype := false;
     callable := c |}.

(** Methods are writable and not enumerable; the function object of the
    [i]-th one is the [i]-th object after [base]. *)
Definition methods (base : loc) (fs : list (string * nat)) : gmap string Property :=
  list_to_map (imap (fun i f => (fst f, DataProperty (VObject (base + i)) true false)) fs).

(** The methods of the built-in objects, each with its [length]. *)
Definition Object_prototype_methods : list (string * nat) :=
  [("__defineGetter__", 2); ("__defineSetter__", 2); ("__lookupGetter__", 1);
   ("__lookupSetter__", 1); ("hasOwnProperty", 1); ("isPrototypeOf", 1);
   ("propertyIsEnumerable", 1); ("toLocaleString", 0); ("toString", 0);
   ("valueOf", 0)].

Definition Object_methods : list (string * nat) :=
  [("assign", 2); ("create", 2); ("defineProperties", 2); ("defineProperty", 3);
   ("entries", 1); ("freeze", 1); ("fromEntries", 1);
   ("getOwnPropertyDescriptor", 2); ("getOwnPropertyDescriptors", 1);
   ("getOwnPropertyNames", 1); ("getOwnPropertySymbols", 1);
   ("getPrototypeOf", 1); ("groupBy", 2); ("hasOwn", 2); ("is", 2);
   ("isExtensible", 1); ("isFrozen", 1); ("isSealed", 1); ("keys", 1);
   ("preventExtensions", 1); ("seal", 1); ("setPrototypeOf", 2); ("values", 1)].

Definition Function_prototype_methods : list (string * nat) :=
  [("apply", 2); ("bind", 1); ("call", 1); ("toString", 0)].

Definition callable_of (name : string) : Callable :=
  if decide (name = "values") then fn_Object_values
  else if decide (name = "entries") then fn_Object_entries
  else if decide (name = "fromEntries") then fn_Object_fromEntries
  else fn_other.

(** The heap of a fresh realm, as far as a computed property name can
    reach from an object literal: [Object.prototype], [Object],
    [Function.prototype], [Function] and their methods. *)
Definition fresh_realm : Heap :=
  [ {| properties :=
         <["constructor" := DataProperty (VObject Object_constructor) true false]>
         (<["__proto__" := AccessorProperty accessor_proto]>
          (methods 4 Object_prototype_methods));
       prototype := None;
       extensible := true;
       immutable_prototype := true;
       callable := not_callable |};
    {| properties :=
         <["length" := DataProperty (VNumber 1) false false]>
         (<["name" := DataProperty (VString "Object") false false]>
          (<["prototype" := DataProperty (VObject Object_prototype) false false]>
           (methods 14 Object_methods)));
       prototype := Some Function_prototype;
       extensible := true;
       immutable_prototype := false;
       callable := fn_other |};
    {| properties :=
         <["length" := DataProperty (VNumber 0) false false]>
         (<["name" := DataProperty (VString "") false false]>
          (<["constructor" := DataProperty (VObject Function_constructor) true false]>
           (<["caller" := AccessorProperty accessor_thrower]>
            (<["arguments" := AccessorProperty accessor_thrower]>
             (methods 37 Function_prototype_methods)))));
       prototype := Some Object_prototype;
       extensible := true;
       immutable_prototype := false;
       callable := fn_other |};
    {| properties :=
         <["length" := DataProperty (VNumber 1) false false]>
         (<["name" := DataProperty (VString "Function") false false]>
          {[ "prototype" := DataProperty (VObject Function_prototype) false false ]});
       prototype := Some Function_prototype;
       extensible := true;
       immutable_prototype := false;
       callable := fn_other |} ]
  ++ (builtin_function fn_other <$> Object_prototype_methods)
  ++ ((fun f => builtin_function (callable_of (fst f)) f) <$> Object_methods)
  ++ (builtin_function fn_other <$> Function_prototype_methods).

(** ** The same computation on finite maps

    What the loop and the spreads compute when every name they use is an
    own key of the object it is looked up in: [fwd] and [rev] as maps of
    maps.  Lemma [graph_run] relates the two: with [plain_names] the call
    of [graph] in the heap returns a graph that reads as [map_graph]. *)

Definition map_or_assign_empty {A} (k : string) (m : gmap string (gmap string A))
  : gmap string (gmap string A) :=
  match m !! k with
  | Some _ => m
  | None => <[k := ∅]> m
  end.

Definition map_set_nested {A} (k l : string) (v : A) (m : gmap string (gmap string A))
  : gmap string (gmap string A) :=
  alter (<[l := v]>) k m.

Definition map_index_step (idx : LinksIndex) (linkDef : LinkDef) : LinksIndex :=
  let idx1 := {| fwd := map_or_assign_empty (on (forward linkDef)) (fwd idx);
                 rev := rev idx |} in
  let idx2 := {| fwd := fwd idx1;
                 rev := map_or_assign_empty (on (reverse linkDef)) (rev idx1) |} in
  let idx3 := {| fwd := map_set_nested (on (forward linkDef)) (label (forward linkDef))
                          {| entityName := on (reverse linkDef);
                             cardinality := has (forward linkDef) |}
                          (fwd idx2);
                 rev := rev idx2 |} in
  {| fwd := fwd idx3;
     rev := map_set_nested (on (reverse linkDef)) (label (reverse linkDef))
              {| entityName := on (forward linkDef);
                 cardinality := has (reverse linkDef) |}
              (rev idx3) |}.

Definition map_linksIndex (links : LinksDef) : LinksIndex :=
  fold_left map_index_step (Object_values links) {| fwd := ∅; rev := ∅ |}.

(** [{ ...a, ...b }] where [a] and [b] may be [undefined]: spreading
    [undefined] adds nothing, and a key of [b] replaces the same key of [a]. *)
Definition spread2 {A} (a b : option (gmap string A)) : gmap string A :=
  default ∅ b ∪ default ∅ a.

Definition map_enrich_entry (idx : LinksIndex) (entry : string * EntityDef)
  : string * EntityDef :=
  let '(name, def) := entry in
  (name, {| attrs := attrs def;
            links := spread2 (fwd idx !! name) (rev idx !! name) |}).

Definition map_enrichEntitiesWithLinks (entities : gmap string EntityDef)
    (links : LinksDef) : gmap string EntityDef :=
  Object_fromEntries (map_enrich_entry (map_linksIndex links) <$> Object_entries entities).

Definition map_graph (appId : string) (entities : gmap string EntityDef)
    (links : LinksDef) : InstantGraph :=
  {| graph_appId := appId;
     graph_entities := map_enrichEntitiesWithLinks entities links;
     graph_links := links |}.

(** ** Names that no object inherits *)

(** [k] is not a property of [Object.prototype]. *)
Definition not_inherited (h : Heap) (k : string) : bool :=
  match h !! Object_prototype with
  | Some o => bool_decide (properties o !! k = None)
  | None => false
  end.

(** Assigning to [k] on an object literal creates or updates an own
    property: [Object.prototype] has no accessor and no read-only property
    of that name. *)
Definition assignable (h : Heap) (k : string) : bool :=
  match h !! Object_prototype with
  | Some o =>
      match properties o !! k with
      | None | Some (DataProperty _ true _) => true
      | _ => false
      end
  | None => false
  end.

(** A function of [Object] that the source calls is the built-in one. *)
Definition holds_builtin (h : Heap) (name : string) (c : Callable) : bool :=
  match h !! Object_constructor with
  | Some o =>
      match properties o !! name with
      | Some (DataProperty (VObject l) _ _) =>
          bool_decide (callable <$> h !! l = Some c)
      | _ => false
      end
  | None => false
  end.


(** [Object.prototype] ends every prototype chain. *)
Definition Object_prototype_last (h : Heap) : bool :=
  match h !! Object_prototype with
  | Some o => bool_decide (prototype o = None)
  | None => false
  end.

Definition link_names_plain (h : Heap) (d : LinkDef) : bool :=
  not_inherited h (on (forward d))
  && not_inherited h (on (reverse d))
  && assignable h (label (forward d))
  && assignable h (label (reverse d)).

(** The names [links] brings in are own keys wherever the loop uses them:
    no [on] is inherited and every [label] can be assigned; and
    [Object.values] is the built-in.  [plain_names] asks the same of the
    entity names and of [Object.entries] and [Object.fromEntries]. *)
Definition plain_links (h : Heap) (links : LinksDef) : bool :=
  Object_prototype_last h
  && holds_builtin h "values" fn_Object_values
  && forallb (link_names_plain h) (Object_values links).

Definition plain_names (h : Heap) (entities : gmap string EntityDef)
    (links : LinksDef) : bool :=
  plain_links h links
  && holds_builtin h "entries" fn_Object_entries
  && holds_builtin h "fromEntries" fn_Object_fromEntries
  && forallb (not_inherited h) (fst <$> Object_entries entities).

(** ** Where the index sits in the heap

    For one direction of the index: the object stored under each entity
    name with its location, and in it the link entries with theirs. *)
Abbreviation Layout := (gmap string (loc * gmap string (loc * LinkAttrDef))).

Definition inner_object (σ : gmap string (loc * LinkAttrDef)) : JSObject :=
  literal ((fun p => VObject (fst p)) <$> σ).

Definition outer_object (ρ : Layout) : JSObject :=
  literal ((fun p => VObject (fst p)) <$> ρ).

Definition layout_maps (ρ : Layout) : gmap string (gmap string LinkAttrDef) :=
  (fun p : loc * gmap string (loc * LinkAttrDef) => snd <$> snd p) <$> ρ.

Definition placed (ρf ρr : Layout) (l : loc) (σ : gmap string (loc * LinkAttrDef))
  : Prop :=
  exists k, ρf !! k = Some (l, σ) \/ ρr !! k = Some (l, σ).

(** The heap [h] extends [h0] by an index whose two directions are the
    objects [f] and [r], laid out as [ρf] and [ρr]; no two names share an
    object. *)
Record index_in (h0 h : Heap) (f r : loc) (ρf ρr : Layout) : Prop := mk_index_in {
  index_prefix : h0 `prefix_of` h;
  index_fwd : h !! f = Some (outer_object ρf);
  index_rev : h !! r = Some (outer_object ρr);
  index_apart : f ≠ r;
  index_fwd_new : List.length h0 <= f;
  index_rev_new : List.length h0 <= r;
  index_inner : forall l σ, placed ρf ρr l σ ->
    h !! l = Some (inner_object σ) /\ List.length h0 <= l /\ l ≠ f /\ l ≠ r;
  index_link : forall l σ lab lv v, placed ρf ρr l σ -> σ !! lab = Some (lv, v) ->
    h !! lv = Some (link_object v);
  index_inj_fwd : forall k k' l σ σ',
    ρf !! k = Some (l, σ) -> ρf !! k' = Some (l, σ') -> k = k';
  index_inj_rev : forall k k' l σ σ',
    ρr !! k = Some (l, σ) -> ρr !! k' = Some (l, σ') -> k = k';
  index_inj_apart : forall k k' l σ σ',
    ρf !! k = Some (l, σ) -> ρr !! k' = Some (l, σ') -> False;
}.

(** The values a spread copies out of the object stored under [name]. *)
Definition layout_values (ρ : Layout) (name : string) : gmap string Value :=
  match ρ !! name with
  | Some p => (fun q : loc * LinkAttrDef => VObject (fst q)) <$> snd p
  | None => ∅
  end.

(** The index as typed maps: the own enumerable properties of [fwd] and
    [rev], each an object whose own enumerable properties are
    [LinkAttrDef] literals. *)
Definition own_enumerable (o : JSObject) : gmap string Value :=
  omap enumerable_value (properties o).

Definition read_links_object (h : Heap) (v : Value)
  : option (gmap string LinkAttrDef) :=
  match v with
  | VObject l => o ← h !! l; read_all (read_LinkAttrDef h) (own_enumerable o)
  | _ => None
  end.

Definition read_direction (h : Heap) (l : loc)
  : option (gmap string (gmap string LinkAttrDef)) :=
  o ← h !! l; read_all (read_links_object h) (own_enumerable o).

Definition read_index (h : Heap) (idx : LinksIndexObject) : option LinksIndex :=
  f ← read_direction h (fwd_object idx);
  r ← read_direction h (rev_object idx);
  Some {| fwd := f; rev := r |}.

(** ** Notions used in the statements about a call *)

(** Called in heap [h], [graph] returns a graph that reads as [g], and
    every object of [h] is afterwards what it was. *)
Definition graph_returns (h : Heap) (appId : string)
    (entities : gmap string EntityDef) (lnks : LinksDef) (g : InstantGraph) : Prop :=
  exists o h',
    graph appId entities lnks h = (Normal o, h') /\
    h `prefix_of` h' /\
    read_graph h' o = Some g.

(** Run in heap [h], the declaration of [linksIndex] and the loop end with
    an index that reads as [idx], and every object of [h] is afterwards
    what it was. *)
Definition linksIndex_returns (h : Heap) (lnks : LinksDef) (idx : LinksIndex) : Prop :=
  exists o h',
    linksIndex lnks h = (Normal o, h') /\
    h `prefix_of` h' /\
    read_index h' o = Some idx.


(** ** InstaQL helper types *)

(** A query document: nested objects keyed by entity, link or control names. *)
Inductive Query := QObj (fields : list (string * Query)).

Definition query_fields (q : Query) : list (string * Query) :=
  match q with QObj fields => fields end.

(** Type of one attribute in a result: [ValueType] or [ValueType | undefined]. *)
Record AttrResult := mkAttrResult {
  attr_type : ValueTypes;
  or_undefined : bool;
}.

(** Descriptor of a result type: [never], the intersection
    [InstaQLAttrsResult & InstaQLLinksResult] of an entity, or [T[]]. *)
Inductive ResultType :=
| TNever
| TEntity (attrsResult : gmap string AttrResult)
          (linksResult : list (string * ResultType))
| TArray (elem : ResultType).

(** [Entities[EntityName]["attrs"]] and [Entities[EntityName]["links"]] *)
Definition entity_attrs (entities : gmap string EntityDef) (name : string)
  : gmap string DataAttrDef :=
  default ∅ (attrs <$> entities !! name).

Definition entity_links (entities : gmap string EntityDef) (name : string)
  : gmap string LinkAttrDef :=
  default ∅ (links <$> entities !! name).

(** [IsRequired extends true ? ValueType : ValueType | undefined] *)
Definition attr_result (d : DataAttrDef) : AttrResult :=
  {| attr_type := valueType d; or_undefined := negb (required d) |}.

(** [type InstaQLAttrsResult<Entities, EntityName>] *)
Definition InstaQLAttrsResult (entities : gmap string EntityDef) (name : string)
  : gmap string AttrResult :=
  attr_result <$> entity_attrs entities name.

(** One property of [InstaQLLinksResult]; [rec] stands for
    [InstaQLEntityResult<Entities, _, _>]. *)
Definition link_result (rec : string -> Query -> ResultType)
    (entities : gmap string EntityDef) (name : string)
    (field : string * Query) : string * ResultType :=
  (fst field,
   match entity_links entities name !! fst field with
   | Some lnk =>
       match entities !! entityName lnk with
       | Some _ =>
           match cardinality lnk with
           | one => rec (entityName lnk) (snd field)
           | many => TArray (rec (entityName lnk) (snd field))
           end
       | None => TNever
       end
   | None => TNever
   end).

(** [type InstaQLEntityResult<Entities, EntityName, Query> =
      InstaQLAttrsResult<Entities, EntityName> &
      InstaQLLinksResult<Entities, EntityName, Query>] *)
Fixpoint InstaQLEntityResult (entities : gmap string EntityDef) (name : string)
    (q : Query) : ResultType :=
  match q with
  | QObj fields =>
      TEntity (InstaQLAttrsResult entities name)
              (map (link_result (fun n sub => InstaQLEntityResult entities n sub)
                                entities name) fields)
  end.

(** [type InstaQLLinksResult<Entities, EntityName, Query>] *)
Definition InstaQLLinksResult (entities : gmap string EntityDef) (name : string)
    (q : Query) : list (string * ResultType) :=
  map (link_result (InstaQLEntityResult entities) entities name) (query_fields q).

(** [Omit<T, K>] *)
Definition Omit (t : ResultType) (k : string) : ResultType :=
  match t with
  | TEntity a l => TEntity (delete k a) (filter (fun f => fst f ≠ k) l)
  | _ => t
  end.

(** [Q extends { $first: any }] *)
Definition extends_first (q : Query) : bool :=
  bool_decide ("$first" ∈ map fst (query_fields q)).

(** One property of [InstaQLQueryResult]. *)
Definition query_result_field (entities : gmap string EntityDef)
    (field : string * Query) : string * ResultType :=
  (fst field,
   match entities !! fst field with
   | Some _ =>
       if extends_first (snd field)
       then Omit (InstaQLEntityResult entities (fst field) (snd field)) "$first"
       else TArray (InstaQLEntityResult entities (fst field) (snd field))
   | None => TNever
   end).

(** [type InstaQLQueryResult<Entities, Query>] *)
Definition InstaQLQueryResult (entities : gmap string EntityDef) (q : Query)
  : list (string * ResultType) :=
  map (query_result_field entities) (query_fields q).

(** ** The behaviour section 4 and 7 of the specification ask of a
       stricter implementation

    These two definitions follow the words of the specification, not the
    source; they are what the source is compared with where the
    specification asks for an error. *)

Inductive SchemaError :=
| DuplicateLinkLabel (entity lbl : string)
| UnknownLink (entity lbl : string).

(** Specification 4.1: writing a key that already holds a different
    target or cardinality fails with [DuplicateLinkLabel]. *)
Definition spec_checked_write (k l : string) (v : LinkAttrDef)
    (m : gmap string (gmap string LinkAttrDef))
  : SchemaError + gmap string (gmap string LinkAttrDef) :=
  match m !! k ≫= (fun inner => inner !! l) with
  | Some v' => if decide (v' = v) then inr m else inl (DuplicateLinkLabel k l)
  | None => inr (map_set_nested k l v (map_or_assign_empty k m))
  end.

Definition spec_index_step (acc : SchemaError + LinksIndex) (d : LinkDef)
  : SchemaError + LinksIndex :=
  match acc with
  | inl e => inl e
  | inr idx =>
      match spec_checked_write (on (forward d)) (label (forward d))
              {| entityName := on (reverse d); cardinality := has (forward d) |}
              (fwd idx) with
      | inl e => inl e
      | inr f =>
          match spec_checked_write (on (reverse d)) (label (reverse d))
                  {| entityName := on (forward d); cardinality := has (reverse d) |}
                  (rev idx) with
          | inl e => inl e
          | inr r => inr {| fwd := f; rev := r |}
          end
      end
  end.

Definition spec_buildIndex (links : LinksDef) : SchemaError + LinksIndex :=
  fold_left spec_index_step (Object_values links) (inr {| fwd := ∅; rev := ∅ |}).

(** Specification 4.3: a nested query key that is not a link label of the
    current entity signals [UnknownLink] with the entity and the label;
    the reserved control key is not a link traversal. *)
Fixpoint spec_resolveEntity (entities : gmap string EntityDef) (name : string)
    (q : Query) : SchemaError + ResultType :=
  match q with
  | QObj fields =>
      let fix go (fs : list (string * Query))
        : SchemaError + list (string * ResultType) :=
        match fs with
        | [] => inr []
        | (k, sub) :: rest =>
            if decide (k = "$first") then go rest else
            match entity_links entities name !! k with
            | None => inl (UnknownLink name k)
            | Some lnk =>
                match spec_resolveEntity entities (entityName lnk) sub with
                | inl e => inl e
                | inr t =>
                    match go rest with
                    | inl e => inl e
                    | inr ts =>
                        inr ((k, match cardinality lnk with
                                 | one => t
                                 | many => TArray t
                                 end) :: ts)
                    end
                end
            end
        end in
      match go fields with
      | inl e => inl e
      | inr ls => inr (TEntity (InstaQLAttrsResult entities name) ls)
      end
  end.

Fixpoint spec_resolveQuery (entities : gmap string EntityDef)
    (fields : list (string * Query))
  : SchemaError + list (string * ResultType) :=
  match fields with
  | [] => inr []
  | (k, sub) :: rest =>
      match spec_resolveEntity entities k sub with
      | inl e => inl e
      | inr t =>
          match spec_resolveQuery entities rest with
          | inl e => inl e
          | inr ts =>
              inr ((k, if extends_first sub then t else TArray t) :: ts)
          end
      end
  end.

(** ** Example schemas *)

Definition plain (vt : ValueTypes) : DataAttrDef :=
  {| valueType := vt; required := true;
     config := {| cfg_indexed := false; cfg_unique := false |} |}.

(** Entities [{authors: {name}, posts: {title}}] linked by
    [authors.posts] (many) / [posts.author] (one). *)
Definition blog_entities : gmap string EntityDef :=
  {[ "authors" := entity {[ "name" := plain vt_string ]};
     "posts" := entity {[ "title" := plain vt_string ]} ]}.

Definition blog_links : LinksDef :=
  [("authorPosts",
    {| forward := {| on := "authors"; label := "posts"; has := many |};
       reverse := {| on := "posts"; label := "author"; has := one |} |})].

(** The graph [i.graph("app", ...)] returns for them. *)
Definition blog : InstantGraph := map_graph "app" blog_entities blog_links.

(** A self-link [posts.replies] (many) / [posts.parent] (one). *)
Definition thread_entities : gmap string EntityDef :=
  {[ "posts" := entity ∅ ]}.

Definition thread_links : LinksDef :=
  [("postReplies",
    {| forward := {| on := "posts"; label := "replies"; has := many |};
       reverse := {| on := "posts"; label := "parent"; has := one |} |})].

(** A self-link whose two directions carry the same label. *)
Definition related_links : LinksDef :=
  [("postRelated",
    {| forward := {| on := "posts"; label := "related"; has := many |};
       reverse := {| on := "posts"; label := "related"; has := one |} |})].

(** Two links that both write the forward label [tags] on [posts]. *)
Definition tags_entities : gmap string EntityDef :=
  {[ "posts" := entity ∅; "tags" := entity ∅; "categories" := entity ∅ ]}.

Definition tags_links : LinksDef :=
  [("postTags",
    {| forward := {| on := "posts"; label := "tags"; has := many |};
       reverse := {| on := "tags"; label := "posts"; has := many |} |});
   ("postCategories",
    {| forward := {| on := "posts"; label := "tags"; has := many |};
       reverse := {| on := "categories"; label := "posts"; has := many |} |})].


(** ** Notions used in the statements *)

(** [m[e]?.[l]] *)
Definition nested_lookup {A} (m : gmap string (gmap string A)) (e l : string)
  : option A :=
  m !! e ≫= (fun inner => inner !! l).

(** The two statements [m[k] ||= {}; m[k][l] = v] together. *)
Definition write {A} (k l : string) (v : A) (m : gmap string (gmap string A))
  : gmap string (gmap string A) :=
  map_set_nested k l v (map_or_assign_empty k m).

Definition fwd_key (d : LinkDef) : string * string :=
  (on (forward d), label (forward d)).

Definition rev_key (d : LinkDef) : string * string :=
  (on (reverse d), label (reverse d)).

Definition fwd_entry (d : LinkDef) : LinkAttrDef :=
  {| entityName := on (reverse d); cardinality := has (forward d) |}.

Definition rev_entry (d : LinkDef) : LinkAttrDef :=
  {| entityName := on (forward d); cardinality := has (reverse d) |}.

(** No two link definitions write the same [(entity, label)] key in the
    same direction. *)
Definition no_collision (links : LinksDef) : Prop :=
  NoDup (fwd_key <$> Object_values links) /\
  NoDup (rev_key <$> Object_values links).

Definition enriched (idx : LinksIndex) (name : string) (def : EntityDef) : EntityDef :=
  {| attrs := attrs def;
     links := spread2 (fwd idx !! name) (rev idx !! name) |}.

(** The statement of C1, with [A] and [B] declared entities and plain
    names: under [no_collision], every link definition shows up as the
    entry [x] of its forward entity and as the entry [y] of its reverse
    entity. *)
Definition link_entries_as_stated : Prop :=
  forall h appId entities (lnks : LinksDef) d,
    plain_names h entities lnks = true ->
    no_collision lnks ->
    d ∈ Object_values lnks ->
    on (forward d) ∈ dom entities ->
    on (reverse d) ∈ dom entities ->
    exists g,
      graph_returns h appId entities lnks g /\
      entity_links (graph_entities g) (on (forward d)) !! label (forward d)
        = Some {| entityName := on (reverse d); cardinality := has (forward d) |} /\
      entity_links (graph_entities g) (on (reverse d)) !! label (reverse d)
        = Some {| entityName := on (forward d); cardinality := has (reverse d) |}.

(** [op] called on [this] returns a reference [r] to a new instance and
    a store in which every object of [s] is what it was; [a'] is what the
    new instance holds. *)
Definition returns_new (op : loc -> Store -> option (loc * Store))
    (this : loc) (s : Store) (a' : DataAttrDef) : Prop :=
  exists r s',
    op this s = Some (r, s') /\
    r ≠ this /\
    s !! r = None /\
    read_DataAttrDef s' r = Some a' /\
    (forall l o, s !! l = Some o -> s' !! l = Some o).

(** A store with [i.string().unique()] at reference 1. *)
Definition sample_store : Store :=
  snd (default (0, []) (unique 1 (snd (i_string [])))).

(** [op] called on [this] hands back a different, new reference and a
    store in which [this] still reads as [a] and every other existing
    object is what it was. *)
Definition leaves_receiver (op : loc -> Store -> option (loc * Store))
    (this : loc) (s : Store) (a : DataAttrDef) : Prop :=
  exists r s',
    op this s = Some (r, s') /\
    r ≠ this /\
    s !! r = None /\
    is_Some (read_DataAttrDef s' r) /\
    (forall l o, s !! l = Some o -> s' !! l = Some o) /\
    read_DataAttrDef s' this = Some a.


Definition result_links (t : ResultType) : list (string * ResultType) :=
  match t with TEntity _ l => l | _ => [] end.


(** ** Chains of modifiers *)

(** The three methods of [DataAttrDef], to speak of a chain
    [a.m1().m2()...]. *)
Inductive Modifier := m_optional | m_unique | m_indexed.

Definition call_modifier (m : Modifier) : loc -> Store -> option (loc * Store) :=
  match m with
  | m_optional => optional
  | m_unique => unique
  | m_indexed => indexed
  end.

(** [this.m1().m2()...]: each method is called on what the one before
    returned. *)
Fixpoint call_chain (ms : list Modifier) (this : loc) (s : Store)
  : option (loc * Store) :=
  match ms with
  | [] => Some (this, s)
  | m :: ms' =>
      match call_modifier m this s with
      | Some (r, s') => call_chain ms' r s'
      | None => None
      end
  end.

(** The contents of the instance a method returns, from the contents of
    its receiver. *)
Definition modified (a : DataAttrDef) (m : Modifier) : DataAttrDef :=
  match m with
  | m_optional =>
      {| valueType := valueType a; required := false;
         config := {| cfg_indexed := false; cfg_unique := false |} |}
  | m_unique =>
      {| valueType := valueType a; required := required a;
         config := {| cfg_indexed := cfg_indexed (config a); cfg_unique := true |} |}
  | m_indexed =>
      {| valueType := valueType a; required := required a;
         config := {| cfg_indexed := true; cfg_unique := cfg_unique (config a) |} |}
  end.

(** ** The derived types [EntitiesWithLinks]

    The static type [graph] declares for its enriched entities, computed
    from the types of [entities] and [links]. Every [on], [label] and
    [has] of a link is a literal type (the [Links] type parameter is
    [const]), so [extends] between them is equality. *)

Inductive Direction := dir_forward | dir_reverse.

(** [Links[LinkName][Direction]] *)
Definition link_side (dir : Direction) (d : LinkDef) : LinkSide :=
  match dir with
  | dir_forward => forward d
  | dir_reverse => reverse d
  end.

(** The key remapping [LinkName in keyof Links as ...["label"]]: links
    remapped to one key give a property whose type is the union of
    theirs, kept as the list of its members. *)
Definition remap_by_label (dir : Direction) (ds : list LinkDef)
  : gmap string (list LinkDef) :=
  fold_right
    (fun d m =>
       <[label (link_side dir d) :=
           d :: default [] (m !! label (link_side dir d))]> m)
    ∅ ds.

(** [type LinksIndexedByEntity<Entities, Links, Direction>] *)
Definition LinksIndexedByEntity (entities : gmap string EntityDef)
    (links : LinksDef) (dir : Direction) : gmap string (gmap string (list LinkDef)) :=
  map_imap
    (fun E _ =>
       Some (remap_by_label dir
               (filter (fun d => on (link_side dir d) = E) (Object_values links))))
    entities.

(** A static [{ entityName; cardinality }]: each field is the union of
    the literal types inferred for it, kept as the list of its members. *)
Record StaticLinkAttr := mkStaticLinkAttr {
  static_entityName : list string;
  static_cardinality : list CardinalityKind;
}.

(** [type EntityForwardLinksMap<EntityName, Entities, Links,
      LinkIndexFwd = LinksIndexedByEntity<Entities, Links, "reverse">>]:
    [Cardinality] is inferred at the fourth argument of [LinkDef]
    ([FwdCardinality]) and [RelatedEntityName] at the fifth ([RevEntity]). *)
Definition EntityForwardLinksMap (name : string) (entities : gmap string EntityDef)
    (links : LinksDef) : gmap string StaticLinkAttr :=
  match LinksIndexedByEntity entities links dir_reverse !! name with
  | Some m =>
      (fun ds => {| static_entityName := (fun d => on (reverse d)) <$> ds;
                    static_cardinality := (fun d => has (forward d)) <$> ds |}) <$> m
  | None => ∅
  end.

(** [type EntityReverseLinksMap<EntityName, Entities, Links,
      RevLinkIndex = LinksIndexedByEntity<Entities, Links, "forward">>]:
    [RelatedEntityName] is inferred at the second argument of [LinkDef]
    ([FwdEntity]) and [Cardinality] at the seventh ([RevCardinality]). *)
Definition EntityReverseLinksMap (name : string) (entities : gmap string EntityDef)
    (links : LinksDef) : gmap string StaticLinkAttr :=
  match LinksIndexedByEntity entities links dir_forward !! name with
  | Some m =>
      (fun ds => {| static_entityName := (fun d => on (forward d)) <$> ds;
                    static_cardinality := (fun d => has (reverse d)) <$> ds |}) <$> m
  | None => ∅
  end.

(** [type EntityWithLinks<EntityName, Entities, Links>]; the intersection
    [EntityForwardLinksMap & EntityReverseLinksMap] is kept as its two
    operands. *)
Record StaticEntity := mkStaticEntity {
  static_attrs : gmap string DataAttrDef;
  static_links_forward : gmap string StaticLinkAttr;
  static_links_reverse : gmap string StaticLinkAttr;
}.

Definition EntityWithLinks (name : string) (entities : gmap string EntityDef)
    (links : LinksDef) : StaticEntity :=
  {| static_attrs := entity_attrs entities name;
     static_links_forward := EntityForwardLinksMap name entities links;
     static_links_reverse := EntityReverseLinksMap name entities links |}.

(** [type EntitiesWithLinks<Entities, Links>] *)
Definition EntitiesWithLinks (entities : gmap string EntityDef) (links : LinksDef)
  : gmap string StaticEntity :=
  map_imap (fun name _ => Some (EntityWithLinks name entities links)) entities.

(** A runtime entry is of a static type when each of its fields is one
    of the literals of the union. *)
Definition has_static_type (v : LinkAttrDef) (t : StaticLinkAttr) : Prop :=
  entityName v ∈ static_entityName t /\ cardinality v ∈ static_cardinality t.

(** ** The Stripe webhook ([server/src/instant/stripe.clj])

    A Clojure value that may be [nil] is an [option]. The subscription
    model ([instant.model.instant-subscription]) is not part of these
    sources: its store and its two functions are parameters. The calls
    the handler makes are recorded in order. *)

Definition FREE_SUBSCRIPTION_TYPE : nat := 1.
Definition PRO_SUBSCRIPTION_TYPE : nat := 2.

(** The event after [<-json]: [:id], [:type], and from [(:object data)]
    the keys [:customer], [:subscription] and [:metadata]'s [:app-id] and
    [:user-id]. *)
Record StripeEvent := mkStripeEvent {
  event_id : option string;
  event_type : option string;
  object_customer : option string;
  object_subscription : option string;
  metadata_app_id : option string;
  metadata_user_id : option string;
}.

(** The map given to [instant-subscription-model/create!]. *)
Record SubscriptionOpts := mkSubscriptionOpts {
  opts_user_id : option string;
  opts_app_id : option string;
  opts_stripe_customer_id : option string;
  opts_stripe_subscription_id : option string;
  opts_stripe_event_id : option string;
  opts_subscription_type_id : nat;
}.

(** The [:attributes] given to [tracer/add-data!]. *)
Inductive TraceAttrs :=
| already_processed
| skipped_event
| opts_attributes (opts : SubscriptionOpts).

Inductive StripeCall :=
| call_create (opts : SubscriptionOpts)
| call_ping_new_customer (user_id : option string)
| call_ping_churned_customer (user_id : option string)
| call_add_data (attrs : TraceAttrs).

(** [(when (= :prod (config/get-env)) (ping user-id))] *)
Definition when_prod (env : string) (c : StripeCall) : list StripeCall :=
  if decide (env = "prod") then [c] else [].

(** [shared]: the map both branches extend with [:subscription-type-id]. *)
Definition shared_opts (e : StripeEvent) (type_id : nat) : SubscriptionOpts :=
  {| opts_user_id := metadata_user_id e;
     opts_app_id := metadata_app_id e;
     opts_stripe_customer_id := object_customer e;
     opts_stripe_subscription_id := object_subscription e;
     opts_stripe_event_id := event_id e;
     opts_subscription_type_id := type_id |}.

Section stripe.
Context {DB : Type}.
(** [get-by-event-id], as the truth value [processed-event?] tests, and
    [create!]. *)
Context (get_by_event_id : option string -> DB -> bool).
Context (create : SubscriptionOpts -> DB -> DB).

(** [(defn- processed-event? [event-id] ...)] *)
Definition processed_event (id : option string) (db : DB) : bool :=
  get_by_event_id id db.

(** [(defn handle-stripe-webhook-event [{:keys [id type data]}] ...)] *)
Definition handle_stripe_webhook_event (env : string) (e : StripeEvent) (db : DB)
  : DB * list StripeCall :=
  if processed_event (event_id e) db
  then (db, [call_add_data already_processed])
  else
    if decide (event_type e = Some "checkout.session.completed") then
      let opts := shared_opts e PRO_SUBSCRIPTION_TYPE in
      (create opts db,
       [call_create opts]
         ++ when_prod env (call_ping_new_customer (metadata_user_id e))
         ++ [call_add_data (opts_attributes opts)])
    else if decide (event_type e = Some "customer.subscription.deleted") then
      let opts := shared_opts e FREE_SUBSCRIPTION_TYPE in
      (create opts db,
       [call_create opts]
         ++ when_prod env (call_ping_churned_customer (metadata_user_id e))
         ++ [call_add_data (opts_attributes opts)])
    else (db, [call_add_data skipped_event]).
End stripe.

(** A subscription store for the examples: the list of what was created,
    searched by event id. *)
Definition list_get_by_event_id (id : option string) (db : list SubscriptionOpts)
  : bool :=
  bool_decide (Exists (fun o => opts_stripe_event_id o = id) db).

Definition list_create (o : SubscriptionOpts) (db : list SubscriptionOpts)
  : list SubscriptionOpts :=
  o :: db.

Definition checkout_event : StripeEvent :=
  {| event_id := Some "evt_1"; event_type := Some "checkout.session.completed";
     object_customer := Some "cus_1"; object_subscription := Some "sub_1";
     metadata_app_id := Some "app_1"; metadata_user_id := Some "user_1" |}.

(** ** The command actions of the CLI ([push-schema], [push-perms])

    An [async] function is a computation that reads the answers of the
    outside world (prompts, files, the HTTP server) from a [World] and
    yields the calls it made, in order, with its result; [None] as result
    is a rejected promise. What the server sends is read through the
    fields the code uses. *)

Inductive Color := magenta | green | blue.

(** One element of [planResData.steps]: [[action, attr]], with
    [attr["forward-identity"] = [_, fns, fname]], the optional
    [attr["reverse-identity"]], [attr["value-type"]], [attr["unique?"]]
    and [attr["index?"]]. *)
Record Step := mkStep {
  step_action : string;
  forward_identity : string * string;
  reverse_identity : option (string * string);
  value_type : string;
  attr_unique : bool;
  attr_index : bool;
}.

(** One element of [data.hint.errors]. *)
Record HintError := mkHintError {
  error_in : list string;
  error_message : string;
}.

(** The JSON body of a response. *)
Record ResJson := mkResJson {
  json_steps : option (list Step);
  json_message : option string;
  json_hint_errors : option (list HintError);
}.

Record Response := mkResponse {
  res_ok : bool;
  res_status : string;
  res_statusText : string;
  res_json : option ResJson;
}.

(** The argument of [JSON.stringify] in a request. *)
Inductive Body :=
| body_schema (schema : InstantGraph)
| body_code (perms : string).

(** The arguments of [fetch]. *)
Record Request := mkRequest {
  req_url : string;
  req_method : string;
  req_authorization : string;
  req_content_type : string;
  req_body : Body;
}.

Inductive CliCall :=
| call_confirm (message : string)
| call_readFile (path : string)
| call_loadConfig (files : string)
| call_fetch (req : Request)
| call_log (line : string)
| call_error (line : string).

Record World := mkWorld {
  options_y : bool;
  options_token : option string;
  dev : bool;
  verbose : bool;
  authConfigFilePath : string;
  chalk : Color -> string -> string;
  inspect : ResJson -> string;
  confirm_answer : string -> option bool;
  file_content : string -> option string;
  local_schema : option (option InstantGraph);
  local_perms : option (option string);
  fetch_response : Request -> option Response;
}.

Definition Cli (A : Type) : Type := World -> list CliCall * option A.

Definition cli_ret {A} (a : A) : Cli A := fun _ => ([], Some a).

Definition cli_bind {A B} (m : Cli A) (k : A -> Cli B) : Cli B :=
  fun w =>
    match m w with
    | (t, Some a) => let '(t', r) := k a w in (t ++ t', r)
    | (t, None) => (t, None)
    end.

(** [m.catch(() => a)] *)
Definition cli_catch {A} (m : Cli A) (a : A) : Cli A :=
  fun w =>
    match m w with
    | (t, Some x) => (t, Some x)
    | (t, None) => (t, Some a)
    end.

Definition cli_ask {A} (f : World -> A) : Cli A := fun w => ([], Some (f w)).

Definition cli_call {A} (c : CliCall) (answer : World -> option A) : Cli A :=
  fun w => ([c], answer w).

Notation "x <- m ;; k" := (cli_bind m (fun x => k))
  (at level 100, m at next level, right associativity).
Notation "m ;;; k" := (cli_bind m (fun _ => k))
  (at level 100, right associativity).

Definition console_log (line : string) : Cli unit :=
  cli_call (call_log line) (fun _ => Some tt).

Definition console_error (line : string) : Cli unit :=
  cli_call (call_error line) (fun _ => Some tt).

Definition confirm (message : string) : Cli bool :=
  cli_call (call_confirm message) (fun w => confirm_answer w message).

Definition readFile (path : string) : Cli string :=
  cli_call (call_readFile path) (fun w => file_content w path).

Definition fetch (req : Request) : Cli Response :=
  cli_call (call_fetch req) (fun w => fetch_response w req).

(** [res.json()] *)
Definition response_json (res : Response) : Cli ResJson :=
  fun _ => ([], res_json res).

(** Truth value of a string that may be [null] or [undefined]. *)
Definition truthy (s : option string) : bool :=
  match s with
  | Some s => negb (String.eqb s "")
  | None => false
  end.

(** [cond && then] for effects. *)
Definition cli_when (b : bool) (m : Cli unit) : Cli unit :=
  if b then m else cli_ret tt.

Definition instantBackendOrigin (w : World) : string :=
  if dev w then "http://localhost:8888" else "https://api.instantdb.com".

(** [async function promptOk(message)] *)
Definition promptOk (message : string) : Cli bool :=
  y <- cli_ask options_y ;;
  if y then cli_ret true else cli_catch (confirm message) false.

(** [async function readConfigAuthToken()] *)
Definition readConfigAuthToken : Cli (option string) :=
  token <- cli_ask options_token ;;
  if truthy token then cli_ret token
  else
    path <- cli_ask authConfigFilePath ;;
    cli_catch (s <- readFile path ;; cli_ret (Some s)) None.

(** [async function readLocalSchema()] *)
Definition readLocalSchema : Cli (option InstantGraph) :=
  cli_call (call_loadConfig "instant.schema") local_schema.

(** [async function readLocalPerms()], its [perms] field. *)
Definition readLocalPerms : Cli (option string) :=
  cli_call (call_loadConfig "instant.perms") local_perms.

(** [error.in.join("->")] *)
Definition join_arrow (l : list string) : string := String.concat "->" l.

(** [function logApiErrors(data)] *)
Definition logApiErrors (data : ResJson) : Cli unit :=
  cli_when (truthy (json_message data))
           (console_error (default "" (json_message data))) ;;;
  match json_hint_errors data with
  | Some errors =>
      fold_right
        (fun error rest =>
           console_error (join_arrow (error_in error) ++ ": " ++ error_message error) ;;;
           rest)
        (cli_ret tt) errors
  | None => cli_ret tt
  end.

Definition show_bool (b : bool) : string := if b then "true" else "false".

(** [action === "add-attr" ? a : b] *)
Definition add_or_update {A} (action : string) (a b : A) : A :=
  if String.eqb action "add-attr" then a else b.

(** The line the loop of [pushSchema] prints for one step. *)
Definition step_line (paint : Color -> string -> string) (st : Step) : string :=
  let '(fns, fname) := forward_identity st in
  let '(rns, rname) :=
    match reverse_identity st with
    | Some (rns, rname) => (rns, rname)
    | None => ("null", "null")
    end in
  if String.eqb (value_type st) "blob" && String.eqb fname "id" then
    add_or_update (step_action st)
      (paint magenta "ADD ENTITY") (paint magenta "UPDATE ENTITY")
    ++ " " ++ fns
  else if String.eqb (value_type st) "blob" then
    add_or_update (step_action st) (paint green "ADD ATTR") (paint blue "UPDATE ATTR")
    ++ " " ++ fns ++ "." ++ fname
    ++ " :: unique=" ++ show_bool (attr_unique st)
    ++ ", indexed=" ++ show_bool (attr_index st)
  else
    add_or_update (step_action st) (paint green "ADD LINK") (paint blue "UPDATE LINK")
    ++ " " ++ fns ++ "." ++ fname ++ " <=> " ++ rns ++ "." ++ rname.

Definition push_request (w : World) (path : string) (authToken : string)
    (body : Body) : Request :=
  {| req_url := instantBackendOrigin w ++ path;
     req_method := "POST";
     req_authorization := "Bearer " ++ authToken;
     req_content_type := "application/json";
     req_body := body |}.

Definition plan_path (appId : string) : string :=
  "/dash/apps/" ++ appId ++ "/schema/push/plan".

Definition apply_path (appId : string) : string :=
  "/dash/apps/" ++ appId ++ "/schema/push/apply".

Definition rules_path (appId : string) : string :=
  "/dash/apps/" ++ appId ++ "/rules".

(** [async function pushSchema()] *)
Definition pushSchema : Cli unit :=
  authToken <- readConfigAuthToken ;;
  schema <- readLocalSchema ;;
  ok <- promptOk "This will immediately update your production schema, OK to proceed?" ;;
  if negb ok then cli_ret tt else
  console_log "Planning..." ;;;
  if negb (truthy authToken) then
    console_error "Unauthenticated.  Please log in with `login`!"
  else
  match schema with
  | None => console_error "Missing instant.schema file!"
  | Some schema =>
  if negb (truthy (Some (graph_appId schema))) then
    console_error "Missing app ID in instant.schema!"
  else
  w <- cli_ask id ;;
  planRes <- fetch (push_request w (plan_path (graph_appId schema))
                      (default "" authToken) (body_schema schema)) ;;
  cli_when (verbose w)
    (console_log ("Plan response: " ++ res_status planRes ++ " "
                  ++ res_statusText planRes)) ;;;
  if negb (res_ok planRes) then console_error "Failed to update schema" else
  planResData <- response_json planRes ;;
  cli_when (verbose w) (console_log (inspect w planResData)) ;;;
  match json_steps planResData with
  | None => fun _ => ([], None)
  | Some steps =>
  if Nat.eqb (List.length steps) 0 then
    console_log "No schema changes detected.  Exiting."
  else
  console_log "" ;;;
  console_log "The following changes will be applied to your production schema:" ;;;
  fold_right (fun st rest => console_log (step_line (chalk w) st) ;;; rest)
             (cli_ret tt) steps ;;;
  console_log "" ;;;
  okPush <- promptOk "OK to proceed?" ;;
  if negb okPush then cli_ret tt else
  applyRes <- fetch (push_request w (apply_path (graph_appId schema))
                       (default "" authToken) (body_schema schema)) ;;
  cli_when (verbose w)
    (console_log ("Apply response: " ++ res_status applyRes ++ " "
                  ++ res_statusText applyRes)) ;;;
  if res_ok applyRes then console_log (chalk w green "Schema updated!")
  else
    console_error "Failed to update schema" ;;;
    data <- response_json applyRes ;;
    logApiErrors data
  end
  end.

(** [async function pushPerms()] *)
Definition pushPerms : Cli unit :=
  authToken <- readConfigAuthToken ;;
  schema <- readLocalSchema ;;
  perms <- readLocalPerms ;;
  ok <- promptOk "This will immediately replace your production perms with your local perms, OK to proceed?" ;;
  if negb ok then cli_ret tt else
  if negb (truthy authToken) then console_error "Please log in with `login`!" else
  match schema with
  | None => console_error "Missing instant.schema file!"
  | Some schema =>
  if negb (truthy (Some (graph_appId schema))) then
    console_error "Missing app ID in instant.schema!"
  else
  match perms with
  | None => console_error "Missing instant.perms file!"
  | Some perms =>
  w <- cli_ask id ;;
  permsRes <- fetch (push_request w (rules_path (graph_appId schema))
                       (default "" authToken) (body_code perms)) ;;
  cli_when (verbose w)
    (console_log ("Apply response: " ++ res_status permsRes ++ " "
                  ++ res_statusText permsRes)) ;;;
  if res_ok permsRes then console_log "Permissions updated"
  else
    console_error "Failed to update permissions" ;;;
    data <- response_json permsRes ;;
    logApiErrors data
  end
  end.

(** The answer [promptOk] resolves to. *)
Definition accepted (w : World) (message : string) : bool :=
  if options_y w then true else default false (confirm_answer w message).

(** The token [readConfigAuthToken] resolves to. *)
Definition auth_token_of (w : World) : option string :=
  if truthy (options_token w) then options_token w
  else file_content w (authConfigFilePath w).

(** A world for the examples: logged in, a schema and perms on disk, a
    server that accepts everything and plans one step. *)
Definition sample_step : Step :=
  {| step_action := "add-attr"; forward_identity := ("posts", "id");
     reverse_identity := None; value_type := "blob";
     attr_unique := false; attr_index := false |}.

Definition sample_world : World :=
  {| options_y := false; options_token := None; dev := false; verbose := false;
     authConfigFilePath := "/config/instantdb/a";
     chalk := fun _ s => s;
     inspect := fun _ => "";
     confirm_answer := fun _ => Some true;
     file_content := fun _ => Some "token";
     local_schema := Some (Some blog);
     local_perms := Some (Some "{}");
     fetch_response := fun _ =>
       Some {| res_ok := true; res_status := "200"; res_statusText := "OK";
               res_json := Some {| json_steps := Some [sample_step];
                                   json_message := None;
                                   json_hint_errors := None |} |} |}.

(** ** The explorer query ([useNamespacesQuery])

    The argument of the first [db.useQuery]. [limit] and [offset] are
    taken to be integers. *)

(** The fields of [SchemaNamespace] and of its [attrs] that are read. *)
Record SchemaAttr := mkSchemaAttr {
  sa_name : string;
  sa_type : string;
}.

Record SchemaNamespace := mkSchemaNamespace {
  ns_name : string;
  ns_attrs : list SchemaAttr;
}.

(** The object under [$]: [where] as the pair of its one key and value. *)
Record IqlOptions := mkIqlOptions {
  iql_where : option (string * string);
  iql_limit : option Z;
  iql_offset : option Z;
}.

(** A value under the namespace: [{}] for a reference, or the options. *)
Inductive IqlValue :=
| iql_empty
| iql_options (opts : IqlOptions).

(** Truth value of an optional number. *)
Definition truthy_number (n : option Z) : bool :=
  match n with
  | Some n => negb (Z.eqb n 0)
  | None => false
  end.

(** [{ ...(whereAttr && whereId ? { where: ... } : {}),
       ...(limit ? { limit } : {}), ...(offset ? { offset } : {}) }] *)
Definition iql_dollar (whereAttr whereId : option string) (limit offset : option Z)
  : IqlOptions :=
  {| iql_where :=
       if truthy whereAttr && truthy whereId
       then Some ((default "" whereAttr ++ ".id")%string, default "" whereId)
       else None;
     iql_limit := if truthy_number limit then limit else None;
     iql_offset := if truthy_number offset then offset else None |}.

(** The object under [selectedNs.name]. *)
Definition iql_namespace (ns : SchemaNamespace) (whereAttr whereId : option string)
    (limit offset : option Z) : gmap string IqlValue :=
  <["$" := iql_options (iql_dollar whereAttr whereId limit offset)]>
    (Object_fromEntries
       ((fun a => (sa_name a, iql_empty))
          <$> filter (fun a => sa_type a = "ref") (ns_attrs ns))).

(** [const iql = selectedNs ? { [selectedNs.name]: {...} } : {}] *)
Definition iql (selectedNs : option SchemaNamespace) (whereAttr whereId : option string)
    (limit offset : option Z) : gmap string (gmap string IqlValue) :=
  match selectedNs with
  | Some ns => {[ ns_name ns := iql_namespace ns whereAttr whereId limit offset ]}
  | None => ∅
  end.

(** ** Inputs whose names reach the built-in objects *)












(** ** An [Entities] type written by hand

    [authors] and [posts] link to each other; [posts.editor] names
    [editors], which is not declared. *)
Definition library_entities : gmap string EntityDef :=
  {[ "authors" :=
       {| attrs := {[ "name" := plain vt_string;
                      "bio" := {| valueType := vt_string; required := false;
                                  config := {| cfg_indexed := false;
                                               cfg_unique := false |} |} ]};
          links := {[ "posts" := {| entityName := "posts"; cardinality := many |} ]} |};
     "posts" :=
       {| attrs := {[ "title" := plain vt_string ]};
          links := {[ "author" := {| entityName := "authors"; cardinality := one |};
                      "editor" := {| entityName := "editors"; cardinality := one |} ]} |} ]}.


(** * Proofs *)

(** ** Nested dictionaries *)

Section nested.
Context {A : Type}.
Implicit Types (m : gmap string (gmap string A)) (k l e : string) (v : A).

Lemma write_insert k l v m :
  write k l v m = <[k := <[l := v]> (default ∅ (m !! k))]> m.
Proof.
  unfold write, map_set_nested, map_or_assign_empty.
  apply map_eq; intros e.
  destruct (m !! k) as [inner|] eqn:Hk; simpl.
  - destruct (decide (k = e)) as [->|Hne].
    + rewrite lookup_alter_eq, lookup_insert_eq, Hk. reflexivity.
    + rewrite lookup_alter_ne, lookup_insert_ne by done. reflexivity.
  - destruct (decide (k = e)) as [->|Hne].
    + rewrite lookup_alter_eq, !lookup_insert_eq. reflexivity.
    + rewrite lookup_alter_ne, !lookup_insert_ne by done. reflexivity.
Qed.

Lemma write_lookup_eq k l v m :
  write k l v m !! k = Some (<[l := v]> (default ∅ (m !! k))).
Proof. rewrite write_insert. apply lookup_insert_eq. Qed.

Lemma write_lookup_ne k l v m e :
  k ≠ e -> write k l v m !! e = m !! e.
Proof. intros. rewrite write_insert. by apply lookup_insert_ne. Qed.

Lemma nested_lookup_write_eq k l v m :
  nested_lookup (write k l v m) k l = Some v.
Proof.
  unfold nested_lookup. rewrite write_lookup_eq. simpl.
  apply lookup_insert_eq.
Qed.

Lemma nested_lookup_write_ne k l v m e l' :
  (k, l) ≠ (e, l') ->
  nested_lookup (write k l v m) e l' = nested_lookup m e l'.
Proof.
  intros Hne. unfold nested_lookup.
  destruct (decide (k = e)) as [->|Hk].
  - rewrite write_lookup_eq. simpl.
    rewrite lookup_insert_ne by congruence.
    destruct (m !! e); simpl; [reflexivity | apply lookup_empty].
  - rewrite write_lookup_ne by done. reflexivity.
Qed.


Lemma spread2_lookup (a b : option (gmap string A)) l :
  spread2 a b !! l =
  match default ∅ b !! l with
  | Some v => Some v
  | None => default ∅ a !! l
  end.
Proof.
  unfold spread2. rewrite lookup_union.
  destruct (default ∅ b !! l), (default ∅ a !! l); reflexivity.
Qed.

End nested.

(** ** The indexer loop, on maps *)

Lemma index_step_write idx d :
  map_index_step idx d =
  {| fwd := write (on (forward d)) (label (forward d)) (fwd_entry d) (fwd idx);
     rev := write (on (reverse d)) (label (reverse d)) (rev_entry d) (rev idx) |}.
Proof. reflexivity. Qed.



Lemma fold_fwd_untouched ds idx e l :
  (forall d, d ∈ ds -> fwd_key d ≠ (e, l)) ->
  nested_lookup (fwd (fold_left map_index_step ds idx)) e l = nested_lookup (fwd idx) e l.
Proof.
  revert idx. induction ds as [|d ds IH]; intros idx Hds; simpl; [reflexivity|].
  rewrite IH by (intros d' Hd'; apply Hds; by right).
  rewrite index_step_write. simpl.
  apply nested_lookup_write_ne. apply Hds. left.
Qed.

Lemma fold_rev_untouched ds idx e l :
  (forall d, d ∈ ds -> rev_key d ≠ (e, l)) ->
  nested_lookup (rev (fold_left map_index_step ds idx)) e l = nested_lookup (rev idx) e l.
Proof.
  revert idx. induction ds as [|d ds IH]; intros idx Hds; simpl; [reflexivity|].
  rewrite IH by (intros d' Hd'; apply Hds; by right).
  rewrite index_step_write. simpl.
  apply nested_lookup_write_ne. apply Hds. left.
Qed.

(** The last definition that writes a key decides its entry. *)
Lemma fold_fwd_last pre d post idx :
  (forall d', d' ∈ post -> fwd_key d' ≠ fwd_key d) ->
  nested_lookup (fwd (fold_left map_index_step (pre ++ d :: post) idx))
                (on (forward d)) (label (forward d)) = Some (fwd_entry d).
Proof.
  intros Hpost. rewrite fold_left_app. simpl.
  rewrite fold_fwd_untouched by exact Hpost.
  rewrite index_step_write. simpl. apply nested_lookup_write_eq.
Qed.

Lemma fold_rev_last pre d post idx :
  (forall d', d' ∈ post -> rev_key d' ≠ rev_key d) ->
  nested_lookup (rev (fold_left map_index_step (pre ++ d :: post) idx))
                (on (reverse d)) (label (reverse d)) = Some (rev_entry d).
Proof.
  intros Hpost. rewrite fold_left_app. simpl.
  rewrite fold_rev_untouched by exact Hpost.
  rewrite index_step_write. simpl. apply nested_lookup_write_eq.
Qed.

Lemma default_lookup_nested {A} (m : gmap string (gmap string A)) e l :
  default ∅ (m !! e) !! l = nested_lookup m e l.
Proof.
  unfold nested_lookup. destruct (m !! e); simpl; [reflexivity | apply lookup_empty].
Qed.

Lemma NoDup_key_split {K} (key : LinkDef -> K) (ds : list LinkDef) d :
  NoDup (key <$> ds) -> d ∈ ds ->
  exists pre post, ds = pre ++ d :: post /\
                   forall d', d' ∈ post -> key d' ≠ key d.
Proof.
  intros Hnd Hin. apply list_elem_of_split in Hin as (pre & post & ->).
  exists pre, post. split; [reflexivity|]. intros d' Hd' Heq.
  rewrite fmap_app, fmap_cons in Hnd.
  apply NoDup_app in Hnd as (_ & _ & Hnd). apply NoDup_cons in Hnd as [Hnotin _].
  apply Hnotin. rewrite <- Heq. apply list_elem_of_fmap. eauto.
Qed.

Lemma linksIndex_fwd_entry lnks d :
  NoDup (fwd_key <$> Object_values lnks) -> d ∈ Object_values lnks ->
  nested_lookup (fwd (map_linksIndex lnks)) (on (forward d)) (label (forward d))
  = Some (fwd_entry d).
Proof.
  intros Hnd Hin. unfold map_linksIndex.
  destruct (NoDup_key_split fwd_key _ _ Hnd Hin) as (pre & post & -> & Hpost).
  by apply fold_fwd_last.
Qed.

Lemma linksIndex_rev_entry lnks d :
  NoDup (rev_key <$> Object_values lnks) -> d ∈ Object_values lnks ->
  nested_lookup (rev (map_linksIndex lnks)) (on (reverse d)) (label (reverse d))
  = Some (rev_entry d).
Proof.
  intros Hnd Hin. unfold map_linksIndex.
  destruct (NoDup_key_split rev_key _ _ Hnd Hin) as (pre & post & -> & Hpost).
  by apply fold_rev_last.
Qed.

(** ** The enriched entities, on maps *)

Lemma enrich_lookup entities lnks name :
  map_enrichEntitiesWithLinks entities lnks !! name =
  enriched (map_linksIndex lnks) name <$> entities !! name.
Proof.
  unfold map_enrichEntitiesWithLinks, Object_fromEntries, Object_entries.
  set (idx := map_linksIndex lnks).
  assert (Hfst : (map_enrich_entry idx <$> map_to_list entities).*1
                 = (map_to_list entities).*1).
  { rewrite <- list_fmap_compose. apply list_fmap_ext. intros ? [??] _. reflexivity. }
  destruct (entities !! name) as [def|] eqn:Hn; simpl.
  - apply elem_of_list_to_map.
    { rewrite Hfst. apply NoDup_fst_map_to_list. }
    apply list_elem_of_fmap. exists (name, def). split; [reflexivity|].
    by apply elem_of_map_to_list.
  - apply not_elem_of_list_to_map. rewrite Hfst. intros Hin.
    apply list_elem_of_fmap in Hin as [[k d] [-> Hin]].
    apply elem_of_map_to_list in Hin. simpl in Hn. congruence.
Qed.


Lemma enrich_entity_links entities lnks name l :
  name ∈ dom entities ->
  entity_links (map_enrichEntitiesWithLinks entities lnks) name !! l =
  match nested_lookup (rev (map_linksIndex lnks)) name l with
  | Some v => Some v
  | None => nested_lookup (fwd (map_linksIndex lnks)) name l
  end.
Proof.
  intros [def Hdef]%elem_of_dom. unfold entity_links.
  rewrite enrich_lookup, Hdef. simpl.
  by rewrite spread2_lookup, !default_lookup_nested.
Qed.

(** ** Link entries, on maps *)

(** On maps: when no two link definitions write the same key in the
    same direction and no definition writes, in the reverse direction, the
    key [(A, x)] of the forward side, the graph gives entity [A] the entry
    [x = {entityName: B, cardinality: cf}] and entity [B] the entry
    [y = {entityName: A, cardinality: cr}], self-links included. *)
Lemma map_link_entries appId entities (lnks : LinksDef) d :
  no_collision lnks ->
  d ∈ Object_values lnks ->
  on (forward d) ∈ dom entities ->
  on (reverse d) ∈ dom entities ->
  (forall d', d' ∈ Object_values lnks -> rev_key d' ≠ fwd_key d) ->
  let g := map_graph appId entities lnks in
  entity_links (graph_entities g) (on (forward d)) !! label (forward d)
    = Some {| entityName := on (reverse d); cardinality := has (forward d) |} /\
  entity_links (graph_entities g) (on (reverse d)) !! label (reverse d)
    = Some {| entityName := on (forward d); cardinality := has (reverse d) |}.
Proof.
  intros [Hf Hr] Hd HA HB Hcross. simpl. split.
  - rewrite enrich_entity_links by exact HA.
    unfold map_linksIndex at 1. rewrite fold_rev_untouched by exact Hcross.
    simpl. unfold nested_lookup at 1. rewrite lookup_empty. simpl.
    by apply linksIndex_fwd_entry.
  - rewrite enrich_entity_links by exact HB.
    by rewrite linksIndex_rev_entry.
Qed.

(** ** Duplicate labels, on maps *)

(** On maps: building the index never fails; when two link
    definitions write the same forward [(entity, label)] key, the entry of
    that key is the target and cardinality of the one that comes last in
    iteration order. *)
Lemma map_forward_label_last_wins
    (pre : LinksDef) n1 d1 (mid : LinksDef) n2 d2 (post : LinksDef) :
  fwd_key d1 = fwd_key d2 ->
  (forall d', d' ∈ Object_values post -> fwd_key d' ≠ fwd_key d2) ->
  nested_lookup (fwd (map_linksIndex (pre ++ (n1, d1) :: mid ++ (n2, d2) :: post)))
                (on (forward d1)) (label (forward d1))
  = Some {| entityName := on (reverse d2); cardinality := has (forward d2) |}.
Proof.
  intros Hkey Hpost.
  injection Hkey as -> ->.
  unfold map_linksIndex, Object_values.
  replace (pre ++ (n1, d1) :: mid ++ (n2, d2) :: post)
    with ((pre ++ (n1, d1) :: mid) ++ (n2, d2) :: post)
    by (rewrite <- app_assoc; reflexivity).
  rewrite fmap_app, fmap_cons. simpl.
  by apply fold_fwd_last.
Qed.

(** ** Order independence, on maps *)


(** ** Attributes and links of an entity, on maps *)


(** ** Attribute modifiers (C8, C10) *)

Lemma alloc_spec o (s : Store) r s' :
  alloc o s = (r, s') ->
  r = List.length s /\ s' !! r = Some o /\ s `prefix_of` s'.
Proof.
  unfold alloc. intros [= <- <-]. split; [reflexivity|]. split.
  - by apply list_lookup_middle.
  - by apply prefix_app_r.
Qed.

Lemma read_DataAttrDef_prefix (s s' : Store) r a :
  s `prefix_of` s' -> read_DataAttrDef s r = Some a -> read_DataAttrDef s' r = Some a.
Proof.
  intros Hpre. unfold read_DataAttrDef.
  destruct (s !! r) as [[vt req c|]|] eqn:Hr; try discriminate.
  destruct (s !! c) as [[|i u]|] eqn:Hc; try discriminate.
  intros [= <-].
  rewrite (prefix_lookup_Some _ _ _ _ Hr Hpre), (prefix_lookup_Some _ _ _ _ Hc Hpre).
  reflexivity.
Qed.

(** The constructor returns a reference that did not exist before, to an
    instance with the given fields, and touches no existing object. *)
Lemma new_DataAttrDef_spec vt req cfg i u (s : Store) r s' :
  match cfg with
  | Some c => s !! c = Some (OConfig i u)
  | None => i = false /\ u = false
  end ->
  new_DataAttrDef vt req cfg s = (r, s') ->
  List.length s <= r /\
  s `prefix_of` s' /\
  read_DataAttrDef s' r
  = Some {| valueType := vt; required := req;
            config := {| cfg_indexed := i; cfg_unique := u |} |}.
Proof.
  unfold new_DataAttrDef. destruct cfg as [c|].
  - intros Hc Hnew. apply alloc_spec in Hnew as (-> & Hr & Hpre).
    split; [lia|]. split; [exact Hpre|].
    unfold read_DataAttrDef. rewrite Hr.
    by rewrite (prefix_lookup_Some _ _ _ _ Hc Hpre).
  - intros [-> ->].
    destruct (alloc (OConfig false false) s) as [c s1] eqn:Hcfg.
    intros Hnew.
    apply alloc_spec in Hcfg as (-> & Hc & Hpre1).
    apply alloc_spec in Hnew as (-> & Hr & Hpre2).
    split; [apply prefix_length in Hpre1; lia|].
    split; [by etrans|].
    unfold read_DataAttrDef. rewrite Hr.
    by rewrite (prefix_lookup_Some _ _ _ _ Hc Hpre2).
Qed.

Lemma optional_returns_new (s : Store) this a :
  read_DataAttrDef s this = Some a ->
  returns_new optional this s
    {| valueType := valueType a; required := false;
       config := {| cfg_indexed := false; cfg_unique := false |} |}.
Proof.
  unfold read_DataAttrDef, returns_new, optional.
  destruct (s !! this) as [[vt req c|]|] eqn:Hthis; try discriminate.
  destruct (s !! c) as [[|i u]|] eqn:Hc; try discriminate.
  intros [= <-]. cbn [valueType required config cfg_indexed cfg_unique].
  destruct (new_DataAttrDef vt false None s) as [r s'] eqn:Hnew.
  apply (new_DataAttrDef_spec _ _ None false false) in Hnew as (Hlen & Hpre & Hread);
    [|done].
  exists r, s'. split; [reflexivity|].
  apply lookup_lt_Some in Hthis.
  split; [lia|]. split; [by apply lookup_ge_None|]. split; [exact Hread|].
  intros l o Hl. by eapply prefix_lookup_Some.
Qed.

Lemma unique_returns_new (s : Store) this a :
  read_DataAttrDef s this = Some a ->
  returns_new unique this s
    {| valueType := valueType a; required := required a;
       config := {| cfg_indexed := cfg_indexed (config a); cfg_unique := true |} |}.
Proof.
  unfold read_DataAttrDef, returns_new, unique.
  destruct (s !! this) as [[vt req c|]|] eqn:Hthis; try discriminate.
  destruct (s !! c) as [[|i u]|] eqn:Hc; try discriminate.
  intros [= <-]. cbn [valueType required config cfg_indexed cfg_unique].
  destruct (alloc (OConfig i true) s) as [c' s1] eqn:Hcfg.
  destruct (new_DataAttrDef vt req (Some c') s1) as [r s'] eqn:Hnew.
  apply alloc_spec in Hcfg as (-> & Hc' & Hpre1).
  apply (new_DataAttrDef_spec _ _ (Some _) i true) in Hnew as (Hlen & Hpre2 & Hread);
    [|exact Hc'].
  exists r, s'. split; [reflexivity|].
  apply lookup_lt_Some in Hthis. pose proof (prefix_length _ _ Hpre1).
  split; [lia|]. split; [apply lookup_ge_None; lia|]. split; [exact Hread|].
  intros l o Hl. eapply prefix_lookup_Some; [|exact Hpre2].
  by eapply prefix_lookup_Some.
Qed.

Lemma indexed_returns_new (s : Store) this a :
  read_DataAttrDef s this = Some a ->
  returns_new indexed this s
    {| valueType := valueType a; required := required a;
       config := {| cfg_indexed := true; cfg_unique := cfg_unique (config a) |} |}.
Proof.
  unfold read_DataAttrDef, returns_new, indexed.
  destruct (s !! this) as [[vt req c|]|] eqn:Hthis; try discriminate.
  destruct (s !! c) as [[|i u]|] eqn:Hc; try discriminate.
  intros [= <-]. cbn [valueType required config cfg_indexed cfg_unique].
  destruct (alloc (OConfig true u) s) as [c' s1] eqn:Hcfg.
  destruct (new_DataAttrDef vt req (Some c') s1) as [r s'] eqn:Hnew.
  apply alloc_spec in Hcfg as (-> & Hc' & Hpre1).
  apply (new_DataAttrDef_spec _ _ (Some _) true u) in Hnew as (Hlen & Hpre2 & Hread);
    [|exact Hc'].
  exists r, s'. split; [reflexivity|].
  apply lookup_lt_Some in Hthis. pose proof (prefix_length _ _ Hpre1).
  split; [lia|]. split; [apply lookup_ge_None; lia|]. split; [exact Hread|].
  intros l o Hl. eapply prefix_lookup_Some; [|exact Hpre2].
  by eapply prefix_lookup_Some.
Qed.

Lemma read_preserved (s s' : Store) r a :
  (forall l o, s !! l = Some o -> s' !! l = Some o) ->
  read_DataAttrDef s r = Some a -> read_DataAttrDef s' r = Some a.
Proof.
  intros Hkeep. unfold read_DataAttrDef.
  destruct (s !! r) as [[vt req c|]|] eqn:Hr; try discriminate.
  destruct (s !! c) as [[|i u]|] eqn:Hc; try discriminate.
  intros [= <-]. by rewrite (Hkeep _ _ Hr), (Hkeep _ _ Hc).
Qed.

Example sample_store_contents :
  sample_store = [OConfig false false; ODataAttrDef vt_string true 0;
                  OConfig false true; ODataAttrDef vt_string true 2].
Proof. reflexivity. Qed.

Lemma returns_new_leaves_receiver op this s a a' :
  read_DataAttrDef s this = Some a ->
  returns_new op this s a' -> leaves_receiver op this s a.
Proof.
  intros Hread (r & s' & Hop & Hne & Hfresh & Hnew & Hkeep).
  exists r, s'.
  split; [exact Hop|]. split; [exact Hne|]. split; [exact Hfresh|].
  split; [by eexists|]. split; [exact Hkeep|].
  by eapply read_preserved.
Qed.

(** C8: for every [DataAttrDef] [a], each of [optional()], [unique()] and
    [indexed()] returns a new instance and leaves [a] as it was:
    afterwards [a]'s [valueType], [required] and [config] read exactly as
    before, as does every other object that existed. *)
Theorem modifiers_leave_receiver_unchanged (s : Store) (this : loc) (a : DataAttrDef) :
  read_DataAttrDef s this = Some a ->
  leaves_receiver optional this s a /\
  leaves_receiver unique this s a /\
  leaves_receiver indexed this s a.
Proof.
  intros Hread. repeat split.
  - eapply returns_new_leaves_receiver; [exact Hread|]. by apply optional_returns_new.
  - eapply returns_new_leaves_receiver; [exact Hread|]. by apply unique_returns_new.
  - eapply returns_new_leaves_receiver; [exact Hread|]. by apply indexed_returns_new.
Qed.

Lemma modifiers_leave_receiver_unchanged_witness :
  let a := {| valueType := vt_string; required := true;
              config := {| cfg_indexed := false; cfg_unique := true |} |} in
  leaves_receiver optional 3 sample_store a /\
  leaves_receiver unique 3 sample_store a /\
  leaves_receiver indexed 3 sample_store a.
Proof.
  apply (modifiers_leave_receiver_unchanged sample_store 3). reflexivity.
Defined.

(** C10: for every [DataAttrDef] [a], [a.optional()] is an instance with
    [a]'s [valueType], [required = false] and the config
    [{indexed: false, unique: false}] whatever [a]'s config was, whereas
    [a.unique()] and [a.indexed()] keep [valueType], [required] and the
    other config flag and set only their own flag. *)
Theorem optional_resets_config (s : Store) (this : loc) (a : DataAttrDef) :
  read_DataAttrDef s this = Some a ->
  (exists r s',
     optional this s = Some (r, s') /\
     read_DataAttrDef s' r
     = Some {| valueType := valueType a; required := false;
               config := {| cfg_indexed := false; cfg_unique := false |} |}) /\
  (exists r s',
     unique this s = Some (r, s') /\
     read_DataAttrDef s' r
     = Some {| valueType := valueType a; required := required a;
               config := {| cfg_indexed := cfg_indexed (config a);
                            cfg_unique := true |} |}) /\
  (exists r s',
     indexed this s = Some (r, s') /\
     read_DataAttrDef s' r
     = Some {| valueType := valueType a; required := required a;
               config := {| cfg_indexed := true;
                            cfg_unique := cfg_unique (config a) |} |}).
Proof.
  intros Hread. repeat split.
  - destruct (optional_returns_new _ _ _ Hread) as (r & s' & Hop & _ & _ & Hnew & _).
    by exists r, s'.
  - destruct (unique_returns_new _ _ _ Hread) as (r & s' & Hop & _ & _ & Hnew & _).
    by exists r, s'.
  - destruct (indexed_returns_new _ _ _ Hread) as (r & s' & Hop & _ & _ & Hnew & _).
    by exists r, s'.
Qed.

Lemma optional_resets_config_witness :
  (exists r s',
     optional 3 sample_store = Some (r, s') /\
     read_DataAttrDef s' r
     = Some {| valueType := vt_string; required := false;
               config := {| cfg_indexed := false; cfg_unique := false |} |}) /\
  (exists r s',
     unique 3 sample_store = Some (r, s') /\
     read_DataAttrDef s' r
     = Some {| valueType := vt_string; required := true;
               config := {| cfg_indexed := false; cfg_unique := true |} |}) /\
  (exists r s',
     indexed 3 sample_store = Some (r, s') /\
     read_DataAttrDef s' r
     = Some {| valueType := vt_string; required := true;
               config := {| cfg_indexed := true; cfg_unique := true |} |}).
Proof.
  apply (optional_resets_config sample_store 3
           {| valueType := vt_string; required := true;
              config := {| cfg_indexed := false; cfg_unique := true |} |}).
  reflexivity.
Defined.

(** [i.string().unique().optional()] is neither unique nor indexed. *)
Example unique_then_optional :
  (let '(r, s') := default (0, []) (optional 3 sample_store) in
   read_DataAttrDef s' r)
  = Some {| valueType := vt_string; required := false;
            config := {| cfg_indexed := false; cfg_unique := false |} |}.
Proof. reflexivity. Qed.

(** ** Result shapes: the two halves of an entity's shape *)

Lemma InstaQLEntityResult_unfold entities name q :
  InstaQLEntityResult entities name q
  = TEntity (InstaQLAttrsResult entities name) (InstaQLLinksResult entities name q).
Proof. destruct q as [fields]. reflexivity. Qed.

(** ** More on the index and the enriched entities, on maps *)

Lemma fold_fwd_source ds idx e l v :
  nested_lookup (fwd (fold_left map_index_step ds idx)) e l = Some v ->
  nested_lookup (fwd idx) e l = Some v \/
  exists d, d ∈ ds /\ fwd_key d = (e, l) /\ v = fwd_entry d.
Proof.
  revert idx. induction ds as [|d ds IH]; intros idx; simpl; [by left|].
  intros Hv. apply IH in Hv as [Hv|(d' & Hd' & Hk & ->)].
  - rewrite index_step_write in Hv. simpl in Hv.
    destruct (decide (fwd_key d = (e, l))) as [Heq|Hne].
    + right. exists d. split; [left|]. split; [exact Heq|].
      injection Heq as <- <-. rewrite nested_lookup_write_eq in Hv. congruence.
    + left. by rewrite nested_lookup_write_ne in Hv.
  - right. exists d'. split; [by right|done].
Qed.

Lemma fold_rev_source ds idx e l v :
  nested_lookup (rev (fold_left map_index_step ds idx)) e l = Some v ->
  nested_lookup (rev idx) e l = Some v \/
  exists d, d ∈ ds /\ rev_key d = (e, l) /\ v = rev_entry d.
Proof.
  revert idx. induction ds as [|d ds IH]; intros idx; simpl; [by left|].
  intros Hv. apply IH in Hv as [Hv|(d' & Hd' & Hk & ->)].
  - rewrite index_step_write in Hv. simpl in Hv.
    destruct (decide (rev_key d = (e, l))) as [Heq|Hne].
    + right. exists d. split; [left|]. split; [exact Heq|].
      injection Heq as <- <-. rewrite nested_lookup_write_eq in Hv. congruence.
    + left. by rewrite nested_lookup_write_ne in Hv.
  - right. exists d'. split; [by right|done].
Qed.

Lemma nested_lookup_empty {A} e l :
  nested_lookup (∅ : gmap string (gmap string A)) e l = None.
Proof. unfold nested_lookup. by rewrite lookup_empty. Qed.

Lemma linksIndex_fwd_source lnks e l v :
  nested_lookup (fwd (map_linksIndex lnks)) e l = Some v ->
  exists d, d ∈ Object_values lnks /\ fwd_key d = (e, l) /\ v = fwd_entry d.
Proof.
  intros [Hv|Hd]%fold_fwd_source; [|exact Hd].
  simpl in Hv. by rewrite nested_lookup_empty in Hv.
Qed.

Lemma linksIndex_rev_source lnks e l v :
  nested_lookup (rev (map_linksIndex lnks)) e l = Some v ->
  exists d, d ∈ Object_values lnks /\ rev_key d = (e, l) /\ v = rev_entry d.
Proof.
  intros [Hv|Hd]%fold_rev_source; [|exact Hd].
  simpl in Hv. by rewrite nested_lookup_empty in Hv.
Qed.

Lemma entity_links_enrich_None entities lnks name :
  name ∉ dom entities ->
  entity_links (map_enrichEntitiesWithLinks entities lnks) name = ∅.
Proof.
  intros Hn%not_elem_of_dom. unfold entity_links.
  by rewrite enrich_lookup, Hn.
Qed.

(** On maps: every entry of every entity's [links] in the graph was written by
    some link definition, as its forward or as its reverse entry. *)
Lemma map_link_entry_from_definition appId entities (lnks : LinksDef) E l v :
  entity_links (graph_entities (map_graph appId entities lnks)) E !! l = Some v ->
  exists d, d ∈ Object_values lnks /\
            ((fwd_key d = (E, l) /\ v = fwd_entry d) \/
             (rev_key d = (E, l) /\ v = rev_entry d)).
Proof.
  simpl. destruct (decide (E ∈ dom entities)) as [HE|HE].
  - rewrite enrich_entity_links by exact HE.
    destruct (nested_lookup (rev (map_linksIndex lnks)) E l) as [w|] eqn:Hr.
    + intros [= <-]. apply linksIndex_rev_source in Hr as (d & Hd & Hk & ->).
      exists d. split; [exact Hd|]. by right.
    + intros (d & Hd & Hk & ->)%linksIndex_fwd_source.
      exists d. split; [exact Hd|]. by left.
  - rewrite entity_links_enrich_None by exact HE. by rewrite lookup_empty.
Qed.

Lemma fold_fwd_is_Some ds idx e l :
  is_Some (nested_lookup (fwd idx) e l) ->
  is_Some (nested_lookup (fwd (fold_left map_index_step ds idx)) e l).
Proof.
  revert idx. induction ds as [|d ds IH]; intros idx Hs; simpl; [exact Hs|].
  apply IH. rewrite index_step_write. simpl.
  destruct (decide ((on (forward d), label (forward d)) = (e, l))) as [Heq|Hne].
  - injection Heq as <- <-. rewrite nested_lookup_write_eq. by eexists.
  - by rewrite nested_lookup_write_ne.
Qed.

Lemma fold_rev_is_Some ds idx e l :
  is_Some (nested_lookup (rev idx) e l) ->
  is_Some (nested_lookup (rev (fold_left map_index_step ds idx)) e l).
Proof.
  revert idx. induction ds as [|d ds IH]; intros idx Hs; simpl; [exact Hs|].
  apply IH. rewrite index_step_write. simpl.
  destruct (decide ((on (reverse d), label (reverse d)) = (e, l))) as [Heq|Hne].
  - injection Heq as <- <-. rewrite nested_lookup_write_eq. by eexists.
  - by rewrite nested_lookup_write_ne.
Qed.

Lemma linksIndex_fwd_is_Some (lnks : LinksDef) d :
  d ∈ Object_values lnks ->
  is_Some (nested_lookup (fwd (map_linksIndex lnks)) (on (forward d)) (label (forward d))).
Proof.
  unfold map_linksIndex. generalize {| fwd := ∅; rev := ∅ |}.
  induction (Object_values lnks) as [|d0 ds IH]; intros idx Hd.
  - by apply elem_of_nil in Hd.
  - simpl. apply elem_of_cons in Hd as [->|Hd]; [|by apply IH].
    apply fold_fwd_is_Some. rewrite index_step_write. simpl.
    rewrite nested_lookup_write_eq. by eexists.
Qed.

Lemma linksIndex_rev_is_Some (lnks : LinksDef) d :
  d ∈ Object_values lnks ->
  is_Some (nested_lookup (rev (map_linksIndex lnks)) (on (reverse d)) (label (reverse d))).
Proof.
  unfold map_linksIndex. generalize {| fwd := ∅; rev := ∅ |}.
  induction (Object_values lnks) as [|d0 ds IH]; intros idx Hd.
  - by apply elem_of_nil in Hd.
  - simpl. apply elem_of_cons in Hd as [->|Hd]; [|by apply IH].
    apply fold_rev_is_Some. rewrite index_step_write. simpl.
    rewrite nested_lookup_write_eq. by eexists.
Qed.

(** On maps: whatever the other definitions are (duplicates included), the
    labels of a link definition are keys of [links] on its two entities
    when these are declared: a label may end up with another definition's
    entry, it is never missing. *)
Lemma map_link_labels_present appId entities (lnks : LinksDef) d :
  d ∈ Object_values lnks ->
  let g := map_graph appId entities lnks in
  (on (forward d) ∈ dom entities ->
   is_Some (entity_links (graph_entities g) (on (forward d)) !! label (forward d))) /\
  (on (reverse d) ∈ dom entities ->
   is_Some (entity_links (graph_entities g) (on (reverse d)) !! label (reverse d))).
Proof.
  intros Hd. simpl. split; intros HE; rewrite enrich_entity_links by exact HE.
  - destruct (nested_lookup (rev (map_linksIndex lnks)) _ _); [by eexists|].
    by apply linksIndex_fwd_is_Some.
  - destruct (linksIndex_rev_is_Some lnks d Hd) as [v ->]. by eexists.
Qed.

(** The loop seen from one of the two mappings: a fold of [write]. *)
Section one_direction.
Context {A : Type} (kf lf : LinkDef -> string) (vf : LinkDef -> A).

Let stepw (m : gmap string (gmap string A)) (d : LinkDef) :=
  write (kf d) (lf d) (vf d) m.

Lemma foldw_dom ds m e :
  e ∈ dom (fold_left stepw ds m) <-> e ∈ dom m \/ exists d, d ∈ ds /\ kf d = e.
Proof.
  revert m. induction ds as [|d ds IH]; intros m; simpl.
  - split; [by left|]. intros [H|(d & Hd & _)]; [exact H|by apply elem_of_nil in Hd].
  - rewrite IH. unfold stepw. rewrite write_insert, dom_insert_L.
    rewrite elem_of_union, elem_of_singleton. split.
    + intros [[->|H]|(d' & Hd' & Hk)].
      * right. exists d. split; [left|reflexivity].
      * by left.
      * right. exists d'. split; [by right|exact Hk].
    + intros [H|(d' & [->|Hd']%elem_of_cons & Hk)].
      * left. by right.
      * left. by left.
      * right. by exists d'.
Qed.

Lemma foldw_nonempty ds m :
  (forall e inner, m !! e = Some inner -> inner ≠ ∅) ->
  forall e inner, fold_left stepw ds m !! e = Some inner -> inner ≠ ∅.
Proof.
  revert m. induction ds as [|d ds IH]; intros m Hm; simpl; [exact Hm|].
  apply IH. intros e inner. unfold stepw.
  destruct (decide (kf d = e)) as [<-|Hne].
  - rewrite write_lookup_eq. intros [= <-]. apply insert_non_empty.
  - rewrite write_lookup_ne by exact Hne. apply Hm.
Qed.

Lemma foldw_lookup_congr ds m1 m2 e :
  m1 !! e = m2 !! e ->
  fold_left stepw ds m1 !! e = fold_left stepw ds m2 !! e.
Proof.
  revert m1 m2. induction ds as [|d ds IH]; intros m1 m2 Hm; simpl; [exact Hm|].
  apply IH. unfold stepw.
  destruct (decide (kf d = e)) as [<-|Hne].
  - by rewrite !write_lookup_eq, Hm.
  - by rewrite !write_lookup_ne.
Qed.

Lemma foldw_skip ds1 d ds2 m e :
  kf d ≠ e ->
  fold_left stepw (ds1 ++ d :: ds2) m !! e = fold_left stepw (ds1 ++ ds2) m !! e.
Proof.
  intros Hne. rewrite !fold_left_app. simpl.
  apply foldw_lookup_congr. unfold stepw at 1. by rewrite write_lookup_ne.
Qed.
End one_direction.

Lemma fold_fwd_proj ds idx :
  fwd (fold_left map_index_step ds idx)
  = fold_left (fun m d => write (on (forward d)) (label (forward d)) (fwd_entry d) m)
              ds (fwd idx).
Proof. revert idx. induction ds as [|d ds IH]; intros idx; simpl; [reflexivity|]. by rewrite IH. Qed.

Lemma fold_rev_proj ds idx :
  rev (fold_left map_index_step ds idx)
  = fold_left (fun m d => write (on (reverse d)) (label (reverse d)) (rev_entry d) m)
              ds (rev idx).
Proof. revert idx. induction ds as [|d ds IH]; intros idx; simpl; [reflexivity|]. by rewrite IH. Qed.

(** On maps: when the loop ends, an entity name is a key of [fwd] exactly when
    some link definition has it as [forward.on], a key of [rev] exactly
    when some definition has it as [reverse.on], and no inner object is
    left empty by [||= {}]. *)
Lemma map_index_keys (lnks : LinksDef) :
  let idx := map_linksIndex lnks in
  (forall e, e ∈ dom (fwd idx) <-> exists d, d ∈ Object_values lnks /\ on (forward d) = e) /\
  (forall e, e ∈ dom (rev idx) <-> exists d, d ∈ Object_values lnks /\ on (reverse d) = e) /\
  (forall e inner, fwd idx !! e = Some inner -> inner ≠ ∅) /\
  (forall e inner, rev idx !! e = Some inner -> inner ≠ ∅).
Proof.
  simpl. unfold map_linksIndex. rewrite fold_fwd_proj, fold_rev_proj. simpl.
  split; [|split; [|split]].
  - intros e. rewrite foldw_dom, dom_empty_L. split; [|by right].
    intros [H|H]; [by apply elem_of_empty in H|exact H].
  - intros e. rewrite foldw_dom, dom_empty_L. split; [|by right].
    intros [H|H]; [by apply elem_of_empty in H|exact H].
  - apply foldw_nonempty. intros e inner. by rewrite lookup_empty.
  - apply foldw_nonempty. intros e inner. by rewrite lookup_empty.
Qed.

(** On maps: when no two definitions write the same key in the reverse
    direction, every entry of [fwd] has a partner in [rev]: if [fwd[A][x]]
    names entity [B], then [rev[B]] has an entry that names [A]. *)
Lemma map_forward_has_reverse (lnks : LinksDef) A x v :
  NoDup (rev_key <$> Object_values lnks) ->
  nested_lookup (fwd (map_linksIndex lnks)) A x = Some v ->
  exists y c,
    nested_lookup (rev (map_linksIndex lnks)) (entityName v) y
    = Some {| entityName := A; cardinality := c |}.
Proof.
  intros Hnd (d & Hd & Hk & ->)%linksIndex_fwd_source.
  injection Hk as <- <-.
  exists (label (reverse d)), (has (reverse d)). simpl.
  by rewrite linksIndex_rev_entry.
Qed.

(** On maps: the [links] an entity definition already carries are not read:
    enriching entities that were enriched before gives what enriching
    the original ones gives, so building a graph again from the
    [entities] and [links] of a graph returns the same graph. *)
Lemma map_rebuild appId entities (lnks lnks' : LinksDef) :
  map_enrichEntitiesWithLinks (map_enrichEntitiesWithLinks entities lnks) lnks'
  = map_enrichEntitiesWithLinks entities lnks' /\
  let g := map_graph appId entities lnks in
  map_graph (graph_appId g) (graph_entities g) (graph_links g) = g.
Proof.
  assert (H : forall l1 l2,
             map_enrichEntitiesWithLinks (map_enrichEntitiesWithLinks entities l1) l2
             = map_enrichEntitiesWithLinks entities l2).
  { intros l1 l2. apply map_eq; intros name. rewrite !enrich_lookup.
    destruct (entities !! name); reflexivity. }
  split; [apply H|]. simpl. unfold map_graph. simpl. by rewrite H.
Qed.

(** With an empty links object every declared entity comes out as
    [entity(attrs)] made it, with [links] the empty mapping, even when the
    definition passed in carried links. *)
Lemma map_without_links appId entities name :
  graph_entities (map_graph appId entities []) !! name
  = (fun def => entity (attrs def)) <$> entities !! name.
Proof. simpl. rewrite enrich_lookup. destruct (entities !! name); reflexivity. Qed.

(** On maps: a link definition whose two sides are on other entities does not
    change what the graph holds for entity [E], wherever it stands among
    the other definitions. *)
Lemma map_link_elsewhere appId entities (pre post : LinksDef) n d E :
  on (forward d) ≠ E ->
  on (reverse d) ≠ E ->
  graph_entities (map_graph appId entities (pre ++ (n, d) :: post)) !! E
  = graph_entities (map_graph appId entities (pre ++ post)) !! E.
Proof.
  intros Hf Hr. simpl. rewrite !enrich_lookup.
  destruct (entities !! E) as [def|]; [|reflexivity]. simpl. f_equal.
  unfold enriched. f_equal. unfold map_linksIndex, Object_values.
  rewrite !fold_fwd_proj, !fold_rev_proj, !fmap_app, !fmap_cons. simpl.
  by rewrite (foldw_skip _ _ _ _ _ _ _ _ Hf), (foldw_skip _ _ _ _ _ _ _ _ Hr).
Qed.

(** On maps: the reverse entry written last for a key is what the entity
    holds under that label, whatever the forward sides of the definitions
    are: a reverse label hides a forward label of the same name. *)
Lemma map_reverse_label_last_wins appId entities (pre post : LinksDef) n d :
  on (reverse d) ∈ dom entities ->
  (forall d', d' ∈ Object_values post -> rev_key d' ≠ rev_key d) ->
  entity_links (graph_entities (map_graph appId entities (pre ++ (n, d) :: post)))
               (on (reverse d)) !! label (reverse d)
  = Some {| entityName := on (forward d); cardinality := has (reverse d) |}.
Proof.
  intros HE Hpost. simpl. rewrite enrich_entity_links by exact HE.
  unfold map_linksIndex, Object_values. rewrite fmap_app, fmap_cons. simpl.
  by rewrite fold_rev_last.
Qed.

(** ** Entries of the enriched entities, on maps *)

Lemma enrich_forward_entry entities (lnks : LinksDef) d :
  NoDup (fwd_key <$> Object_values lnks) ->
  d ∈ Object_values lnks ->
  on (forward d) ∈ dom entities ->
  (forall d', d' ∈ Object_values lnks -> rev_key d' ≠ fwd_key d) ->
  entity_links (map_enrichEntitiesWithLinks entities lnks) (on (forward d))
    !! label (forward d) = Some (fwd_entry d).
Proof.
  intros Hnd Hd HA Hcross. rewrite enrich_entity_links by exact HA.
  unfold map_linksIndex at 1. rewrite fold_rev_untouched by exact Hcross.
  simpl. rewrite nested_lookup_empty. by apply linksIndex_fwd_entry.
Qed.

(** ** Chains of modifiers *)

Lemma call_modifier_returns_new m (s : Store) this a :
  read_DataAttrDef s this = Some a ->
  returns_new (call_modifier m) this s (modified a m).
Proof.
  intros Hread. destruct m; simpl.
  - by apply optional_returns_new.
  - by apply unique_returns_new.
  - by apply indexed_returns_new.
Qed.

Lemma call_modifier_length m (s : Store) this r s' :
  call_modifier m this s = Some (r, s') ->
  List.length s' = List.length s + 2.
Proof.
  destruct m; simpl; unfold optional, unique, indexed, new_DataAttrDef, alloc;
    destruct (s !! this) as [[vt req c|]|]; try discriminate;
    try (destruct (s !! c) as [[|i u]|]; try discriminate);
    intros [= <- <-]; rewrite !length_app; simpl; lia.
Qed.

Lemma call_chain_reads ms : forall (s : Store) this a,
  read_DataAttrDef s this = Some a ->
  exists r s',
    call_chain ms this s = Some (r, s') /\
    read_DataAttrDef s' r = Some (fold_left modified ms a) /\
    (forall l o, s !! l = Some o -> s' !! l = Some o) /\
    List.length s' = List.length s + 2 * List.length ms.
Proof.
  induction ms as [|m ms IH]; intros s this a Hread; simpl.
  - exists this, s. repeat split; try done; lia.
  - destruct (call_modifier_returns_new m s this a Hread)
      as (r1 & s1 & Hcall & _ & _ & Hnew & Hkeep).
    rewrite Hcall.
    destruct (IH s1 r1 _ Hnew) as (r & s' & Hchain & Hr & Hkeep' & Hlen).
    exists r, s'. split; [exact Hchain|]. split; [exact Hr|]. split.
    + intros l o Hl. apply Hkeep', Hkeep, Hl.
    + apply call_modifier_length in Hcall. lia.
Qed.

(** X12: a chain of modifiers called on an existing [DataAttrDef] never
    fails; what it returns reads as the contents of the receiver taken
    through the modifiers in order; the receiver and every other object
    that existed read as before; and each call creates two objects, the
    instance and its config. *)
Theorem modifier_chain_runs ms (s : Store) this a :
  read_DataAttrDef s this = Some a ->
  exists r s',
    call_chain ms this s = Some (r, s') /\
    read_DataAttrDef s' r = Some (fold_left modified ms a) /\
    read_DataAttrDef s' this = Some a /\
    (forall l o, s !! l = Some o -> s' !! l = Some o) /\
    List.length s' = List.length s + 2 * List.length ms.
Proof.
  intros Hread.
  destruct (call_chain_reads ms s this a Hread) as (r & s' & Hc & Hr & Hk & Hl).
  exists r, s'. repeat split; try done. by eapply read_preserved.
Qed.

Lemma modifier_chain_runs_witness :
  exists r s',
    call_chain [m_indexed; m_optional; m_unique] 3 sample_store = Some (r, s') /\
    read_DataAttrDef s' r
    = Some {| valueType := vt_string; required := false;
              config := {| cfg_indexed := false; cfg_unique := true |} |} /\
    read_DataAttrDef s' 3
    = Some {| valueType := vt_string; required := true;
              config := {| cfg_indexed := false; cfg_unique := true |} |} /\
    (forall l o, sample_store !! l = Some o -> s' !! l = Some o) /\
    List.length s' = 10.
Proof.
  apply (modifier_chain_runs [m_indexed; m_optional; m_unique] sample_store 3
           {| valueType := vt_string; required := true;
              config := {| cfg_indexed := false; cfg_unique := true |} |}).
  reflexivity.
Defined.

Lemma fold_modified_no_optional ms a :
  m_optional ∉ ms ->
  let a' := fold_left modified ms a in
  valueType a' = valueType a /\
  required a' = required a /\
  (cfg_unique (config a') = true <-> cfg_unique (config a) = true \/ m_unique ∈ ms) /\
  (cfg_indexed (config a') = true <-> cfg_indexed (config a) = true \/ m_indexed ∈ ms).
Proof.
  revert a. induction ms as [|m ms IH]; intros a Hno; simpl.
  - repeat split; try tauto; intros [H|H]; try done; by apply elem_of_nil in H.
  - apply not_elem_of_cons in Hno as [Hm Hno].
    destruct (IH (modified a m) Hno) as (Hvt & Hreq & Hu & Hi).
    simpl in *. rewrite Hvt, Hreq, Hu, Hi. clear Hvt Hreq Hu Hi IH.
    destruct m; try done; simpl; repeat split; try done;
      rewrite ?elem_of_cons; intuition congruence.
Qed.

Lemma fold_modified_valueType ms a :
  valueType (fold_left modified ms a) = valueType a.
Proof.
  revert a. induction ms as [|m ms IH]; intros a; simpl; [reflexivity|].
  rewrite IH. by destruct m.
Qed.

(** X13: for the instance a chain of modifiers returns: [valueType] is
    the receiver's; without [optional()] in the chain, [required] is the
    receiver's and a flag is set exactly when the receiver had it or its
    modifier occurs; with [optional()] in the chain, [required] is false
    and a flag is set exactly when its modifier occurs after the last
    [optional()], so that nothing makes an attribute required again and
    flags set before [optional()] are lost. *)
Theorem modifier_chain_flags ms (s : Store) this a r s' a' :
  read_DataAttrDef s this = Some a ->
  call_chain ms this s = Some (r, s') ->
  read_DataAttrDef s' r = Some a' ->
  valueType a' = valueType a /\
  (m_optional ∉ ms ->
   required a' = required a /\
   (cfg_unique (config a') = true <-> cfg_unique (config a) = true \/ m_unique ∈ ms) /\
   (cfg_indexed (config a') = true <-> cfg_indexed (config a) = true \/ m_indexed ∈ ms)) /\
  (forall ms1 ms2,
     ms = ms1 ++ m_optional :: ms2 -> m_optional ∉ ms2 ->
     required a' = false /\
     (cfg_unique (config a') = true <-> m_unique ∈ ms2) /\
     (cfg_indexed (config a') = true <-> m_indexed ∈ ms2)).
Proof.
  intros Hread Hchain Ha'.
  destruct (call_chain_reads ms s this a Hread) as (r0 & s0 & Hc & Hr & _ & _).
  rewrite Hchain in Hc. injection Hc as <- <-.
  rewrite Ha' in Hr. injection Hr as ->.
  split; [apply fold_modified_valueType|]. split.
  - intros Hno. by destruct (fold_modified_no_optional ms a Hno) as (_ & ? & ? & ?).
  - intros ms1 ms2 -> Hno. rewrite fold_left_app. simpl.
    destruct (fold_modified_no_optional ms2
                (modified (fold_left modified ms1 a) m_optional) Hno)
      as (_ & Hreq & Hu & Hi).
    simpl in *. rewrite Hreq, Hu, Hi. repeat split; try tauto.
    all: intros [H|H]; [discriminate H|exact H].
Qed.

Lemma modifier_chain_flags_witness :
  let a' := {| valueType := vt_string; required := false;
               config := {| cfg_indexed := false; cfg_unique := true |} |} in
  let ms := [m_indexed; m_optional; m_unique] in
  valueType a' = vt_string /\
  (m_optional ∉ ms ->
   required a' = true /\
   (cfg_unique (config a') = true <-> true = true \/ m_unique ∈ ms) /\
   (cfg_indexed (config a') = true <-> false = true \/ m_indexed ∈ ms)) /\
  (forall ms1 ms2,
     ms = ms1 ++ m_optional :: ms2 -> m_optional ∉ ms2 ->
     required a' = false /\
     (cfg_unique (config a') = true <-> m_unique ∈ ms2) /\
     (cfg_indexed (config a') = true <-> m_indexed ∈ ms2)).
Proof.
  apply (modifier_chain_flags [m_indexed; m_optional; m_unique] sample_store 3
           {| valueType := vt_string; required := true;
              config := {| cfg_indexed := false; cfg_unique := true |} |}
           9
           (snd (default (0, []) (call_chain [m_indexed; m_optional; m_unique] 3
                                     sample_store)))).
  - reflexivity.
  - reflexivity.
  - reflexivity.
Defined.

(** ** Static links and the links on maps *)

Lemma remap_by_label_lookup dir ds l :
  remap_by_label dir ds !! l =
  match filter (fun d => label (link_side dir d) = l) ds with
  | [] => None
  | ds' => Some ds'
  end.
Proof.
  unfold remap_by_label.
  induction ds as [|d ds IH]; simpl; [apply lookup_empty|].
  destruct (decide (label (link_side dir d) = l)) as [Heq|Hne].
  - rewrite filter_cons_True by exact Heq. subst l.
    rewrite lookup_insert_eq, IH. by destruct (filter _ ds).
  - rewrite filter_cons_False by exact Hne.
    rewrite lookup_insert_ne by exact Hne. exact IH.
Qed.

Lemma LinksIndexedByEntity_lookup entities (lnks : LinksDef) dir E :
  E ∈ dom entities ->
  LinksIndexedByEntity entities lnks dir !! E
  = Some (remap_by_label dir
            (filter (fun d => on (link_side dir d) = E) (Object_values lnks))).
Proof.
  intros [def Hdef]%elem_of_dom. unfold LinksIndexedByEntity.
  by rewrite map_lookup_imap, Hdef.
Qed.

Lemma filter_side_key dir (ds : list LinkDef) E l :
  filter (fun d => label (link_side dir d) = l)
         (filter (fun d => on (link_side dir d) = E) ds)
  = filter (fun d => (on (link_side dir d), label (link_side dir d)) = (E, l)) ds.
Proof.
  rewrite list_filter_filter. apply list_filter_iff.
  intros d. split; [intros [-> ->]; reflexivity|intros [= -> ->]; done].
Qed.

Lemma filter_none {A} (P : A -> Prop) `{forall x, Decision (P x)} (l : list A) :
  (forall x, x ∈ l -> ~ P x) -> filter P l = [].
Proof.
  induction l as [|x l IH]; intros Hl; [reflexivity|].
  rewrite filter_cons_False by (apply Hl; left).
  apply IH. intros y Hy. apply Hl. by right.
Qed.

Lemma filter_key_singleton {K} `{EqDecision K} (key : LinkDef -> K)
    (ds : list LinkDef) d :
  NoDup (key <$> ds) -> d ∈ ds ->
  filter (fun d' => key d' = key d) ds = [d].
Proof.
  induction ds as [|d0 ds IH]; intros Hnd Hd; [by apply elem_of_nil in Hd|].
  rewrite fmap_cons in Hnd. apply NoDup_cons in Hnd as [Hnotin Hnd].
  apply elem_of_cons in Hd as [->|Hd].
  - rewrite filter_cons_True by reflexivity. f_equal.
    apply filter_none. intros d' Hd' Heq.
    apply Hnotin. rewrite <- Heq. apply list_elem_of_fmap. eauto.
  - rewrite filter_cons_False; [by apply IH|].
    intros Heq. apply Hnotin. rewrite Heq. apply list_elem_of_fmap. eauto.
Qed.

Lemma static_forward_dom entities (lnks : LinksDef) E l :
  E ∈ dom entities ->
  l ∈ dom (EntityForwardLinksMap E entities lnks) <->
  exists d, d ∈ Object_values lnks /\ rev_key d = (E, l).
Proof.
  intros HE. unfold EntityForwardLinksMap.
  rewrite LinksIndexedByEntity_lookup by exact HE.
  rewrite dom_fmap_L, elem_of_dom, remap_by_label_lookup, filter_side_key. simpl.
  split.
  - intros Hs. destruct (filter _ _) as [|d ds'] eqn:Hf; [by destruct Hs|].
    assert (Hd : d ∈ filter (fun d => (on (reverse d), label (reverse d)) = (E, l))
                       (Object_values lnks)) by (rewrite Hf; left).
    apply list_elem_of_filter in Hd as [Hk Hd]. by exists d.
  - intros (d & Hd & Hk).
    assert (Hin : d ∈ filter (fun d => (on (reverse d), label (reverse d)) = (E, l))
                        (Object_values lnks)) by (by apply list_elem_of_filter).
    destruct (filter _ _); [by apply elem_of_nil in Hin|by eexists].
Qed.

Lemma static_reverse_dom entities (lnks : LinksDef) E l :
  E ∈ dom entities ->
  l ∈ dom (EntityReverseLinksMap E entities lnks) <->
  exists d, d ∈ Object_values lnks /\ fwd_key d = (E, l).
Proof.
  intros HE. unfold EntityReverseLinksMap.
  rewrite LinksIndexedByEntity_lookup by exact HE.
  rewrite dom_fmap_L, elem_of_dom, remap_by_label_lookup, filter_side_key. simpl.
  split.
  - intros Hs. destruct (filter _ _) as [|d ds'] eqn:Hf; [by destruct Hs|].
    assert (Hd : d ∈ filter (fun d => (on (forward d), label (forward d)) = (E, l))
                       (Object_values lnks)) by (rewrite Hf; left).
    apply list_elem_of_filter in Hd as [Hk Hd]. by exists d.
  - intros (d & Hd & Hk).
    assert (Hin : d ∈ filter (fun d => (on (forward d), label (forward d)) = (E, l))
                        (Object_values lnks)) by (by apply list_elem_of_filter).
    destruct (filter _ _); [by apply elem_of_nil in Hin|by eexists].
Qed.

Lemma runtime_links_dom entities (lnks : LinksDef) E l :
  E ∈ dom entities ->
  l ∈ dom (entity_links (map_enrichEntitiesWithLinks entities lnks) E) <->
  exists d, d ∈ Object_values lnks /\ (fwd_key d = (E, l) \/ rev_key d = (E, l)).
Proof.
  intros HE. rewrite elem_of_dom, enrich_entity_links by exact HE. split.
  - intros [v Hv].
    destruct (nested_lookup (rev (map_linksIndex lnks)) E l) as [w|] eqn:Hr.
    + apply linksIndex_rev_source in Hr as (d & Hd & Hk & _). exists d. auto.
    + apply linksIndex_fwd_source in Hv as (d & Hd & Hk & _). exists d. auto.
  - intros (d & Hd & [Hk|Hk]); injection Hk as <- <-.
    + destruct (nested_lookup (rev (map_linksIndex lnks)) _ _); [by eexists|].
      by apply linksIndex_fwd_is_Some.
    + destruct (linksIndex_rev_is_Some lnks d Hd) as [v ->]. by eexists.
Qed.

(** On maps: for every declared entity, the keys of the static [links] type
    ([EntityForwardLinksMap & EntityReverseLinksMap]) are the keys of the
    [links] of the graph computed on maps. *)
Lemma map_static_links_keys appId entities (lnks : LinksDef) E :
  E ∈ dom entities ->
  dom (static_links_forward (EntityWithLinks E entities lnks))
  ∪ dom (static_links_reverse (EntityWithLinks E entities lnks))
  = dom (entity_links (graph_entities (map_graph appId entities lnks)) E).
Proof.
  intros HE. apply set_eq; intros l. simpl.
  rewrite elem_of_union, static_forward_dom, static_reverse_dom,
    runtime_links_dom by exact HE.
  split.
  - intros [(d & Hd & Hk)|(d & Hd & Hk)]; exists d; auto.
  - intros (d & Hd & [Hk|Hk]); [right|left]; by exists d.
Qed.

(** On maps: when no two definitions write the same key in the reverse
    direction, a link with forward side on [A] with cardinality [cf] and
    reverse [{on: B, label: y, has: cr}], [B] declared, has under [y] on
    [B]: on maps the entry [{entityName: A, cardinality: cr}], and in
    the static [EntityForwardLinksMap] the type
    [{entityName: B, cardinality: cf}]. The entry is of that type exactly
    when [A = B] and [cf = cr]. *)
Lemma map_static_forward_links_entry appId entities (lnks : LinksDef) d :
  NoDup (rev_key <$> Object_values lnks) ->
  d ∈ Object_values lnks ->
  on (reverse d) ∈ dom entities ->
  let t := {| static_entityName := [on (reverse d)];
              static_cardinality := [has (forward d)] |} in
  let v := {| entityName := on (forward d); cardinality := has (reverse d) |} in
  static_links_forward (EntityWithLinks (on (reverse d)) entities lnks)
    !! label (reverse d) = Some t /\
  entity_links (graph_entities (map_graph appId entities lnks)) (on (reverse d))
    !! label (reverse d) = Some v /\
  (has_static_type v t <->
   on (forward d) = on (reverse d) /\ has (reverse d) = has (forward d)).
Proof.
  intros Hnd Hd HB. simpl. split; [|split].
  - unfold EntityForwardLinksMap.
    rewrite LinksIndexedByEntity_lookup by exact HB.
    rewrite lookup_fmap, remap_by_label_lookup, filter_side_key. simpl.
    rewrite (filter_key_singleton rev_key _ d Hnd Hd). reflexivity.
  - rewrite enrich_entity_links by exact HB.
    by rewrite linksIndex_rev_entry.
  - unfold has_static_type. simpl. rewrite !list_elem_of_singleton. reflexivity.
Qed.

(** ** The Stripe webhook *)

Section stripe_facts.
Context {DB : Type}.
Context (get_by_event_id : option string -> DB -> bool).
Context (create : SubscriptionOpts -> DB -> DB).

Ltac handler_cases e db env :=
  unfold handle_stripe_webhook_event, processed_event, when_prod;
  destruct (get_by_event_id (event_id e) db) eqn:Hprocessed;
  [|destruct (decide (event_type e = Some "checkout.session.completed")) as [Hco|Hco];
    [|destruct (decide (event_type e = Some "customer.subscription.deleted")) as [Hde|Hde]]];
  destruct (decide (env = "prod")) as [Hprod|Hprod]; simpl.

Lemma handle_processed_event env (e : StripeEvent) (db : DB) :
  get_by_event_id (event_id e) db = true ->
  handle_stripe_webhook_event get_by_event_id create env e db
  = (db, [call_add_data already_processed]).
Proof. unfold handle_stripe_webhook_event, processed_event. by intros ->. Qed.

Lemma handle_other_event env (e : StripeEvent) (db : DB) :
  get_by_event_id (event_id e) db = false ->
  event_type e ≠ Some "checkout.session.completed" ->
  event_type e ≠ Some "customer.subscription.deleted" ->
  handle_stripe_webhook_event get_by_event_id create env e db
  = (db, [call_add_data skipped_event]).
Proof.
  unfold handle_stripe_webhook_event, processed_event. intros -> Hco Hde.
  by rewrite !decide_False.
Qed.

Lemma handled_event_state env (e : StripeEvent) (db : DB) :
  (forall o db0, get_by_event_id (opts_stripe_event_id o) (create o db0) = true) ->
  let db1 := fst (handle_stripe_webhook_event get_by_event_id create env e db) in
  get_by_event_id (event_id e) db1 = true \/
  (get_by_event_id (event_id e) db1 = false /\
   event_type e ≠ Some "checkout.session.completed" /\
   event_type e ≠ Some "customer.subscription.deleted").
Proof.
  intros Hfound. simpl. handler_cases e db env; auto.
  all: left; apply (Hfound (shared_opts e _)).
Qed.

(** X16: provided a created subscription is found again by its event
    id, delivering an event a second time changes nothing in the store
    and makes no [create!] and no ping: the second run only records
    that the event was processed already, or that it is skipped. *)
Theorem stripe_event_redelivery env env' (e : StripeEvent) (db : DB) :
  (forall o db0, get_by_event_id (opts_stripe_event_id o) (create o db0) = true) ->
  let db1 := fst (handle_stripe_webhook_event get_by_event_id create env e db) in
  exists a,
    handle_stripe_webhook_event get_by_event_id create env' e db1
    = (db1, [call_add_data a]) /\
    (a = already_processed \/ a = skipped_event).
Proof.
  intros Hfound db1.
  destruct (handled_event_state env e db Hfound) as [Hdone|(Hnot & Hco & Hde)];
    fold db1 in Hdone || fold db1 in Hnot.
  - exists already_processed. split; [|by left].
    by apply handle_processed_event.
  - exists skipped_event. split; [|by right].
    by apply handle_other_event.
Qed.

(** X17: the handler calls [create!] only for an event that was not
    processed before and whose type is [checkout.session.completed]
    (subscription type 2, Pro) or [customer.subscription.deleted]
    (type 1, Free), with the ids of the event; the store it returns is
    then the result of that one call; without a [create!] the store is
    returned as it was. *)
Theorem stripe_create_only_for_known_events env (e : StripeEvent) (db : DB) :
  let r := handle_stripe_webhook_event get_by_event_id create env e db in
  (forall o,
     call_create o ∈ snd r ->
     get_by_event_id (event_id e) db = false /\
     fst r = create o db /\
     o = shared_opts e (opts_subscription_type_id o) /\
     ((event_type e = Some "checkout.session.completed" /\
       opts_subscription_type_id o = 2) \/
      (event_type e = Some "customer.subscription.deleted" /\
       opts_subscription_type_id o = 1))) /\
  ((forall o, call_create o ∉ snd r) -> fst r = db).
Proof.
  simpl. handler_cases e db env; split;
    try (intros _; reflexivity);
    try (intros Hno; exfalso; eapply Hno; left);
    intros o Ho; set_unfold in Ho;
    repeat match goal with
           | H : _ \/ _ |- _ => destruct H
           | H : False |- _ => destruct H
           | H : call_create _ = _ |- _ => injection H as ->
           | H : _ = _ |- _ => discriminate H
           end;
    simpl; auto 10.
Qed.

(** X18: a new-customer or churned-customer ping is made only in the
    [prod] environment, only for an event not processed before, and
    only together with the matching event type: new customer for
    [checkout.session.completed], churned for
    [customer.subscription.deleted]; the user pinged is the one of the
    event's metadata. *)
Theorem stripe_pings_only_in_prod env (e : StripeEvent) (db : DB) :
  let calls := snd (handle_stripe_webhook_event get_by_event_id create env e db) in
  (forall u,
     call_ping_new_customer u ∈ calls ->
     env = "prod" /\ get_by_event_id (event_id e) db = false /\
     event_type e = Some "checkout.session.completed" /\ u = metadata_user_id e) /\
  (forall u,
     call_ping_churned_customer u ∈ calls ->
     env = "prod" /\ get_by_event_id (event_id e) db = false /\
     event_type e = Some "customer.subscription.deleted" /\ u = metadata_user_id e).
Proof.
  simpl. handler_cases e db env; split;
    intros u Hu; set_unfold in Hu;
    repeat match goal with
           | H : _ \/ _ |- _ => destruct H
           | H : False |- _ => destruct H
           | H : call_ping_new_customer _ = _ |- _ => injection H as ->
           | H : call_ping_churned_customer _ = _ |- _ => injection H as ->
           | H : _ = _ |- _ => discriminate H
           end;
    auto.
Qed.
End stripe_facts.

Lemma stripe_event_redelivery_witness :
  let db1 := fst (handle_stripe_webhook_event list_get_by_event_id list_create
                    "prod" checkout_event []) in
  exists a,
    handle_stripe_webhook_event list_get_by_event_id list_create "prod"
      checkout_event db1
    = (db1, [call_add_data a]) /\
    (a = already_processed \/ a = skipped_event).
Proof.
  apply (stripe_event_redelivery list_get_by_event_id list_create
           "prod" "prod" checkout_event []).
  intros o db0. unfold list_get_by_event_id, list_create.
  apply bool_decide_eq_true. left. reflexivity.
Defined.

(** ** The command actions of the CLI *)

Lemma in_cli_bind {A B} (m : Cli A) (k : A -> Cli B) w c :
  c ∈ fst (cli_bind m k w) ->
  c ∈ fst (m w) \/ exists a, snd (m w) = Some a /\ c ∈ fst (k a w).
Proof.
  unfold cli_bind. destruct (m w) as [t [a|]]; simpl; [|by left].
  destruct (k a w) as [t' r] eqn:Hk. simpl.
  intros [H|H]%elem_of_app; [by left|]. right. exists a. by rewrite Hk.
Qed.

Lemma cli_bind_run {A B} (m : Cli A) (k : A -> Cli B) w t a :
  m w = (t, Some a) ->
  cli_bind m k w = (t ++ fst (k a w), snd (k a w)).
Proof. unfold cli_bind. intros ->. by destruct (k a w). Qed.

Lemma promptOk_run message w :
  snd (promptOk message w) = Some (accepted w message) /\
  fst (promptOk message w)
  = if options_y w then [] else [call_confirm message].
Proof.
  unfold promptOk, accepted, cli_bind, cli_ask, cli_catch, confirm, cli_call, cli_ret.
  simpl. destruct (options_y w); simpl; [done|].
  by destruct (confirm_answer w message).
Qed.

Lemma readConfigAuthToken_run w :
  snd (readConfigAuthToken w) = Some (auth_token_of w) /\
  fst (readConfigAuthToken w)
  = if truthy (options_token w) then [] else [call_readFile (authConfigFilePath w)].
Proof.
  unfold readConfigAuthToken, auth_token_of, cli_bind, cli_ask, cli_catch, readFile,
    cli_call, cli_ret.
  simpl. destruct (truthy (options_token w)); simpl; [done|].
  by destruct (file_content w (authConfigFilePath w)).
Qed.

Lemma step_lines_run paint (steps : list Step) w :
  fold_right (fun st rest => console_log (step_line paint st) ;;; rest)
             (cli_ret tt) steps w
  = ((fun st => call_log (step_line paint st)) <$> steps, Some tt).
Proof.
  induction steps as [|st steps IH]; [reflexivity|].
  simpl. unfold cli_bind at 1. simpl. by rewrite IH.
Qed.

Lemma logApiErrors_run data w :
  logApiErrors data w
  = ((if truthy (json_message data)
      then [call_error (default "" (json_message data))] else [])
     ++ ((fun e => call_error (join_arrow (error_in e) ++ ": " ++ error_message e))
           <$> default [] (json_hint_errors data)),
     Some tt).
Proof.
  unfold logApiErrors.
  assert (Hfold : forall errors,
            fold_right
              (fun error rest =>
                 console_error (join_arrow (error_in error) ++ ": "
                                ++ error_message error) ;;; rest)
              (cli_ret tt) errors w
            = ((fun e => call_error (join_arrow (error_in e) ++ ": "
                                     ++ error_message e)) <$> errors, Some tt)).
  { induction errors as [|e errors IH]; [reflexivity|].
    simpl. unfold cli_bind at 1. simpl. by rewrite IH. }
  unfold cli_bind, cli_when.
  destruct (truthy (json_message data)); simpl;
    destruct (json_hint_errors data) as [errors|]; simpl;
    rewrite ?Hfold; reflexivity.
Qed.

Lemma truthy_Some s : truthy s = true -> exists t, s = Some t /\ t ≠ "".
Proof.
  destruct s as [t|]; simpl; [|discriminate]. intros Ht. exists t. split; [done|].
  intros ->. discriminate Ht.
Qed.

Lemma no_fetch_in_prints {X} req (l : list X) (f : X -> CliCall) :
  (forall x, f x ≠ call_fetch req) -> call_fetch req ∈ f <$> l -> False.
Proof. intros Hf (x & Hx & _)%list_elem_of_fmap. by eapply Hf. Qed.

Tactic Notation "bind_inv" hyp(H) "as" ident(a) ident(Ha) :=
  apply in_cli_bind in H as [H | (a & Ha & H)].

Ltac no_call H :=
  exfalso;
  unfold cli_when, console_log, console_error, readLocalSchema, readLocalPerms,
    cli_call, cli_ret, cli_ask in H;
  simpl in H;
  repeat match type of H with
         | context [if ?b then _ else _] => destruct b; simpl in H
         end;
  set_unfold in H;
  repeat match goal with
         | H' : _ \/ _ |- _ => destruct H'
         | H' : False |- _ => destruct H'
         | H' : _ = _ |- _ => discriminate H'
         end.

(** X19: [pushSchema] sends a request only when the first prompt was
    accepted (or [-y] given), a non-empty token is at hand, a schema file
    with a non-empty app id was loaded; the request is then the plan
    request, or the apply request with the same token and body, which is
    sent only after the plan request came back [ok] with at least one
    step and the second prompt was accepted. *)
Theorem pushSchema_requests w req :
  call_fetch req ∈ fst (pushSchema w) ->
  exists token g,
    auth_token_of w = Some token /\ token ≠ "" /\
    local_schema w = Some (Some g) /\ graph_appId g ≠ "" /\
    accepted w "This will immediately update your production schema, OK to proceed?"
      = true /\
    let plan := push_request w (plan_path (graph_appId g)) token (body_schema g) in
    (req = plan \/
     (req = push_request w (apply_path (graph_appId g)) token (body_schema g) /\
      accepted w "OK to proceed?" = true /\
      exists planRes data steps,
        fetch_response w plan = Some planRes /\ res_ok planRes = true /\
        res_json planRes = Some data /\ json_steps data = Some steps /\
        steps ≠ [])).
Proof.
  intros H. unfold pushSchema in H.
  bind_inv H as tok Htok.
  { rewrite (proj2 (readConfigAuthToken_run w)) in H. no_call H. }
  rewrite (proj1 (readConfigAuthToken_run w)) in Htok. injection Htok as <-.
  bind_inv H as sch Hsch; [no_call H|].
  unfold readLocalSchema, cli_call in Hsch. simpl in Hsch.
  bind_inv H as ok1 Hok1.
  { rewrite (proj2 (promptOk_run _ w)) in H. no_call H. }
  rewrite (proj1 (promptOk_run _ w)) in Hok1. injection Hok1 as <-.
  destruct (accepted w _) eqn:Hacc1; simpl in H; [|no_call H].
  bind_inv H as u1 Hu1; [no_call H|]. clear u1 Hu1.
  destruct (truthy (auth_token_of w)) eqn:Htruthy; simpl in H; [|no_call H].
  apply truthy_Some in Htruthy as (token & Htoken & Hne).
  destruct sch as [g|]; [|no_call H].
  destruct (String.eqb (graph_appId g) "") eqn:Hid; simpl in H; [no_call H|].
  apply String.eqb_neq in Hid.
  exists token, g. rewrite Htoken in *. simpl in *.
  repeat (split; [done|]).
  bind_inv H as w' Hw'; [no_call H|]. injection Hw' as <-.
  bind_inv H as planRes HplanRes.
  { left. simpl in H. apply list_elem_of_singleton in H. by injection H. }
  right. unfold fetch, cli_call in HplanRes. simpl in HplanRes.
  bind_inv H as u2 Hu2; [no_call H|]. clear u2 Hu2.
  destruct (res_ok planRes) eqn:Hres; simpl in H; [|no_call H].
  bind_inv H as data Hdata; [no_call H|].
  unfold response_json in Hdata. simpl in Hdata.
  bind_inv H as u3 Hu3; [no_call H|]. clear u3 Hu3.
  destruct (json_steps data) as [steps|] eqn:Hsteps; [|no_call H].
  destruct steps as [|st steps]; [no_call H|]. simpl Nat.eqb in H. cbv iota in H.
  bind_inv H as u4 Hu4; [no_call H|]. clear u4 Hu4.
  bind_inv H as u5 Hu5; [no_call H|]. clear u5 Hu5.
  bind_inv H as u6 Hu6.
  { exfalso. rewrite step_lines_run in H. unfold fst in H.
    apply no_fetch_in_prints in H; [done|]. intros x. discriminate. }
  clear u6 Hu6.
  bind_inv H as u7 Hu7; [no_call H|]. clear u7 Hu7.
  bind_inv H as ok2 Hok2.
  { rewrite (proj2 (promptOk_run _ w)) in H. no_call H. }
  rewrite (proj1 (promptOk_run _ w)) in Hok2. injection Hok2 as <-.
  destruct (accepted w "OK to proceed?") eqn:Hacc2; simpl in H; [|no_call H].
  split.
  - bind_inv H as applyRes HapplyRes.
    + simpl in H. apply list_elem_of_singleton in H. by injection H.
    + exfalso. bind_inv H as u8 Hu8; [no_call H|]. clear u8 Hu8.
      destruct (res_ok applyRes); [no_call H|].
      bind_inv H as u9 Hu9; [no_call H|]. clear u9 Hu9.
      bind_inv H as errs Herrs; [no_call H|].
      rewrite logApiErrors_run in H. unfold fst in H.
      apply elem_of_app in H as [H|H]; [no_call H|].
      apply no_fetch_in_prints in H; [done|]. intros x. discriminate.
  - split; [done|]. exists planRes, data, (st :: steps). by repeat split.
Qed.

Lemma pushSchema_requests_witness :
  exists token g,
    auth_token_of sample_world = Some token /\ token ≠ "" /\
    local_schema sample_world = Some (Some g) /\ graph_appId g ≠ "" /\
    accepted sample_world
      "This will immediately update your production schema, OK to proceed?" = true /\
    let plan := push_request sample_world (plan_path (graph_appId g)) token
                  (body_schema g) in
    (push_request sample_world (apply_path "app") "token" (body_schema blog) = plan \/
     (push_request sample_world (apply_path "app") "token" (body_schema blog)
      = push_request sample_world (apply_path (graph_appId g)) token (body_schema g) /\
      accepted sample_world "OK to proceed?" = true /\
      exists planRes data steps,
        fetch_response sample_world plan = Some planRes /\ res_ok planRes = true /\
        res_json planRes = Some data /\ json_steps data = Some steps /\
        steps ≠ [])).
Proof.
  apply (pushSchema_requests sample_world
           (push_request sample_world (apply_path "app") "token" (body_schema blog))).
  vm_compute. do 10 right. left.
Defined.

Lemma in_cli_bind_weak {A B} (m : Cli A) (k : A -> Cli B) w c :
  c ∈ fst (cli_bind m k w) ->
  c ∈ fst (m w) \/ exists a, c ∈ fst (k a w).
Proof. intros [H|(a & _ & H)]%in_cli_bind; eauto. Qed.

Ltac walk H :=
  repeat first
    [ rewrite step_lines_run in H
    | rewrite logApiErrors_run in H
    | rewrite (proj2 (promptOk_run _ _)) in H
    | rewrite (proj2 (readConfigAuthToken_run _)) in H
    | apply in_cli_bind_weak in H as [H | [? H]]
    | match type of H with
      | context [if ?b then _ else _] => destruct b eqn:?
      | context [match ?x with _ => _ end] => destruct x eqn:?
      end
    | progress (unfold cli_when, console_log, console_error, readLocalSchema,
                 readLocalPerms, fetch, response_json, cli_call, cli_ret, cli_ask,
                 fst in H)
    | apply elem_of_app in H as [H | H]
    | apply list_elem_of_fmap in H as (? & H & _)
    | apply elem_of_cons in H as [H | H]
    | apply elem_of_nil in H ];
  try done.

(** X20: with [-y] neither [pushSchema] nor [pushPerms] asks for
    confirmation, and with a non-empty [--token] neither reads the
    stored token file. *)
Theorem push_flags_skip_prompt_and_token_file w :
  (options_y w = true ->
   forall message,
     (call_confirm message ∉ fst (pushSchema w)) /\
     (call_confirm message ∉ fst (pushPerms w))) /\
  (truthy (options_token w) = true ->
   forall path,
     (call_readFile path ∉ fst (pushSchema w)) /\
     (call_readFile path ∉ fst (pushPerms w))).
Proof.
  split.
  - intros Hy message.
    split; intros H; unfold pushSchema, pushPerms in H; rewrite ?Hy in H; walk H;
      congruence.
  - intros Ht path.
    split; intros H; unfold pushSchema, pushPerms in H; rewrite ?Ht in H; walk H;
      congruence.
Qed.

(** X21: [pushPerms] sends a request only when the prompt was accepted
    (or [-y] given), a non-empty token is at hand, a schema file with a
    non-empty app id and a perms file were loaded; the request is then
    the POST of the perms to the rules of that app, with that token. *)
Theorem pushPerms_requests w req :
  call_fetch req ∈ fst (pushPerms w) ->
  exists token g perms,
    auth_token_of w = Some token /\ token ≠ "" /\
    local_schema w = Some (Some g) /\ graph_appId g ≠ "" /\
    local_perms w = Some (Some perms) /\
    accepted w "This will immediately replace your production perms with your local perms, OK to proceed?"
      = true /\
    req = push_request w (rules_path (graph_appId g)) token (body_code perms).
Proof.
  intros H. unfold pushPerms in H.
  bind_inv H as tok Htok.
  { rewrite (proj2 (readConfigAuthToken_run w)) in H. no_call H. }
  rewrite (proj1 (readConfigAuthToken_run w)) in Htok. injection Htok as <-.
  bind_inv H as sch Hsch; [no_call H|].
  unfold readLocalSchema, cli_call in Hsch. simpl in Hsch.
  bind_inv H as prm Hprm; [no_call H|].
  unfold readLocalPerms, cli_call in Hprm. simpl in Hprm.
  bind_inv H as ok1 Hok1.
  { rewrite (proj2 (promptOk_run _ w)) in H. no_call H. }
  rewrite (proj1 (promptOk_run _ w)) in Hok1. injection Hok1 as <-.
  destruct (accepted w _) eqn:Hacc1; simpl in H; [|no_call H].
  destruct (truthy (auth_token_of w)) eqn:Htruthy; simpl in H; [|no_call H].
  apply truthy_Some in Htruthy as (token & Htoken & Hne).
  destruct sch as [g|]; [|no_call H].
  destruct (String.eqb (graph_appId g) "") eqn:Hid; simpl in H; [no_call H|].
  apply String.eqb_neq in Hid.
  destruct prm as [perms|]; [|no_call H].
  exists token, g, perms. rewrite Htoken in *. simpl in *.
  repeat (split; [done|]).
  bind_inv H as w' Hw'; [no_call H|]. injection Hw' as <-.
  bind_inv H as permsRes HpermsRes.
  { simpl in H. apply list_elem_of_singleton in H. by injection H. }
  exfalso. bind_inv H as u1 Hu1; [no_call H|]. clear u1 Hu1.
  destruct (res_ok permsRes); [no_call H|].
  bind_inv H as u2 Hu2; [no_call H|]. clear u2 Hu2.
  bind_inv H as errs Herrs; [no_call H|].
  rewrite logApiErrors_run in H. unfold fst in H.
  apply elem_of_app in H as [H|H]; [no_call H|].
  apply no_fetch_in_prints in H; [done|]. intros x. discriminate.
Qed.

Lemma pushPerms_requests_witness :
  exists token g perms,
    auth_token_of sample_world = Some token /\ token ≠ "" /\
    local_schema sample_world = Some (Some g) /\ graph_appId g ≠ "" /\
    local_perms sample_world = Some (Some perms) /\
    accepted sample_world "This will immediately replace your production perms with your local perms, OK to proceed?"
      = true /\
    push_request sample_world (rules_path "app") "token" (body_code "{}")
    = push_request sample_world (rules_path (graph_appId g)) token (body_code perms).
Proof.
  apply (pushPerms_requests sample_world
           (push_request sample_world (rules_path "app") "token" (body_code "{}"))).
  vm_compute. do 4 right. left.
Defined.

Lemma readConfigAuthToken_eq w :
  readConfigAuthToken w = (fst (readConfigAuthToken w), Some (auth_token_of w)).
Proof.
  rewrite <- (proj1 (readConfigAuthToken_run w)). by destruct (readConfigAuthToken w).
Qed.

Lemma promptOk_eq message w :
  promptOk message w = (fst (promptOk message w), Some (accepted w message)).
Proof.
  rewrite <- (proj1 (promptOk_run message w)). by destruct (promptOk message w).
Qed.

Lemma cli_when_eq (b : bool) line w :
  cli_when b (console_log line) w = (if b then [call_log line] else [], Some tt).
Proof. by destruct b. Qed.

Tactic Notation "run_bind" uconstr(lem) :=
  (erewrite cli_bind_run by (exact lem)); simpl fst; simpl snd.

(** X22: when a non-empty token and a schema with an app id are at
    hand, both prompts are accepted, the plan comes back [ok] with at
    least one step and the apply request comes back [ok], [pushSchema]
    makes exactly these calls, in this order: the plan request, one line
    per planned step, the second prompt (unless [-y]), the apply request,
    and the final message. *)
Theorem pushSchema_successful_run w token g planRes data steps applyRes :
  let plan := push_request w (plan_path (graph_appId g)) token (body_schema g) in
  let apply := push_request w (apply_path (graph_appId g)) token (body_schema g) in
  auth_token_of w = Some token -> token ≠ "" ->
  local_schema w = Some (Some g) -> graph_appId g ≠ "" ->
  accepted w "This will immediately update your production schema, OK to proceed?"
    = true ->
  fetch_response w plan = Some planRes -> res_ok planRes = true ->
  res_json planRes = Some data -> json_steps data = Some steps -> steps ≠ [] ->
  accepted w "OK to proceed?" = true ->
  fetch_response w apply = Some applyRes -> res_ok applyRes = true ->
  pushSchema w
  = (fst (readConfigAuthToken w)
     ++ [call_loadConfig "instant.schema"]
     ++ fst (promptOk "This will immediately update your production schema, OK to proceed?" w)
     ++ [call_log "Planning..."; call_fetch plan]
     ++ (if verbose w
         then [call_log ("Plan response: " ++ res_status planRes ++ " "
                         ++ res_statusText planRes);
               call_log (inspect w data)]
         else [])
     ++ [call_log "";
         call_log "The following changes will be applied to your production schema:"]
     ++ ((fun st => call_log (step_line (chalk w) st)) <$> steps)
     ++ [call_log ""]
     ++ fst (promptOk "OK to proceed?" w)
     ++ [call_fetch apply]
     ++ (if verbose w
         then [call_log ("Apply response: " ++ res_status applyRes ++ " "
                         ++ res_statusText applyRes)]
         else [])
     ++ [call_log (chalk w green "Schema updated!")],
     Some tt).
Proof.
  intros plan apply Htoken Hne Hschema Hid Hacc1 Hplan Hplanok Hdata Hsteps Hnonempty
    Hacc2 Happly Happlyok.
  assert (Htruthy : truthy (Some token) = true).
  { simpl. apply negb_true_iff. by apply String.eqb_neq. }
  assert (Hidtruthy : String.eqb (graph_appId g) "" = false) by (by apply String.eqb_neq).
  unfold pushSchema.
  run_bind (readConfigAuthToken_eq w).
  erewrite cli_bind_run
    by (unfold readLocalSchema, cli_call; rewrite Hschema; reflexivity).
  simpl fst; simpl snd.
  run_bind (promptOk_eq _ w). rewrite Hacc1. cbn [negb].
  run_bind (eq_refl : console_log "Planning..." w = ([call_log "Planning..."], Some tt)).
  rewrite Htoken, Htruthy. cbn [negb default]. rewrite Hidtruthy. cbn [negb].
  run_bind (eq_refl : cli_ask id w = ([], Some w)).
  erewrite cli_bind_run
    by (unfold fetch, cli_call; fold plan; rewrite Hplan; reflexivity).
  simpl fst; simpl snd.
  run_bind (cli_when_eq (verbose w) _ w). rewrite Hplanok. cbn [negb].
  erewrite cli_bind_run by (unfold response_json; rewrite Hdata; reflexivity).
  simpl fst; simpl snd.
  run_bind (cli_when_eq (verbose w) _ w). rewrite Hsteps.
  destruct steps as [|st steps]; [done|]. cbn [Nat.eqb List.length].
  run_bind (eq_refl : console_log "" w = ([call_log ""], Some tt)).
  run_bind (eq_refl : console_log
                        "The following changes will be applied to your production schema:" w
                      = ([call_log _], Some tt)).
  run_bind (step_lines_run (chalk w) (st :: steps) w).
  run_bind (eq_refl : console_log "" w = ([call_log ""], Some tt)).
  run_bind (promptOk_eq "OK to proceed?" w). rewrite Hacc2. cbn [negb].
  erewrite cli_bind_run
    by (unfold fetch, cli_call; fold apply; rewrite Happly; reflexivity).
  simpl fst; simpl snd.
  run_bind (cli_when_eq (verbose w) _ w). rewrite Happlyok.
  unfold console_log, cli_call. simpl.
  destruct (verbose w); simpl; rewrite <- ?app_assoc; reflexivity.
Qed.

Lemma pushSchema_successful_run_witness :
  pushSchema sample_world
  = ([call_readFile "/config/instantdb/a";
      call_loadConfig "instant.schema";
      call_confirm "This will immediately update your production schema, OK to proceed?";
      call_log "Planning...";
      call_fetch (push_request sample_world (plan_path "app") "token" (body_schema blog));
      call_log "";
      call_log "The following changes will be applied to your production schema:";
      call_log "ADD ENTITY posts";
      call_log "";
      call_confirm "OK to proceed?";
      call_fetch (push_request sample_world (apply_path "app") "token" (body_schema blog));
      call_log "Schema updated!"],
     Some tt).
Proof.
  apply (pushSchema_successful_run sample_world "token" blog
           {| res_ok := true; res_status := "200"; res_statusText := "OK";
              res_json := Some {| json_steps := Some [sample_step];
                                  json_message := None;
                                  json_hint_errors := None |} |}
           {| json_steps := Some [sample_step]; json_message := None;
              json_hint_errors := None |}
           [sample_step]
           {| res_ok := true; res_status := "200"; res_statusText := "OK";
              res_json := Some {| json_steps := Some [sample_step];
                                  json_message := None;
                                  json_hint_errors := None |} |}).
  all: try reflexivity.
  all: discriminate.
Defined.

Lemma stripe_create_only_for_known_events_witness :
  let r := handle_stripe_webhook_event list_get_by_event_id list_create "dev"
             checkout_event [] in
  let o := shared_opts checkout_event 2 in
  list_get_by_event_id (event_id checkout_event) [] = false /\
  fst r = list_create o [] /\
  o = shared_opts checkout_event (opts_subscription_type_id o) /\
  ((event_type checkout_event = Some "checkout.session.completed" /\
    opts_subscription_type_id o = 2) \/
   (event_type checkout_event = Some "customer.subscription.deleted" /\
    opts_subscription_type_id o = 1)).
Proof.
  apply (proj1 (stripe_create_only_for_known_events list_get_by_event_id list_create
                  "dev" checkout_event [])).
  vm_compute. left.
Defined.

Lemma stripe_pings_only_in_prod_witness :
  "prod" = "prod" /\
  list_get_by_event_id (event_id checkout_event) [] = false /\
  event_type checkout_event = Some "checkout.session.completed" /\
  Some "user_1" = metadata_user_id checkout_event.
Proof.
  apply (proj1 (stripe_pings_only_in_prod list_get_by_event_id list_create
                  "prod" checkout_event [])).
  vm_compute. right. left.
Defined.

(** ** The explorer query *)

(** X23: the explorer query is empty without a selected namespace; with
    one, its only key is the namespace name, and under it: [$] always
    holds the options, also when an attribute is called [$]; any other key
    is there exactly when the namespace has a [ref] attribute of that name,
    and holds [{}]. In the options, [where] is present only when both
    [whereAttr] and [whereId] are non-empty, and a [limit] or [offset] of 0
    is left out like a missing one. *)
Theorem explorer_query_keys ns whereAttr whereId limit offset :
  iql None whereAttr whereId limit offset = ∅ /\
  dom (iql (Some ns) whereAttr whereId limit offset) = {[ ns_name ns ]} /\
  let q := iql_namespace ns whereAttr whereId limit offset in
  iql (Some ns) whereAttr whereId limit offset !! ns_name ns = Some q /\
  q !! "$" = Some (iql_options (iql_dollar whereAttr whereId limit offset)) /\
  (forall k v, k ≠ "$" ->
     q !! k = Some v <->
     v = iql_empty /\
     exists a, a ∈ ns_attrs ns /\ sa_type a = "ref" /\ sa_name a = k) /\
  (is_Some (iql_where (iql_dollar whereAttr whereId limit offset)) <->
   (exists a i, whereAttr = Some a /\ whereId = Some i /\ a ≠ "" /\ i ≠ "")) /\
  (forall n, iql_limit (iql_dollar whereAttr whereId limit offset) = Some n <->
             limit = Some n /\ n ≠ 0%Z) /\
  (forall n, iql_offset (iql_dollar whereAttr whereId limit offset) = Some n <->
             offset = Some n /\ n ≠ 0%Z).
Proof.
  split; [reflexivity|]. split; [apply dom_singleton_L|]. simpl.
  split; [apply lookup_singleton_eq|]. split; [apply lookup_insert_eq|].
  split; [|split; [|split]].
  - intros k v Hk. unfold iql_namespace, Object_fromEntries.
    rewrite lookup_insert_ne by done. split.
    + intros Hv. apply elem_of_list_to_map_2 in Hv.
      apply list_elem_of_fmap in Hv as (a & [= -> ->] & [Ht Ha]%list_elem_of_filter).
      split; [reflexivity|]. by exists a.
    + intros (-> & a & Ha & Ht & <-).
      destruct (list_to_map _ !! sa_name a) as [v|] eqn:Hv.
      * apply elem_of_list_to_map_2 in Hv.
        apply list_elem_of_fmap in Hv as (a' & [= _ ->] & _). reflexivity.
      * apply not_elem_of_list_to_map in Hv. exfalso. apply Hv.
        rewrite <- list_fmap_compose. apply list_elem_of_fmap.
        exists a. split; [reflexivity|]. by apply list_elem_of_filter.
  - unfold iql_dollar. simpl. split.
    + intros Hs. destruct (truthy whereAttr) eqn:Ha; [|by destruct Hs].
      destruct (truthy whereId) eqn:Hi; [|by destruct Hs].
      apply truthy_Some in Ha as (a & -> & Hane).
      apply truthy_Some in Hi as (i & -> & Hine). by exists a, i.
    + intros (a & i & -> & -> & Ha & Hi). simpl.
      apply String.eqb_neq in Ha, Hi. rewrite Ha, Hi. simpl. by eexists.
  - intros n. unfold iql_dollar, truthy_number. simpl.
    destruct limit as [m|]; [|split; [discriminate|intros [? _]; discriminate]].
    destruct (Z.eqb_spec m 0) as [->|Hm]; simpl.
    + split; [discriminate|]. intros [[= <-] Hn]. done.
    + split; [intros [= <-]; done|]. by intros [? _].
  - intros n. unfold iql_dollar, truthy_number. simpl.
    destruct offset as [m|]; [|split; [discriminate|intros [? _]; discriminate]].
    destruct (Z.eqb_spec m 0) as [->|Hm]; simpl.
    + split; [discriminate|]. intros [[= <-] Hn]. done.
    + split; [intros [= <-]; done|]. by intros [? _].
Qed.

(** ** Static links and the links on maps, the other direction *)

(** On maps: when no two definitions write the same key in the forward
    direction and none writes it in the reverse direction, a link with
    forward [{on: A, label: x, has: cf}] and reverse side on [B] with
    cardinality [cr], [A] declared, has under [x] on [A]: on maps the
    entry [{entityName: B, cardinality: cf}], and in the static
    [EntityReverseLinksMap] the type [{entityName: A, cardinality: cr}].
    The entry is of that type exactly when [A = B] and [cf = cr]. *)
Lemma map_static_reverse_links_entry appId entities (lnks : LinksDef) d :
  NoDup (fwd_key <$> Object_values lnks) ->
  d ∈ Object_values lnks ->
  on (forward d) ∈ dom entities ->
  (forall d', d' ∈ Object_values lnks -> rev_key d' ≠ fwd_key d) ->
  let t := {| static_entityName := [on (forward d)];
              static_cardinality := [has (reverse d)] |} in
  let v := {| entityName := on (reverse d); cardinality := has (forward d) |} in
  static_links_reverse (EntityWithLinks (on (forward d)) entities lnks)
    !! label (forward d) = Some t /\
  entity_links (graph_entities (map_graph appId entities lnks)) (on (forward d))
    !! label (forward d) = Some v /\
  (has_static_type v t <->
   on (reverse d) = on (forward d) /\ has (forward d) = has (reverse d)).
Proof.
  intros Hnd Hd HA Hcross. simpl. split; [|split].
  - unfold EntityReverseLinksMap.
    rewrite LinksIndexedByEntity_lookup by exact HA.
    rewrite lookup_fmap, remap_by_label_lookup, filter_side_key. simpl.
    rewrite (filter_key_singleton fwd_key _ d Hnd Hd). reflexivity.
  - by apply enrich_forward_entry.
  - unfold has_static_type. simpl. rewrite !list_elem_of_singleton. reflexivity.
Qed.

Lemma push_flags_skip_prompt_and_token_file_witness :
  let w := {| options_y := true; options_token := Some "token"; dev := false;
              verbose := false; authConfigFilePath := "/config/instantdb/a";
              chalk := fun _ s => s; inspect := fun _ => "";
              confirm_answer := fun _ => None; file_content := fun _ => None;
              local_schema := Some (Some blog); local_perms := Some (Some "{}");
              fetch_response := fun _ => None |} in
  (call_confirm "OK to proceed?" ∉ fst (pushSchema w)) /\
  (call_readFile "/config/instantdb/a" ∉ fst (pushPerms w)).
Proof.
  intros w. split.
  - apply (proj1 (proj1 (push_flags_skip_prompt_and_token_file w) eq_refl
                    "OK to proceed?")).
  - apply (proj2 (proj2 (push_flags_skip_prompt_and_token_file w) eq_refl
                    "/config/instantdb/a")).
Defined.

Lemma explorer_query_keys_witness :
  let ns := {| ns_name := "posts";
               ns_attrs := [ {| sa_name := "title"; sa_type := "blob" |};
                             {| sa_name := "author"; sa_type := "ref" |} ] |} in
  let q := iql_namespace ns (Some "author") (Some "a1") (Some 0%Z) None in
  q !! "author" = Some iql_empty /\
  (forall n, iql_limit (iql_dollar (Some "author") (Some "a1") (Some 0%Z) None)
             ≠ Some n).
Proof.
  simpl.
  destruct (explorer_query_keys
              {| ns_name := "posts";
                 ns_attrs := [ {| sa_name := "title"; sa_type := "blob" |};
                               {| sa_name := "author"; sa_type := "ref" |} ] |}
              (Some "author") (Some "a1") (Some 0%Z) None)
    as (_ & _ & _ & _ & Hkeys & _ & Hlimit & _).
  split.
  - apply Hkeys; [discriminate|]. split; [reflexivity|].
    eexists. split; [right; left|]. split; reflexivity.
  - intros n Hn. apply Hlimit in Hn as [[= <-] Hne]. done.
Defined.

(** ** The heap run and the maps *)

Lemma js_bind_normal {A B} (m : JS A) (k : A -> JS B) h a h' :
  m h = (Normal a, h') -> js_bind m k h = k a h'.
Proof. intros E. unfold js_bind. by rewrite E. Qed.

Lemma chain_lookup_S fuel (h : Heap) l k :
  chain_lookup (S fuel) h l k
  = match h !! l with
    | None => None
    | Some o =>
        match properties o !! k with
        | Some p => Some p
        | None =>
            match prototype o with
            | Some parent => chain_lookup fuel h parent k
            | None => None
            end
        end
    end.
Proof. reflexivity. Qed.

Lemma find_property_own (h : Heap) l o k p :
  h !! l = Some o -> properties o !! k = Some p -> find_property h l k = Some p.
Proof.
  intros Hl Hk. unfold find_property. by rewrite chain_lookup_S, Hl, Hk.
Qed.

Lemma find_property_literal (h : Heap) l o P k :
  h !! l = Some o ->
  properties o !! k = None ->
  prototype o = Some Object_prototype ->
  h !! Object_prototype = Some P ->
  prototype P = None ->
  find_property h l k = properties P !! k.
Proof.
  intros Hl Hk Hp HP HPp. unfold find_property.
  rewrite chain_lookup_S, Hl, Hk, Hp.
  destruct (List.length h) as [|n] eqn:En.
  { apply length_zero_iff_nil in En. subst h. done. }
  rewrite chain_lookup_S, HP, HPp. by destruct (properties P !! k).
Qed.

Lemma Object_prototype_last_spec (h : Heap) :
  Object_prototype_last h = true ->
  exists P, h !! Object_prototype = Some P /\ prototype P = None.
Proof.
  unfold Object_prototype_last. destruct (h !! Object_prototype) as [P|]; [|done].
  intros Hb. apply bool_decide_eq_true in Hb. eauto.
Qed.

Lemma prefix_lookup_Some' (h0 h : Heap) l o :
  h0 `prefix_of` h -> h0 !! l = Some o -> h !! l = Some o.
Proof. intros [t ->] Hl. by apply lookup_app_l_Some. Qed.

Lemma prefix_insert_new (h0 h : Heap) l o :
  h0 `prefix_of` h -> List.length h0 <= l -> h0 `prefix_of` <[l := o]> h.
Proof.
  intros [t ->] Hl. exists (<[l - List.length h0 := o]> t).
  by rewrite insert_app_r_alt by lia.
Qed.

Lemma prefix_snoc (h0 h : Heap) o :
  h0 `prefix_of` h -> h0 `prefix_of` (h ++ [o]).
Proof. intros [t ->]. exists (t ++ [o]). by rewrite app_assoc. Qed.

Lemma link_object_not_inner v σ : link_object v ≠ inner_object σ.
Proof.
  intros E. apply (f_equal (fun o => properties o !! "entityName")) in E.
  unfold link_object, inner_object, literal in E. simpl in E.
  rewrite !lookup_fmap in E.
  rewrite lookup_insert_eq in E. simpl in E.
  destruct (σ !! "entityName"); simpl in E; congruence.
Qed.

Lemma link_object_not_outer v (ρ : Layout) : link_object v ≠ outer_object ρ.
Proof.
  intros E. apply (f_equal (fun o => properties o !! "entityName")) in E.
  unfold link_object, outer_object, literal in E. simpl in E.
  rewrite !lookup_fmap in E.
  rewrite lookup_insert_eq in E. simpl in E.
  destruct (ρ !! "entityName"); simpl in E; congruence.
Qed.

Lemma index_in_sym h0 h f r ρf ρr :
  index_in h0 h f r ρf ρr -> index_in h0 h r f ρr ρf.
Proof.
  intros [Hp Hf Hr Hfr Hf0 Hr0 Hin Hln If Ir Ifr].
  split; try done.
  - intros l σ [k Hk]. destruct (Hin l σ) as (? & ? & ? & ?); [exists k; tauto|done].
  - intros l σ lab lv v [k Hk] Hlab. apply (Hln l σ lab lv v); [exists k; tauto|done].
  - intros k k' l σ σ' H1 H2. exact (Ifr _ _ _ _ _ H2 H1).
Qed.

Lemma index_in_lt h0 h f r ρf ρr l σ :
  index_in h0 h f r ρf ρr -> placed ρf ρr l σ -> l < List.length h.
Proof.
  intros I Hpl. destruct (index_inner _ _ _ _ _ _ I l σ Hpl) as (Hl & _).
  by apply lookup_lt_Some in Hl.
Qed.

Lemma outer_object_lookup (ρ : Layout) k :
  properties (outer_object ρ) !! k
  = (fun p => DataProperty (VObject (fst p)) true true) <$> ρ !! k.
Proof.
  unfold outer_object, literal. simpl. rewrite !lookup_fmap.
  by destruct (ρ !! k).
Qed.

Lemma inner_object_lookup (σ : gmap string (loc * LinkAttrDef)) k :
  properties (inner_object σ) !! k
  = (fun p => DataProperty (VObject (fst p)) true true) <$> σ !! k.
Proof.
  unfold inner_object, literal. simpl. rewrite !lookup_fmap.
  by destruct (σ !! k).
Qed.

Lemma outer_object_insert (ρ : Layout) k l σ :
  with_property (outer_object ρ) k (DataProperty (VObject l) true true)
  = outer_object (<[k := (l, σ)]> ρ).
Proof.
  unfold with_property, outer_object, literal. simpl. by rewrite !fmap_insert.
Qed.

Lemma inner_object_insert (σ : gmap string (loc * LinkAttrDef)) k l v :
  with_property (inner_object σ) k (DataProperty (VObject l) true true)
  = inner_object (<[k := (l, v)]> σ).
Proof.
  unfold with_property, inner_object, literal. simpl. by rewrite !fmap_insert.
Qed.

Lemma outer_object_update (ρ : Layout) k l σ σ' :
  ρ !! k = Some (l, σ) -> outer_object (<[k := (l, σ')]> ρ) = outer_object ρ.
Proof.
  intros Hk. unfold outer_object. f_equal. rewrite fmap_insert. simpl.
  apply insert_id. by rewrite lookup_fmap, Hk.
Qed.

Lemma inner_object_empty : literal ∅ = inner_object ∅.
Proof. unfold inner_object. by rewrite fmap_empty. Qed.

Lemma layout_maps_lookup (ρ : Layout) k :
  layout_maps ρ !! k = (fun p => snd <$> snd p) <$> ρ !! k.
Proof. unfold layout_maps. by rewrite lookup_fmap. Qed.

Section run.
Variable h0 : Heap.
Variable P : JSObject.
Hypothesis HP : h0 !! Object_prototype = Some P.
Hypothesis HPlast : prototype P = None.

Lemma or_assign_empty_run h f r ρf ρr k :
  index_in h0 h f r ρf ρr ->
  properties P !! k = None ->
  exists h' ρf',
    or_assign_empty f k h = (Normal tt, h') /\
    index_in h0 h' f r ρf' ρr /\
    layout_maps ρf' = map_or_assign_empty k (layout_maps ρf).
Proof.
  intros I Hk.
  pose proof (prefix_lookup_Some' _ _ _ _ (index_prefix _ _ _ _ _ _ I) HP) as HPh.
  unfold or_assign_empty.
  destruct (ρf !! k) as [[l σ]|] eqn:Ek.
  - exists h, ρf. split; [|split; [done|]].
    + unfold js_bind, Get.
      rewrite (find_property_own h f (outer_object ρf) k
                 (DataProperty (VObject l) true true)).
      * done.
      * apply I.
      * by rewrite outer_object_lookup, Ek.
    + unfold map_or_assign_empty. by rewrite layout_maps_lookup, Ek.
  - set (n := List.length h).
    set (h1 := h ++ [literal ∅]).
    assert (Hf : h !! f = Some (outer_object ρf)) by apply I.
    assert (Hr : h !! r = Some (outer_object ρr)) by apply I.
    assert (Hown : properties (outer_object ρf) !! k = None)
      by (by rewrite outer_object_lookup, Ek).
    assert (Hf1 : h1 !! f = Some (outer_object ρf)) by (by apply lookup_app_l_Some).
    assert (HP1 : h1 !! Object_prototype = Some P) by (by apply lookup_app_l_Some).
    assert (Hfn : f < n) by (by apply lookup_lt_Some in Hf).
    assert (Hrn : r < n) by (by apply lookup_lt_Some in Hr).
    exists (<[f := outer_object (<[k := (n, ∅)]> ρf)]> h1), (<[k := (n, ∅)]> ρf).
    split; [|split].
    + unfold js_bind, Get.
      rewrite (find_property_literal h f _ P k Hf Hown eq_refl HPh HPlast), Hk.
      simpl. unfold js_alloc. fold n. fold h1. unfold PutValue.
      rewrite (find_property_literal h1 f _ P k Hf1 Hown eq_refl HP1 HPlast), Hk.
      rewrite Hf1, Hown. simpl.
      by rewrite (outer_object_insert ρf k n ∅).
    + destruct I as [Hp _ _ Hfr Hf0 Hr0 Hin Hln If Ir Ifr].
      assert (Hold : forall l σ, placed ρf ρr l σ -> l < n).
      { intros l σ Hpl. destruct (Hin l σ Hpl) as (Hl & _).
        by apply lookup_lt_Some in Hl. }
      assert (Hkeep : forall l o, l ≠ f -> h !! l = Some o ->
                 <[f := outer_object (<[k := (n, ∅)]> ρf)]> h1 !! l = Some o).
      { intros l o Hne Hl. rewrite list_lookup_insert_ne by done.
        by apply lookup_app_l_Some. }
      assert (Hplaced : forall l σ, placed (<[k := (n, ∅)]> ρf) ρr l σ ->
                 (l = n /\ σ = ∅) \/ placed ρf ρr l σ).
      { intros l σ [k' [Hk'|Hk']].
        - destruct (decide (k' = k)) as [->|Hne].
          + rewrite lookup_insert_eq in Hk'. left. by inversion Hk'.
          + rewrite lookup_insert_ne in Hk' by done. right. exists k'. by left.
        - right. exists k'. by right. }
      split.
      * apply prefix_insert_new; [|done]. by apply prefix_snoc.
      * apply list_lookup_insert_eq. unfold h1. rewrite length_app. simpl. lia.
      * by apply Hkeep.
      * done.
      * done.
      * done.
      * intros l σ Hpl. destruct (Hplaced l σ Hpl) as [[-> ->]|Hpl'].
        -- split; [|split; [|split]].
           ++ rewrite list_lookup_insert_ne by lia.
              unfold h1. rewrite lookup_app_r by (fold n; lia). fold n.
              rewrite Nat.sub_diag. simpl. by rewrite inner_object_empty.
           ++ apply lookup_lt_Some in Hf. fold n in Hf. lia.
           ++ lia.
           ++ lia.
        -- destruct (Hin l σ Hpl') as (Hl & ? & ? & ?).
           split; [|done]. by apply Hkeep.
      * intros l σ lab lv v Hpl Hlab.
        destruct (Hplaced l σ Hpl) as [[-> ->]|Hpl']; [done|].
        pose proof (Hln l σ lab lv v Hpl' Hlab) as Hlv.
        apply Hkeep; [|done]. intros ->.
        apply (link_object_not_outer v ρf). congruence.
      * intros k1 k2 l σ σ' H1 H2.
        destruct (decide (k1 = k)) as [->|N1], (decide (k2 = k)) as [->|N2]; [done|..].
        -- rewrite lookup_insert_eq in H1. rewrite lookup_insert_ne in H2 by done.
           inversion H1; subst. assert (n < n); [|lia].
           apply (Hold n σ'). exists k2. by left.
        -- rewrite lookup_insert_eq in H2. rewrite lookup_insert_ne in H1 by done.
           inversion H2; subst. assert (n < n); [|lia].
           apply (Hold n σ). exists k1. by left.
        -- rewrite lookup_insert_ne in H1, H2 by done. eauto.
      * done.
      * intros k1 k2 l σ σ' H1 H2.
        destruct (decide (k1 = k)) as [->|N1].
        -- rewrite lookup_insert_eq in H1. inversion H1; subst.
           assert (n < n); [|lia]. apply (Hold n σ'). exists k2. by right.
        -- rewrite lookup_insert_ne in H1 by done. eauto.
    + unfold map_or_assign_empty. rewrite layout_maps_lookup, Ek. simpl.
      unfold layout_maps. rewrite fmap_insert. simpl. by rewrite fmap_empty.
Qed.

Lemma set_nested_run h f r ρf ρr k lab v :
  index_in h0 h f r ρf ρr ->
  is_Some (ρf !! k) ->
  (properties P !! lab = None \/
   exists u e, properties P !! lab = Some (DataProperty u true e)) ->
  exists h' ρf',
    set_nested f k lab v h = (Normal tt, h') /\
    index_in h0 h' f r ρf' ρr /\
    layout_maps ρf' = map_set_nested k lab v (layout_maps ρf).
Proof.
  intros I [[l σ] Ek] Hlab.
  pose proof (prefix_lookup_Some' _ _ _ _ (index_prefix _ _ _ _ _ _ I) HP) as HPh.
  assert (Hf : h !! f = Some (outer_object ρf)) by apply I.
  assert (Hr : h !! r = Some (outer_object ρr)) by apply I.
  assert (Hpl : placed ρf ρr l σ) by (exists k; by left).
  destruct (index_inner _ _ _ _ _ _ I l σ Hpl) as (Hl & Hl0 & Hlf & Hlr).
  set (n := List.length h).
  set (h1 := h ++ [link_object v]).
  set (σ' := <[lab := (n, v)]> σ).
  assert (Hln : l < n) by (by apply lookup_lt_Some in Hl).
  assert (Hl1 : h1 !! l = Some (inner_object σ)) by (by apply lookup_app_l_Some).
  assert (HP1 : h1 !! Object_prototype = Some P) by (by apply lookup_app_l_Some).
  exists (<[l := inner_object σ']> h1), (<[k := (l, σ')]> ρf).
  split; [|split].
  - unfold set_nested, js_bind, Get.
    rewrite (find_property_own h f (outer_object ρf) k
               (DataProperty (VObject l) true true) Hf)
      by (by rewrite outer_object_lookup, Ek).
    unfold js_alloc. fold n. fold h1. unfold PutValue.
    assert (Hins : with_property (inner_object σ) lab (DataProperty (VObject n) true true)
                   = inner_object σ') by apply inner_object_insert.
    destruct (σ !! lab) as [[lv' v']|] eqn:Eσ.
    + assert (Hown : properties (inner_object σ) !! lab
                     = Some (DataProperty (VObject lv') true true))
        by (by rewrite inner_object_lookup, Eσ).
      rewrite (find_property_own h1 l _ lab _ Hl1 Hown).
      rewrite Hl1, Hown. by rewrite Hins.
    + assert (Hown : properties (inner_object σ) !! lab = None)
        by (by rewrite inner_object_lookup, Eσ).
      rewrite (find_property_literal h1 l _ P lab Hl1 Hown eq_refl HP1 HPlast).
      destruct Hlab as [->|(u & e & ->)]; rewrite Hl1, Hown; simpl; by rewrite Hins.
  - destruct I as [Hp _ _ Hfr Hf0 Hr0 Hin Hlnk If Ir Ifr].
    assert (Hkeep : forall l' o, l' ≠ l -> h !! l' = Some o ->
               <[l := inner_object σ']> h1 !! l' = Some o).
    { intros l' o Hne Hl'. rewrite list_lookup_insert_ne by done.
      by apply lookup_app_l_Some. }
    assert (Hplaced : forall l' τ, placed (<[k := (l, σ')]> ρf) ρr l' τ ->
               (l' = l /\ τ = σ') \/ (l' ≠ l /\ placed ρf ρr l' τ)).
    { intros l' τ [k' [Hk'|Hk']].
      - destruct (decide (k' = k)) as [->|Hne].
        + rewrite lookup_insert_eq in Hk'. left. by inversion Hk'.
        + rewrite lookup_insert_ne in Hk' by done. right. split.
          * intros ->. apply Hne. by apply (If k' k l τ σ).
          * exists k'. by left.
      - right. split.
        + intros ->. exact (Ifr k k' l σ τ Ek Hk').
        + exists k'. by right. }
    assert (Hσ' : forall lab' lv v0, σ' !! lab' = Some (lv, v0) ->
               (lv = n /\ v0 = v) \/ σ !! lab' = Some (lv, v0)).
    { intros lab' lv v0. unfold σ'. destruct (decide (lab' = lab)) as [->|Hne].
      - rewrite lookup_insert_eq. intros E. left. by inversion E.
      - rewrite lookup_insert_ne by done. by right. }
    assert (Hnew : <[l := inner_object σ']> h1 !! n = Some (link_object v)).
    { rewrite list_lookup_insert_ne by lia. unfold h1.
      rewrite lookup_app_r by (fold n; lia). fold n. by rewrite Nat.sub_diag. }
    assert (Hlink_keep : forall l' τ lab' lv v0, placed ρf ρr l' τ ->
               τ !! lab' = Some (lv, v0) ->
               <[l := inner_object σ']> h1 !! lv = Some (link_object v0)).
    { intros l' τ lab' lv v0 Hpl' Hτ.
      pose proof (Hlnk l' τ lab' lv v0 Hpl' Hτ) as Hlv.
      apply Hkeep; [|done]. intros ->.
      apply (link_object_not_inner v0 σ). congruence. }
    assert (Hback : forall k' l' τ, <[k := (l, σ')]> ρf !! k' = Some (l', τ) ->
               exists τ', ρf !! k' = Some (l', τ')).
    { intros k' l' τ. destruct (decide (k' = k)) as [->|Hne].
      - rewrite lookup_insert_eq. intros E. inversion E; subst. eauto.
      - rewrite lookup_insert_ne by done. eauto. }
    split.
    + apply prefix_insert_new; [|done]. by apply prefix_snoc.
    + rewrite (outer_object_update ρf k l σ σ' Ek). by apply Hkeep.
    + by apply Hkeep.
    + done.
    + done.
    + done.
    + intros l' τ Hpl'. destruct (Hplaced l' τ Hpl') as [[-> ->]|[Hne Hpl'']].
      * split; [|done]. apply list_lookup_insert_eq.
        unfold h1. rewrite length_app. fold n. lia.
      * destruct (Hin l' τ Hpl'') as (Hl' & ? & ? & ?).
        split; [|done]. by apply Hkeep.
    + intros l' τ lab' lv v0 Hpl' Hτ.
      destruct (Hplaced l' τ Hpl') as [[-> ->]|[Hne Hpl'']].
      * destruct (Hσ' lab' lv v0 Hτ) as [[-> ->]|Hold]; [done|].
        by apply (Hlink_keep l σ lab').
      * by apply (Hlink_keep l' τ lab').
    + intros k1 k2 l' τ1 τ2 H1 H2.
      destruct (Hback _ _ _ H1) as [τ1' H1'].
      destruct (Hback _ _ _ H2) as [τ2' H2']. eauto.
    + done.
    + intros k1 k2 l' τ1 τ2 H1 H2.
      destruct (Hback _ _ _ H1) as [τ1' H1']. eauto.
  - unfold map_set_nested. apply map_eq. intros k'.
    destruct (decide (k' = k)) as [->|Hne].
    + rewrite lookup_alter_eq, !layout_maps_lookup, lookup_insert_eq, Ek.
      simpl. unfold σ'. by rewrite fmap_insert.
    + rewrite lookup_alter_ne by done.
      by rewrite !layout_maps_lookup, lookup_insert_ne.
Qed.

End run.

Lemma map_or_assign_empty_is_Some {A} k (m : gmap string (gmap string A)) :
  is_Some (map_or_assign_empty k m !! k).
Proof.
  unfold map_or_assign_empty. destruct (m !! k) eqn:E.
  - by rewrite E.
  - by rewrite lookup_insert_eq.
Qed.

Lemma layout_maps_is_Some (ρ : Layout) k :
  is_Some (layout_maps ρ !! k) -> is_Some (ρ !! k).
Proof.
  rewrite layout_maps_lookup.
  intros [x Hx]. destruct (ρ !! k); [by eexists|]. simpl in Hx. discriminate.
Qed.

Lemma map_set_nested_is_Some {A} k k' l (v : A) (m : gmap string (gmap string A)) :
  is_Some (m !! k') -> is_Some (map_set_nested k l v m !! k').
Proof.
  unfold map_set_nested. destruct (decide (k = k')) as [->|Hne].
  - rewrite lookup_alter_eq. intros [x ->]. by eexists.
  - by rewrite lookup_alter_ne.
Qed.

Lemma assignable_spec (h : Heap) P lab :
  h !! Object_prototype = Some P ->
  assignable h lab = true ->
  properties P !! lab = None \/
  exists u e, properties P !! lab = Some (DataProperty u true e).
Proof.
  intros HP. unfold assignable. rewrite HP.
  destruct (properties P !! lab) as [[u w e|a]|]; [|discriminate|by left].
  destruct w; [|discriminate]. right. by exists u, e.
Qed.

Lemma not_inherited_at (h : Heap) P k :
  h !! Object_prototype = Some P ->
  not_inherited h k = true -> properties P !! k = None.
Proof.
  intros HP. unfold not_inherited. rewrite HP. apply bool_decide_eq_true.
Qed.

Section loop.
Variable h0 : Heap.
Variable P : JSObject.
Hypothesis HP : h0 !! Object_prototype = Some P.
Hypothesis HPlast : prototype P = None.

Lemma index_step_run h f r ρf ρr d :
  index_in h0 h f r ρf ρr ->
  link_names_plain h0 d = true ->
  exists h' ρf' ρr',
    index_step {| fwd_object := f; rev_object := r |} d h = (Normal tt, h') /\
    index_in h0 h' f r ρf' ρr' /\
    {| fwd := layout_maps ρf'; rev := layout_maps ρr' |}
    = map_index_step {| fwd := layout_maps ρf; rev := layout_maps ρr |} d.
Proof.
  intros I Hd. unfold link_names_plain in Hd.
  apply andb_prop in Hd as [Hd Hlr]. apply andb_prop in Hd as [Hd Hlf].
  apply andb_prop in Hd as [Hof Hor].
  apply (not_inherited_at _ _ _ HP) in Hof, Hor.
  apply (assignable_spec _ _ _ HP) in Hlf, Hlr.
  destruct (or_assign_empty_run h0 P HP HPlast h f r ρf ρr _ I Hof)
    as (h1 & ρf1 & E1 & I1 & M1).
  destruct (or_assign_empty_run h0 P HP HPlast h1 r f ρr ρf1 _ (index_in_sym _ _ _ _ _ _ I1) Hor)
    as (h2 & ρr2 & E2 & I2 & M2).
  apply index_in_sym in I2.
  assert (S1 : is_Some (ρf1 !! on (forward d))).
  { apply layout_maps_is_Some. rewrite M1. apply map_or_assign_empty_is_Some. }
  assert (S2 : is_Some (ρr2 !! on (reverse d))).
  { apply layout_maps_is_Some. rewrite M2. apply map_or_assign_empty_is_Some. }
  destruct (set_nested_run h0 P HP HPlast h2 f r ρf1 ρr2 _ (label (forward d))
              {| entityName := on (reverse d); cardinality := has (forward d) |}
              I2 S1 Hlf)
    as (h3 & ρf3 & E3 & I3 & M3).
  destruct (set_nested_run h0 P HP HPlast h3 r f ρr2 ρf3 _ (label (reverse d))
              {| entityName := on (forward d); cardinality := has (reverse d) |}
              (index_in_sym _ _ _ _ _ _ I3) S2 Hlr)
    as (h4 & ρr4 & E4 & I4 & M4).
  apply index_in_sym in I4.
  exists h4, ρf3, ρr4. split; [|split; [done|]].
  - unfold index_step. simpl.
    rewrite (js_bind_normal _ _ _ _ _ E1).
    rewrite (js_bind_normal _ _ _ _ _ E2).
    rewrite (js_bind_normal _ _ _ _ _ E3).
    exact E4.
  - unfold map_index_step. simpl. by rewrite M4, M3, M2, M1.
Qed.

Lemma js_for_index_step_run ds : forall h f r ρf ρr,
  index_in h0 h f r ρf ρr ->
  forallb (link_names_plain h0) ds = true ->
  exists h' ρf' ρr',
    js_for ds (index_step {| fwd_object := f; rev_object := r |}) h = (Normal tt, h') /\
    index_in h0 h' f r ρf' ρr' /\
    {| fwd := layout_maps ρf'; rev := layout_maps ρr' |}
    = fold_left map_index_step ds {| fwd := layout_maps ρf; rev := layout_maps ρr |}.
Proof.
  induction ds as [|d ds IH]; intros h f r ρf ρr I Hds.
  - exists h, ρf, ρr. split; [done|]. split; done.
  - simpl in Hds. apply andb_prop in Hds as [Hd Hds].
    destruct (index_step_run h f r ρf ρr d I Hd) as (h1 & ρf1 & ρr1 & E1 & I1 & M1).
    destruct (IH h1 f r ρf1 ρr1 I1 Hds) as (h2 & ρf2 & ρr2 & E2 & I2 & M2).
    exists h2, ρf2, ρr2. split; [|split; [done|]].
    + simpl. by rewrite (js_bind_normal _ _ _ _ _ E1).
    + simpl. by rewrite <- M1.
Qed.

End loop.

Lemma read_all_spec {A B} (f : A -> option B) (m : gmap string A) (m' : gmap string B) :
  read_all f m = Some m' <-> forall i, m !! i ≫= f = m' !! i /\
                                       (is_Some (m !! i) -> is_Some (m' !! i)).
Proof.
  unfold read_all. split.
  - destruct (decide _) as [Hall|]; [|done]. intros E. inversion E; subst. clear E.
    intros i. rewrite lookup_omap. split; [done|].
    intros [a Ha]. rewrite Ha. simpl. exact (Hall i a Ha).
  - intros Hp. destruct (decide _) as [Hall|Hn].
    + f_equal. apply map_eq. intros i. rewrite lookup_omap. apply Hp.
    + exfalso. apply Hn. intros i a Ha.
      destruct (Hp i) as [E S]. rewrite Ha in E. simpl in E. rewrite E.
      apply S. by rewrite Ha.
Qed.

Lemma read_all_insert {A B} (f : A -> option B) (m : gmap string A) m' k a b :
  read_all f m = Some m' -> f a = Some b ->
  read_all f (<[k := a]> m) = Some (<[k := b]> m').
Proof.
  rewrite !read_all_spec. intros Hp Hf i.
  destruct (decide (i = k)) as [->|Hne].
  - rewrite !lookup_insert_eq. simpl. split; [done|]. intros _. by eexists.
  - rewrite !lookup_insert_ne by done. apply Hp.
Qed.

Lemma read_all_empty {A B} (f : A -> option B) : read_all f ∅ = Some ∅.
Proof. rewrite read_all_spec. intros i. by rewrite !lookup_empty. Qed.

Lemma cardinality_of_string_string c :
  cardinality_of_string (cardinality_string c) = Some c.
Proof. by destruct c. Qed.

Lemma link_object_entityName v :
  properties (link_object v) !! "entityName"
  = Some (DataProperty (VString (entityName v)) true true).
Proof. reflexivity. Qed.

Lemma link_object_cardinality v :
  properties (link_object v) !! "cardinality"
  = Some (DataProperty (VString (cardinality_string (cardinality v))) true true).
Proof. reflexivity. Qed.

Lemma read_LinkAttrDef_link_object (h : Heap) lv v :
  h !! lv = Some (link_object v) -> read_LinkAttrDef h (VObject lv) = Some v.
Proof.
  intros Hl. unfold read_LinkAttrDef. rewrite Hl. cbn [mbind option_bind].
  rewrite link_object_entityName, link_object_cardinality.
  rewrite cardinality_of_string_string. cbn [mbind option_bind].
  destruct v as [e c]. cbn [entityName cardinality]. by rewrite decide_True.
Qed.

Lemma spread_inner (h : Heap) l σ into :
  h !! l = Some (inner_object σ) ->
  spread (VObject l) into h
  = (Normal (((fun q : loc * LinkAttrDef => VObject (fst q)) <$> σ) ∪ into), h).
Proof.
  intros Hl. unfold spread. rewrite Hl. do 2 f_equal. f_equal.
  apply map_eq. intros i. rewrite lookup_omap.
  rewrite inner_object_lookup, lookup_fmap. by destruct (σ !! i).
Qed.

Section enrich.
Variable h0 : Heap.
Variable P : JSObject.
Hypothesis HP : h0 !! Object_prototype = Some P.
Hypothesis HPlast : prototype P = None.

Lemma Get_spread_run h f r ρf ρr name into :
  index_in h0 h f r ρf ρr ->
  properties P !! name = None ->
  js_bind (Get f name) (fun a => spread a into) h
  = (Normal (layout_values ρf name ∪ into), h).
Proof.
  intros I Hname.
  pose proof (prefix_lookup_Some' _ _ _ _ (index_prefix _ _ _ _ _ _ I) HP) as HPh.
  assert (Hf : h !! f = Some (outer_object ρf)) by apply I.
  unfold layout_values, js_bind, Get.
  destruct (ρf !! name) as [[l σ]|] eqn:E.
  - rewrite (find_property_own h f (outer_object ρf) name
               (DataProperty (VObject l) true true) Hf)
      by (by rewrite outer_object_lookup, E).
    apply spread_inner.
    apply (index_inner _ _ _ _ _ _ I). exists name. by left.
  - rewrite (find_property_literal h f _ P name Hf) by
        (done || by rewrite outer_object_lookup, E).
    rewrite Hname. simpl. unfold js_ret. by rewrite (left_id ∅ (∪)).
Qed.

Lemma enrich_entry_run h f r ρf ρr entry :
  index_in h0 h f r ρf ρr ->
  properties P !! fst entry = None ->
  enrich_entry {| fwd_object := f; rev_object := r |} entry h
  = (Normal (fst entry,
             {| enriched_attrs := attrs (snd entry);
                enriched_links := layout_values ρr (fst entry)
                                  ∪ (layout_values ρf (fst entry) ∪ ∅) |}), h).
Proof.
  intros I Hname. unfold enrich_entry. simpl.
  pose proof (Get_spread_run h f r ρf ρr (fst entry) ∅ I Hname) as E1.
  pose proof (Get_spread_run h r f ρr ρf (fst entry)
                (layout_values ρf (fst entry) ∪ ∅)
                (index_in_sym _ _ _ _ _ _ I) Hname) as E2.
  unfold js_bind in *.
  destruct (Get f entry.1 h) as [[a| |] ha]; try discriminate.
  destruct (spread a ∅ ha) as [[l1| |] h1] eqn:S1; try discriminate.
  inversion E1; subst. clear E1.
  destruct (Get r entry.1 h) as [[b| |] hb]; try discriminate.
  destruct (spread b _ hb) as [[l2| |] h2] eqn:S2; try discriminate.
  by inversion E2; subst.
Qed.

Lemma layout_values_read h f r ρf ρr name :
  index_in h0 h f r ρf ρr ->
  read_all (read_LinkAttrDef h)
    (layout_values ρr name ∪ (layout_values ρf name ∪ ∅))
  = Some (spread2 (layout_maps ρf !! name) (layout_maps ρr !! name)).
Proof.
  intros I. rewrite (right_id ∅ (∪)). apply read_all_spec. intros i.
  unfold spread2. rewrite !lookup_union, !layout_maps_lookup.
  unfold layout_values.
  assert (Hside : forall (ρ : Layout) (σ : gmap string (loc * LinkAttrDef)) l lv v,
            placed ρf ρr l σ -> σ !! i = Some (lv, v) ->
            read_LinkAttrDef h (VObject lv) = Some v).
  { intros ρ σ l lv v Hpl Hi. apply read_LinkAttrDef_link_object.
    by apply (index_link _ _ _ _ _ _ I l σ i). }
  destruct (ρr !! name) as [[lr σr]|] eqn:Er; simpl.
  - rewrite !lookup_fmap.
    destruct (σr !! i) as [[lv v]|] eqn:Ei; simpl.
    + assert (Hr : read_LinkAttrDef h (VObject lv) = Some v).
      { apply (Hside ρr σr lr); [exists name; by right|done]. }
      destruct (ρf !! name) as [[lf σf]|] eqn:Ef; simpl.
      * rewrite !lookup_fmap. destruct (σf !! i) as [[lv' v']|]; simpl;
          (split; [done|by eexists]).
      * rewrite !lookup_empty. simpl. split; [done|by eexists].
    + destruct (ρf !! name) as [[lf σf]|] eqn:Ef; simpl.
      * rewrite !lookup_fmap. destruct (σf !! i) as [[lv' v']|] eqn:Ei'; simpl.
        -- split; [|by eexists].
           apply (Hside ρf σf lf); [exists name; by left|done].
        -- split; [done|]. by intros [? ?].
      * rewrite !lookup_empty. simpl. split; [done|]. by intros [? ?].
  - rewrite !lookup_empty. simpl.
    destruct (ρf !! name) as [[lf σf]|] eqn:Ef; simpl.
    + rewrite !lookup_fmap. destruct (σf !! i) as [[lv' v']|] eqn:Ei'; simpl.
      * split; [|by eexists].
        apply (Hside ρf σf lf); [exists name; by left|done].
      * split; [done|]. by intros [? ?].
    + rewrite !lookup_empty. simpl. split; [done|]. by intros [? ?].
Qed.

End enrich.

Lemma holds_builtin_run (h0 h : Heap) name c :
  holds_builtin h0 name c = true ->
  h0 `prefix_of` h ->
  exists v, Get Object_constructor name h = (Normal v, h) /\
            call_builtin c v h = (Normal tt, h).
Proof.
  unfold holds_builtin. intros Hb Hp.
  destruct (h0 !! Object_constructor) as [o|] eqn:Ho; [|done].
  destruct (properties o !! name) as [[[| | | |l] w e|]|] eqn:Hn; try done.
  apply bool_decide_eq_true in Hb.
  exists (VObject l). split.
  - unfold Get.
    by rewrite (find_property_own h Object_constructor o name _
                  (prefix_lookup_Some' _ _ _ _ Hp Ho) Hn).
  - unfold call_builtin.
    destruct (h0 !! l) as [fo|] eqn:Hl; [|done].
    rewrite (prefix_lookup_Some' _ _ _ _ Hp Hl). simpl in *.
    inversion Hb; subst. by rewrite decide_True.
Qed.

Lemma outer_object_empty : literal ∅ = outer_object ∅.
Proof. unfold outer_object. by rewrite fmap_empty. Qed.

Lemma index_in_initial (h0 : Heap) :
  index_in h0 (h0 ++ [literal ∅] ++ [literal ∅])
    (List.length h0) (S (List.length h0)) ∅ ∅.
Proof.
  split.
  - by exists ([literal ∅] ++ [literal ∅]).
  - rewrite lookup_app_r by lia. rewrite Nat.sub_diag. simpl.
    by rewrite outer_object_empty.
  - rewrite lookup_app_r by lia.
    replace (S (List.length h0) - List.length h0) with 1 by lia. simpl.
    by rewrite outer_object_empty.
  - lia.
  - lia.
  - lia.
  - intros l σ [k [Hk|Hk]]; by rewrite lookup_empty in Hk.
  - intros l σ lab lv v [k [Hk|Hk]]; by rewrite lookup_empty in Hk.
  - intros k k' l σ σ' Hk. by rewrite lookup_empty in Hk.
  - intros k k' l σ σ' Hk. by rewrite lookup_empty in Hk.
  - intros k k' l σ σ' Hk. by rewrite lookup_empty in Hk.
Qed.

Lemma linksIndex_run (h0 : Heap) (lnks : LinksDef) :
  plain_links h0 lnks = true ->
  exists h f r ρf ρr,
    linksIndex lnks h0 = (Normal {| fwd_object := f; rev_object := r |}, h) /\
    index_in h0 h f r ρf ρr /\
    {| fwd := layout_maps ρf; rev := layout_maps ρr |} = map_linksIndex lnks.
Proof.
  unfold plain_links. intros Hpl.
  apply andb_prop in Hpl as [Hpl Hlinks]. apply andb_prop in Hpl as [Hlast Hvalues].
  destruct (Object_prototype_last_spec _ Hlast) as (P & HP & HPlast).
  pose proof (index_in_initial h0) as I0.
  destruct (holds_builtin_run h0 _ _ _ Hvalues (index_prefix _ _ _ _ _ _ I0))
    as (v & Ev & Ec).
  destruct (js_for_index_step_run h0 P HP HPlast (Object_values lnks) _ _ _ _ _ I0 Hlinks)
    as (h & ρf & ρr & E & I & M).
  exists h, (List.length h0), (S (List.length h0)), ρf, ρr.
  split; [|split; [done|]].
  - unfold linksIndex, js_bind at 1, js_alloc.
    unfold js_bind at 1.
    replace (List.length (h0 ++ [literal ∅])) with (S (List.length h0))
      by (rewrite length_app; simpl; lia).
    rewrite <- app_assoc.
    rewrite (js_bind_normal _ _ _ _ _ Ev).
    rewrite (js_bind_normal _ _ _ _ _ Ec).
    rewrite (js_bind_normal _ _ _ _ _ E). done.
  - rewrite M. unfold map_linksIndex. unfold layout_maps. by rewrite !fmap_empty.
Qed.

Lemma js_mapM_enrich_run (h0 : Heap) P h f r ρf ρr (es : list (string * EntityDef)) :
  h0 !! Object_prototype = Some P ->
  prototype P = None ->
  index_in h0 h f r ρf ρr ->
  forallb (not_inherited h0) (fst <$> es) = true ->
  js_mapM (enrich_entry {| fwd_object := f; rev_object := r |}) es h
  = (Normal ((fun entry =>
               (fst entry,
                {| enriched_attrs := attrs (snd entry);
                   enriched_links := layout_values ρr (fst entry)
                                     ∪ (layout_values ρf (fst entry) ∪ ∅) |}))
             <$> es), h).
Proof.
  intros HP HPlast I. induction es as [|entry es IH]; intros Hes; [done|].
  simpl in Hes. apply andb_prop in Hes as [Hn Hes].
  simpl. rewrite (js_bind_normal _ _ _ _ _
                    (enrich_entry_run h0 P HP HPlast h f r ρf ρr entry I
                       (not_inherited_at _ _ _ HP Hn))).
  by rewrite (js_bind_normal _ _ _ _ _ (IH Hes)).
Qed.

Lemma read_entities_run (h0 : Heap) h f r ρf ρr (es : list (string * EntityDef)) :
  index_in h0 h f r ρf ρr ->
  read_all (read_entity h)
    (Object_fromEntries
       ((fun entry =>
          (fst entry,
           {| enriched_attrs := attrs (snd entry);
              enriched_links := layout_values ρr (fst entry)
                                ∪ (layout_values ρf (fst entry) ∪ ∅) |}))
        <$> es))
  = Some (Object_fromEntries
            (map_enrich_entry {| fwd := layout_maps ρf; rev := layout_maps ρr |} <$> es)).
Proof.
  intros I. unfold Object_fromEntries.
  induction es as [|[name def] es IH]; simpl.
  - apply read_all_empty.
  - apply read_all_insert; [exact IH|].
    unfold read_entity. simpl.
    by rewrite (layout_values_read h0 h f r ρf ρr name I).
Qed.

Lemma enrichEntitiesWithLinks_run (h0 : Heap) entities (lnks : LinksDef) :
  plain_names h0 entities lnks = true ->
  exists es h,
    enrichEntitiesWithLinks entities lnks h0 = (Normal es, h) /\
    h0 `prefix_of` h /\
    read_all (read_entity h) es = Some (map_enrichEntitiesWithLinks entities lnks).
Proof.
  unfold plain_names. intros Hpl.
  apply andb_prop in Hpl as [Hpl Hents]. apply andb_prop in Hpl as [Hpl HfromEntries].
  apply andb_prop in Hpl as [Hlinks Hentries].
  destruct (linksIndex_run h0 lnks Hlinks)
    as (h & f & r & ρf & ρr & E & I & M).
  assert (Hlast : Object_prototype_last h0 = true).
  { unfold plain_links in Hlinks. apply andb_prop in Hlinks as [Hl _].
    by apply andb_prop in Hl as [Hl _]. }
  destruct (Object_prototype_last_spec _ Hlast) as (P & HP & HPlast).
  pose proof (index_prefix _ _ _ _ _ _ I) as Hp.
  destruct (holds_builtin_run h0 h _ _ HfromEntries Hp) as (v1 & Ev1 & Ec1).
  destruct (holds_builtin_run h0 h _ _ Hentries Hp) as (v2 & Ev2 & Ec2).
  eexists _, h. split; [|split; [done|]].
  - unfold enrichEntitiesWithLinks.
    rewrite (js_bind_normal _ _ _ _ _ E).
    rewrite (js_bind_normal _ _ _ _ _ Ev1).
    rewrite (js_bind_normal _ _ _ _ _ Ev2).
    rewrite (js_bind_normal _ _ _ _ _ Ec2).
    rewrite (js_bind_normal _ _ _ _ _
               (js_mapM_enrich_run h0 P h f r ρf ρr _ HP HPlast I Hents)).
    rewrite (js_bind_normal _ _ _ _ _ Ec1).
    reflexivity.
  - rewrite (read_entities_run h0 h f r ρf ρr (Object_entries entities) I).
    unfold map_enrichEntitiesWithLinks. by rewrite M.
Qed.

(** With plain names the call returns, the heap it was made in is
    untouched, and the graph reads as the one computed on maps. *)
Lemma graph_run (h0 : Heap) appId entities (lnks : LinksDef) :
  plain_names h0 entities lnks = true ->
  exists g h,
    graph appId entities lnks h0 = (Normal g, h) /\
    h0 `prefix_of` h /\
    read_graph h g = Some (map_graph appId entities lnks).
Proof.
  intros Hpl.
  destruct (enrichEntitiesWithLinks_run h0 entities lnks Hpl) as (es & h & E & Hp & R).
  eexists _, h. split; [|split; [done|]].
  - unfold graph. rewrite (js_bind_normal _ _ _ _ _ E). reflexivity.
  - unfold read_graph. simpl. rewrite R. reflexivity.
Qed.

Lemma own_enumerable_inner σ :
  own_enumerable (inner_object σ)
  = (fun q : loc * LinkAttrDef => VObject (fst q)) <$> σ.
Proof.
  apply map_eq. intros i. unfold own_enumerable. rewrite lookup_omap.
  rewrite inner_object_lookup, lookup_fmap. by destruct (σ !! i).
Qed.

Lemma own_enumerable_outer (ρ : Layout) :
  own_enumerable (outer_object ρ)
  = (fun p : loc * gmap string (loc * LinkAttrDef) => VObject (fst p)) <$> ρ.
Proof.
  apply map_eq. intros i. unfold own_enumerable. rewrite lookup_omap.
  rewrite outer_object_lookup, lookup_fmap. by destruct (ρ !! i).
Qed.

Lemma read_direction_index_in h0 h f r ρf ρr :
  index_in h0 h f r ρf ρr ->
  read_direction h f = Some (layout_maps ρf).
Proof.
  intros I. unfold read_direction.
  rewrite (index_fwd _ _ _ _ _ _ I). cbn [mbind option_bind].
  rewrite own_enumerable_outer. apply read_all_spec. intros k.
  rewrite lookup_fmap, layout_maps_lookup.
  destruct (ρf !! k) as [[l σ]|] eqn:Ek; simpl; [|split; [done|by intros [? ?]]].
  assert (Hpl : placed ρf ρr l σ) by (exists k; by left).
  destruct (index_inner _ _ _ _ _ _ I l σ Hpl) as (Hl & _).
  rewrite Hl. cbn [mbind option_bind]. split; [|by eexists].
  rewrite own_enumerable_inner. apply read_all_spec. intros lab.
  rewrite !lookup_fmap.
  destruct (σ !! lab) as [[lv v]|] eqn:El; simpl; [|split; [done|by intros [? ?]]].
  split; [|by eexists].
  apply read_LinkAttrDef_link_object.
  by apply (index_link _ _ _ _ _ _ I l σ lab).
Qed.

Lemma read_index_index_in h0 h f r ρf ρr :
  index_in h0 h f r ρf ρr ->
  read_index h {| fwd_object := f; rev_object := r |}
  = Some {| fwd := layout_maps ρf; rev := layout_maps ρr |}.
Proof.
  intros I. unfold read_index. simpl.
  rewrite (read_direction_index_in h0 h f r ρf ρr I).
  by rewrite (read_direction_index_in h0 h r f ρr ρf (index_in_sym _ _ _ _ _ _ I)).
Qed.

(** With plain names the loop ends, the heap it ran in is untouched, and
    the index reads as the one computed on maps. *)
Lemma linksIndex_plain (h : Heap) (lnks : LinksDef) :
  plain_links h lnks = true ->
  linksIndex_returns h lnks (map_linksIndex lnks).
Proof.
  intros Hpl.
  destruct (linksIndex_run h lnks Hpl) as (h' & f & r & ρf & ρr & E & I & M).
  exists {| fwd_object := f; rev_object := r |}, h'.
  split; [done|]. split; [apply I|].
  by rewrite (read_index_index_in h h' f r ρf ρr I), M.
Qed.

Lemma graph_plain (h : Heap) appId entities (lnks : LinksDef) :
  plain_names h entities lnks = true ->
  graph_returns h appId entities lnks (map_graph appId entities lnks).
Proof. intros Hpl. exact (graph_run h appId entities lnks Hpl). Qed.

Lemma graph_returns_fun h appId entities (lnks : LinksDef) g1 g2 :
  graph_returns h appId entities lnks g1 ->
  graph_returns h appId entities lnks g2 -> g1 = g2.
Proof.
  intros (o1 & h1 & E1 & _ & R1) (o2 & h2 & E2 & _ & R2).
  rewrite E1 in E2. inversion E2; subst. congruence.
Qed.


(** ** A call after another *)












Lemma plain_names_links (h : Heap) entities (lnks : LinksDef) :
  plain_names h entities lnks = true -> plain_links h lnks = true.
Proof.
  unfold plain_names. by intros [[[H1 H2]%andb_prop H3]%andb_prop H4]%andb_prop.
Qed.





Lemma graph_returns_graph (h : Heap) appId entities (lnks : LinksDef) g :
  graph_returns h appId entities lnks g ->
  graph_appId g = appId /\ graph_links g = lnks.
Proof.
  intros (o & h' & E & _ & R). unfold graph in E. unfold js_bind in E.
  destruct (enrichEntitiesWithLinks entities lnks h) as [[es| |] h1]; try discriminate.
  inversion E; subst. unfold read_graph in R. simpl in R.
  destruct (read_all (read_entity h') es); [|done]. simpl in R.
  by inversion R.
Qed.

(** ** The calls in a fresh realm *)

(** The blog schema has plain names, and [graph] returns [blog] for it. *)
Example blog_graph_example :
  plain_names fresh_realm blog_entities blog_links = true /\
  graph_returns fresh_realm "app" blog_entities blog_links blog.
Proof.
  assert (H : plain_names fresh_realm blog_entities blog_links = true)
    by (vm_compute; reflexivity).
  split; [exact H|]. by apply graph_plain.
Qed.

(** In a fresh realm the inherited names are the twelve properties of
    [Object.prototype]; of these only [__proto__] cannot be a label. *)
Example fresh_realm_names :
  Forall (fun k => not_inherited fresh_realm k = false)
    ["__proto__"; "constructor"; "hasOwnProperty"; "isPrototypeOf";
     "propertyIsEnumerable"; "toLocaleString"; "toString"; "valueOf";
     "__defineGetter__"; "__defineSetter__"; "__lookupGetter__";
     "__lookupSetter__"] /\
  Forall (fun k => assignable fresh_realm k = true)
    ["constructor"; "hasOwnProperty"; "isPrototypeOf";
     "propertyIsEnumerable"; "toLocaleString"; "toString"; "valueOf";
     "__defineGetter__"; "__defineSetter__"; "__lookupGetter__";
     "__lookupSetter__"; "posts"] /\
  assignable fresh_realm "__proto__" = false /\
  not_inherited fresh_realm "posts" = true.
Proof.
  split; [|split; [|split]]; try (vm_compute; reflexivity).
  - repeat constructor.
  - repeat constructor.
Qed.

(** The methods of the built-in objects are wired to their function
    objects: [Object.prototype.toString], [Object.values] and
    [Function.prototype.call] hold functions of these names, and the
    prototype of [Object] is [Function.prototype]. *)
Example fresh_realm_wiring :
  let name_of v :=
    match v with
    | VObject l => fresh_realm !! l ≫= fun o => properties o !! "name"
    | _ => None
    end in
  (GetOwnProperty fresh_realm Object_prototype "toString"
     ≫= fun p => match p with DataProperty v _ _ => name_of v | _ => None end)
  = Some (DataProperty (VString "toString") false false) /\
  (GetOwnProperty fresh_realm Object_constructor "values"
     ≫= fun p => match p with DataProperty v _ _ => name_of v | _ => None end)
  = Some (DataProperty (VString "values") false false) /\
  (GetOwnProperty fresh_realm Function_prototype "call"
     ≫= fun p => match p with DataProperty v _ _ => name_of v | _ => None end)
  = Some (DataProperty (VString "call") false false) /\
  GetPrototypeOf fresh_realm Object_constructor = Some Function_prototype /\
  fst (Get Object_constructor "constructor" fresh_realm)
  = Normal (VObject Function_constructor) /\
  List.length fresh_realm = 41.
Proof. repeat split; vm_compute; reflexivity. Qed.

(** ** Link entries of the graph (C1) *)

(** C1, counterexample: a single self-link on [posts] whose forward and
    reverse sides both use the label [related] collides with no other
    definition and has plain names, yet [posts.links.related] is the
    reverse entry [{posts, one}] and not the forward entry
    [{posts, many}]. *)
Lemma link_entries_as_stated_fails : ~ link_entries_as_stated.
Proof.
  intros H.
  destruct (H fresh_realm "app" thread_entities related_links
              {| forward := {| on := "posts"; label := "related"; has := many |};
                 reverse := {| on := "posts"; label := "related"; has := one |} |})
    as (g & Hg & Hfwd & _).
  - vm_compute. reflexivity.
  - split; compute_done.
  - vm_compute. left.
  - vm_compute. reflexivity.
  - vm_compute. reflexivity.
  - assert (Hpl : plain_names fresh_realm thread_entities related_links = true)
      by (vm_compute; reflexivity).
    rewrite (graph_returns_fun _ _ _ _ _ _ Hg (graph_plain _ "app" _ _ Hpl)) in Hfwd.
    vm_compute in Hfwd. discriminate Hfwd.
Qed.

(** C1, amended: when the names are plain (no entity name and no [on] is a
    property of [Object.prototype], no label is an accessor or a read-only
    property of it, and [Object.values], [Object.entries] and
    [Object.fromEntries] are the built-in functions), no two link
    definitions write the same key in the same direction and no definition
    writes, in the reverse direction, the key [(A, x)] of the forward
    side, then [graph] returns a graph that gives entity [A] the entry
    [x = {entityName: B, cardinality: cf}] and entity [B] the entry
    [y = {entityName: A, cardinality: cr}], self-links included. *)
Theorem graph_link_entries h appId entities (lnks : LinksDef) d :
  plain_names h entities lnks = true ->
  no_collision lnks ->
  d ∈ Object_values lnks ->
  on (forward d) ∈ dom entities ->
  on (reverse d) ∈ dom entities ->
  (forall d', d' ∈ Object_values lnks -> rev_key d' ≠ fwd_key d) ->
  exists g,
    graph_returns h appId entities lnks g /\
    entity_links (graph_entities g) (on (forward d)) !! label (forward d)
      = Some {| entityName := on (reverse d); cardinality := has (forward d) |} /\
    entity_links (graph_entities g) (on (reverse d)) !! label (reverse d)
      = Some {| entityName := on (forward d); cardinality := has (reverse d) |}.
Proof.
  intros Hpl Hnc Hd HA HB Hcross.
  exists (map_graph appId entities lnks). split.
  - by apply graph_plain.
  - by apply map_link_entries.
Qed.

Lemma graph_link_entries_witness :
  exists g,
    graph_returns fresh_realm "app" thread_entities thread_links g /\
    entity_links (graph_entities g) "posts" !! "replies"
      = Some {| entityName := "posts"; cardinality := many |} /\
    entity_links (graph_entities g) "posts" !! "parent"
      = Some {| entityName := "posts"; cardinality := one |}.
Proof.
  apply (graph_link_entries fresh_realm "app" thread_entities thread_links
           {| forward := {| on := "posts"; label := "replies"; has := many |};
              reverse := {| on := "posts"; label := "parent"; has := one |} |}).
  - vm_compute. reflexivity.
  - split; compute_done.
  - vm_compute. left.
  - vm_compute. reflexivity.
  - vm_compute. reflexivity.
  - intros d' Hd'. vm_compute in Hd'.
    apply list_elem_of_singleton in Hd'. subst d'. vm_compute. discriminate.
Defined.

(** ** Duplicate labels (C3) *)

(** C3, counterexample: for the two definitions that both write the
    forward label [tags] on [posts], the indexer the specification asks
    for fails with [DuplicateLinkLabel posts tags], whereas the loop of
    [enrichEntitiesWithLinks] ends with an index whose entry is the one
    written last, and [graph] returns it as [posts.links.tags]. *)
Lemma duplicate_label_not_raised :
  spec_buildIndex tags_links = inl (DuplicateLinkLabel "posts" "tags") /\
  exists idx g,
    linksIndex_returns fresh_realm tags_links idx /\
    fwd idx !! "posts"
      = Some {[ "tags" := {| entityName := "categories"; cardinality := many |} ]} /\
    graph_returns fresh_realm "app" tags_entities tags_links g /\
    entity_links (graph_entities g) "posts" !! "tags"
      = Some {| entityName := "categories"; cardinality := many |} /\
    inr idx ≠ spec_buildIndex tags_links.
Proof.
  split; [vm_compute; reflexivity|].
  assert (Hpl : plain_names fresh_realm tags_entities tags_links = true)
    by (vm_compute; reflexivity).
  exists (map_linksIndex tags_links), (map_graph "app" tags_entities tags_links).
  split; [apply linksIndex_plain; by apply (plain_names_links _ tags_entities)|].
  split; [vm_compute; reflexivity|].
  split; [by apply graph_plain|].
  split; [vm_compute; reflexivity|].
  vm_compute. discriminate.
Qed.

(** C3, amended: with plain names the loop raises no error; when two link
    definitions write the same forward [(entity, label)] key, the entry of
    that key in the index is the target and cardinality of the one that
    comes last in iteration order. *)
Theorem duplicate_forward_label_last_wins h
    (pre : LinksDef) n1 d1 (mid : LinksDef) n2 d2 (post : LinksDef) :
  plain_links h (pre ++ (n1, d1) :: mid ++ (n2, d2) :: post) = true ->
  fwd_key d1 = fwd_key d2 ->
  (forall d', d' ∈ Object_values post -> fwd_key d' ≠ fwd_key d2) ->
  exists idx,
    linksIndex_returns h (pre ++ (n1, d1) :: mid ++ (n2, d2) :: post) idx /\
    nested_lookup (fwd idx) (on (forward d1)) (label (forward d1))
    = Some {| entityName := on (reverse d2); cardinality := has (forward d2) |}.
Proof.
  intros Hpl Hkey Hpost.
  exists (map_linksIndex (pre ++ (n1, d1) :: mid ++ (n2, d2) :: post)). split.
  - by apply linksIndex_plain.
  - by apply map_forward_label_last_wins.
Qed.

Lemma duplicate_forward_label_last_wins_witness :
  exists idx,
    linksIndex_returns fresh_realm tags_links idx /\
    nested_lookup (fwd idx) "posts" "tags"
    = Some {| entityName := "categories"; cardinality := many |}.
Proof.
  apply (duplicate_forward_label_last_wins fresh_realm []
           "postTags"
           {| forward := {| on := "posts"; label := "tags"; has := many |};
              reverse := {| on := "tags"; label := "posts"; has := many |} |}
           []
           "postCategories"
           {| forward := {| on := "posts"; label := "tags"; has := many |};
              reverse := {| on := "categories"; label := "posts"; has := many |} |}
           []).
  - vm_compute. reflexivity.
  - reflexivity.
  - intros d' Hd'. vm_compute in Hd'. inversion Hd'.
Defined.

(** ** Order independence (C4) *)




(** ** Enriched entities (C5, C6) and determinism (C9) *)










(** ** Result shapes (C2, C7) *)


Lemma query_result_field_in entities (query : Query) name sub :
  In (name, sub) (query_fields query) ->
  In (query_result_field entities (name, sub)) (InstaQLQueryResult entities query).
Proof. intros Hin. unfold InstaQLQueryResult. by apply in_map. Qed.

Lemma extends_first_spec (q : Query) :
  extends_first q = true <-> In "$first" (map fst (query_fields q)).
Proof.
  unfold extends_first. rewrite bool_decide_eq_true. apply list_elem_of_In.
Qed.

Lemma Omit_links_in t k key r :
  In (key, r) (result_links (Omit t k)) <-> In (key, r) (result_links t) /\ key ≠ k.
Proof.
  destruct t as [|a l|e]; simpl; try tauto.
  rewrite <- !list_elem_of_In, list_elem_of_filter. simpl. tauto.
Qed.




(** Without [$first] the top-level result is an array; a link of
    cardinality [many] is an array of the target's shape. *)
Example array_example :
  InstaQLQueryResult library_entities
    (QObj [("authors", QObj [("posts", QObj [])])])
  = [("authors",
      TArray
        (TEntity {[ "name" := {| attr_type := vt_string; or_undefined := false |};
                    "bio" := {| attr_type := vt_string; or_undefined := true |} ]}
           [("posts",
             TArray (TEntity {[ "title" := {| attr_type := vt_string;
                                              or_undefined := false |} ]}
                             []))]))].
Proof. vm_compute. reflexivity. Qed.

(** C7, counterexample: for the query [{posts: {nonexistentLink: {}}}] the
    resolver of the specification signals [UnknownLink posts
    nonexistentLink], whereas [InstaQLQueryResult] produces a shape in
    which the key [nonexistentLink] has type [never]. *)
Lemma unknown_link_not_signalled :
  let q := QObj [("posts", QObj [("nonexistentLink", QObj [])])] in
  spec_resolveQuery library_entities (query_fields q)
    = inl (UnknownLink "posts" "nonexistentLink") /\
  InstaQLQueryResult library_entities q
    = [("posts",
        TArray (TEntity {[ "title" := {| attr_type := vt_string;
                                         or_undefined := false |} ]}
                        [("nonexistentLink", TNever)]))] /\
  inr (InstaQLQueryResult library_entities q)
    ≠ spec_resolveQuery library_entities (query_fields q).
Proof.
  repeat split; try (vm_compute; reflexivity).
  vm_compute. discriminate.
Qed.

(** C7, amended: no condition is signalled.  A nested query key that is
    not a link label of the entity is kept in the shape of that entity, at
    the place where it occurs, with type [never]: at every nesting level
    for [InstaQLEntityResult], and so in the result of a top-level entity
    key, in the element of the array or, under [$first], in the shape
    itself.  The one exception is the key [$first] directly under a
    top-level entity key, which is removed from the shape. *)
Theorem unknown_link_resolves_to_never entities (query : Query) name (q : Query) k sub :
  In (name, q) (query_fields query) ->
  name ∈ dom entities ->
  In (k, sub) (query_fields q) ->
  entity_links entities name !! k = None ->
  exists t,
    In (name, t) (InstaQLQueryResult entities query) /\
    (~ In "$first" (map fst (query_fields q)) ->
     exists shape, t = TArray shape /\ In (k, TNever) (result_links shape)) /\
    (In "$first" (map fst (query_fields q)) -> k ≠ "$first" ->
     In (k, TNever) (result_links t)) /\
    (k = "$first" -> ~ In "$first" (map fst (result_links t))) /\
    (forall e (q' : Query) k' sub',
       In (k', sub') (query_fields q') ->
       entity_links entities e !! k' = None ->
       In (k', TNever) (result_links (InstaQLEntityResult entities e q'))).
Proof.
  intros Hin [def Hdef]%elem_of_dom Hk Hnone.
  assert (Hnever : forall e (q' : Query) k' sub',
             In (k', sub') (query_fields q') ->
             entity_links entities e !! k' = None ->
             In (k', TNever) (result_links (InstaQLEntityResult entities e q'))).
  { intros e q' k' sub' Hin' Hnone'. rewrite InstaQLEntityResult_unfold. simpl.
    unfold InstaQLLinksResult. apply in_map_iff. exists (k', sub').
    split; [|exact Hin']. unfold link_result. simpl. by rewrite Hnone'. }
  pose proof (query_result_field_in entities query name q Hin) as Hres.
  unfold query_result_field in Hres. simpl in Hres. rewrite Hdef in Hres.
  eexists. split; [exact Hres|].
  split; [|split; [|split; [|exact Hnever]]].
  - intros Hfirst. destruct (extends_first q) eqn:E.
    { exfalso. apply Hfirst. by apply extends_first_spec. }
    eexists. split; [reflexivity|]. by apply (Hnever name q k sub).
  - intros Hfirst Hne. apply extends_first_spec in Hfirst. rewrite Hfirst.
    apply Omit_links_in. split; [|exact Hne]. by apply (Hnever name q k sub).
  - intros ->. assert (Hfirst : extends_first q = true).
    { apply extends_first_spec. apply in_map_iff. by exists ("$first", sub). }
    rewrite Hfirst. intros Hin'. apply in_map_iff in Hin' as ([k' r] & Hfst & Hin').
    simpl in Hfst. subst k'. apply Omit_links_in in Hin' as [_ Hne]. done.
Qed.

Lemma unknown_link_resolves_to_never_witness :
  exists t,
    In ("posts", t)
       (InstaQLQueryResult library_entities
          (QObj [("posts", QObj [("nonexistentLink", QObj [])])])) /\
    exists shape, t = TArray shape /\ In ("nonexistentLink", TNever) (result_links shape).
Proof.
  destruct (unknown_link_resolves_to_never library_entities
              (QObj [("posts", QObj [("nonexistentLink", QObj [])])])
              "posts" (QObj [("nonexistentLink", QObj [])])
              "nonexistentLink" (QObj []))
    as (t & Ht & Harr & _).
  - left. reflexivity.
  - vm_compute. reflexivity.
  - left. reflexivity.
  - vm_compute. reflexivity.
  - exists t. split; [exact Ht|]. apply Harr.
    simpl. intros [H|[]]. discriminate H.
Defined.

(** Directly under a top-level entity key [$first] is removed; one level
    down it is a key like any other, of type [never]. *)
Example first_example :
  InstaQLQueryResult library_entities
    (QObj [("posts", QObj [("$first", QObj []);
                           ("author", QObj [("$first", QObj [])])])])
  = [("posts",
      TEntity {[ "title" := {| attr_type := vt_string; or_undefined := false |} ]}
        [("author",
          TEntity {[ "name" := {| attr_type := vt_string; or_undefined := false |};
                     "bio" := {| attr_type := vt_string; or_undefined := true |} ]}
                  [("$first", TNever)])])].
Proof. vm_compute. reflexivity. Qed.

(** ** More on the index and the enriched entities, with plain names *)

(** X1: with plain names, every entry of every entity's [links] in the
    graph that [graph] returns was written by some link definition, as its
    forward or as its reverse entry. *)
Theorem graph_link_entry_from_definition h appId entities (lnks : LinksDef) :
  plain_names h entities lnks = true ->
  exists g,
    graph_returns h appId entities lnks g /\
    forall E l v,
      entity_links (graph_entities g) E !! l = Some v ->
      exists d, d ∈ Object_values lnks /\
                ((fwd_key d = (E, l) /\ v = fwd_entry d) \/
                 (rev_key d = (E, l) /\ v = rev_entry d)).
Proof.
  intros Hpl. exists (map_graph appId entities lnks).
  split; [by apply graph_plain|].
  intros E l v. apply map_link_entry_from_definition.
Qed.

Lemma graph_link_entry_from_definition_witness :
  exists g,
    graph_returns fresh_realm "app" blog_entities blog_links g /\
    forall E l v,
      entity_links (graph_entities g) E !! l = Some v ->
      exists d, d ∈ Object_values blog_links /\
                ((fwd_key d = (E, l) /\ v = fwd_entry d) \/
                 (rev_key d = (E, l) /\ v = rev_entry d)).
Proof.
  apply (graph_link_entry_from_definition fresh_realm "app" blog_entities blog_links).
  vm_compute. reflexivity.
Defined.

(** X2: with plain names, whatever the other definitions are (duplicates
    included), the labels of a link definition are keys of [links] on its
    two entities when these are declared: a label may end up with another
    definition's entry, it is never missing. *)
Theorem graph_link_labels_present h appId entities (lnks : LinksDef) d :
  plain_names h entities lnks = true ->
  d ∈ Object_values lnks ->
  exists g,
    graph_returns h appId entities lnks g /\
    (on (forward d) ∈ dom entities ->
     is_Some (entity_links (graph_entities g) (on (forward d)) !! label (forward d))) /\
    (on (reverse d) ∈ dom entities ->
     is_Some (entity_links (graph_entities g) (on (reverse d)) !! label (reverse d))).
Proof.
  intros Hpl Hd. exists (map_graph appId entities lnks).
  split; [by apply graph_plain|].
  by apply map_link_labels_present.
Qed.

Lemma graph_link_labels_present_witness :
  exists g,
    graph_returns fresh_realm "app" tags_entities tags_links g /\
    ("posts" ∈ dom tags_entities ->
     is_Some (entity_links (graph_entities g) "posts" !! "tags")) /\
    ("tags" ∈ dom tags_entities ->
     is_Some (entity_links (graph_entities g) "tags" !! "posts")).
Proof.
  apply (graph_link_labels_present fresh_realm "app" tags_entities tags_links
           {| forward := {| on := "posts"; label := "tags"; has := many |};
              reverse := {| on := "tags"; label := "posts"; has := many |} |}).
  - vm_compute. reflexivity.
  - vm_compute. left.
Defined.

(** X3: with plain names, when the loop ends, an entity name is a key of
    [fwd] exactly when some link definition has it as [forward.on], a key
    of [rev] exactly when some definition has it as [reverse.on], and no
    inner object is left empty by [||= {}]. *)
Theorem linksIndex_keys h (lnks : LinksDef) :
  plain_links h lnks = true ->
  exists idx,
    linksIndex_returns h lnks idx /\
    (forall e, e ∈ dom (fwd idx) <-> exists d, d ∈ Object_values lnks /\ on (forward d) = e) /\
    (forall e, e ∈ dom (rev idx) <-> exists d, d ∈ Object_values lnks /\ on (reverse d) = e) /\
    (forall e inner, fwd idx !! e = Some inner -> inner ≠ ∅) /\
    (forall e inner, rev idx !! e = Some inner -> inner ≠ ∅).
Proof.
  intros Hpl. exists (map_linksIndex lnks).
  split; [by apply linksIndex_plain|]. apply map_index_keys.
Qed.

Lemma linksIndex_keys_witness :
  exists idx,
    linksIndex_returns fresh_realm blog_links idx /\
    (forall e, e ∈ dom (fwd idx) <->
               exists d, d ∈ Object_values blog_links /\ on (forward d) = e) /\
    (forall e, e ∈ dom (rev idx) <->
               exists d, d ∈ Object_values blog_links /\ on (reverse d) = e) /\
    (forall e inner, fwd idx !! e = Some inner -> inner ≠ ∅) /\
    (forall e inner, rev idx !! e = Some inner -> inner ≠ ∅).
Proof.
  apply (linksIndex_keys fresh_realm blog_links). vm_compute. reflexivity.
Defined.

(** X4: with plain names, when no two definitions write the same key in
    the reverse direction, every entry of [fwd] has a partner in [rev]: if
    [fwd[A][x]] names entity [B], then [rev[B]] has an entry that names
    [A]. *)
Theorem linksIndex_forward_has_reverse h (lnks : LinksDef) :
  plain_links h lnks = true ->
  NoDup (rev_key <$> Object_values lnks) ->
  exists idx,
    linksIndex_returns h lnks idx /\
    forall A x v,
      nested_lookup (fwd idx) A x = Some v ->
      exists y c,
        nested_lookup (rev idx) (entityName v) y
        = Some {| entityName := A; cardinality := c |}.
Proof.
  intros Hpl Hnd. exists (map_linksIndex lnks).
  split; [by apply linksIndex_plain|].
  intros A x v. by apply map_forward_has_reverse.
Qed.

Lemma linksIndex_forward_has_reverse_witness :
  exists idx,
    linksIndex_returns fresh_realm blog_links idx /\
    forall A x v,
      nested_lookup (fwd idx) A x = Some v ->
      exists y c,
        nested_lookup (rev idx) (entityName v) y
        = Some {| entityName := A; cardinality := c |}.
Proof.
  apply (linksIndex_forward_has_reverse fresh_realm blog_links).
  - vm_compute. reflexivity.
  - compute_done.
Defined.

(** X5: the [links] an entity definition already carries are not read:
    with plain names, building a graph again from the [appId], [entities]
    and [links] of a graph that [graph] returned returns a graph that
    reads the same. *)
Theorem graph_rebuild h h' appId entities (lnks : LinksDef) :
  plain_names h entities lnks = true ->
  exists g,
    graph_returns h appId entities lnks g /\
    (plain_names h' (graph_entities g) (graph_links g) = true ->
     graph_returns h' (graph_appId g) (graph_entities g) (graph_links g) g).
Proof.
  intros Hpl. exists (map_graph appId entities lnks).
  split; [by apply graph_plain|]. intros Hpl'.
  destruct (map_rebuild appId entities lnks lnks) as [_ Hg].
  simpl in Hg. rewrite <- Hg at 4. by apply graph_plain.
Qed.

Lemma graph_rebuild_witness :
  exists g,
    graph_returns fresh_realm "app" blog_entities blog_links g /\
    graph_returns fresh_realm (graph_appId g) (graph_entities g) (graph_links g) g.
Proof.
  destruct (graph_rebuild fresh_realm fresh_realm "app" blog_entities blog_links)
    as (g & Hg & Hre).
  - vm_compute. reflexivity.
  - exists g. split; [exact Hg|]. apply Hre.
    assert (Hpl : plain_names fresh_realm blog_entities blog_links = true)
      by (vm_compute; reflexivity).
    rewrite (graph_returns_fun _ _ _ _ _ _ Hg (graph_plain _ "app" _ _ Hpl)).
    vm_compute. reflexivity.
Defined.

Lemma plain_links_without (h : Heap) (pre post : LinksDef) n d :
  plain_links h (pre ++ (n, d) :: post) = true -> plain_links h (pre ++ post) = true.
Proof.
  unfold plain_links. intros [H12 H3]%andb_prop. rewrite H12. simpl.
  rewrite forallb_forall in H3. apply forallb_forall. intros x Hx. apply H3.
  unfold Object_values in *. rewrite fmap_app in Hx |- *. rewrite fmap_cons.
  apply in_app_iff in Hx as [Hx|Hx]; apply in_app_iff; [by left|right; by right].
Qed.

Lemma plain_names_without (h : Heap) entities (pre post : LinksDef) n d :
  plain_names h entities (pre ++ (n, d) :: post) = true ->
  plain_names h entities (pre ++ post) = true.
Proof.
  unfold plain_names.
  intros [[[H1 H2]%andb_prop H3]%andb_prop H4]%andb_prop.
  by rewrite (plain_links_without _ _ _ _ _ H1), H2, H3, H4.
Qed.

(** X6: with plain names, a link definition whose two sides are on other
    entities does not change what the graph holds for entity [E], wherever
    it stands among the other definitions. *)
Theorem graph_link_elsewhere h appId entities (pre post : LinksDef) n d E :
  plain_names h entities (pre ++ (n, d) :: post) = true ->
  on (forward d) ≠ E ->
  on (reverse d) ≠ E ->
  exists g g',
    graph_returns h appId entities (pre ++ (n, d) :: post) g /\
    graph_returns h appId entities (pre ++ post) g' /\
    graph_entities g !! E = graph_entities g' !! E.
Proof.
  intros Hpl Hf Hr.
  exists (map_graph appId entities (pre ++ (n, d) :: post)),
         (map_graph appId entities (pre ++ post)).
  split; [by apply graph_plain|].
  split; [apply graph_plain; by apply (plain_names_without _ _ _ _ n d)|].
  by apply map_link_elsewhere.
Qed.

Lemma graph_link_elsewhere_witness :
  exists g g',
    graph_returns fresh_realm "app" blog_entities (blog_links ++ thread_links) g /\
    graph_returns fresh_realm "app" blog_entities (blog_links ++ []) g' /\
    graph_entities g !! "authors" = graph_entities g' !! "authors".
Proof.
  apply (graph_link_elsewhere fresh_realm "app" blog_entities blog_links [] "postReplies"
           {| forward := {| on := "posts"; label := "replies"; has := many |};
              reverse := {| on := "posts"; label := "parent"; has := one |} |}
           "authors").
  - vm_compute. reflexivity.
  - discriminate.
  - discriminate.
Defined.

(** X7: with plain names, the reverse entry written last for a key is what
    the entity holds under that label, whatever the forward sides of the
    definitions are: a reverse label hides a forward label of the same
    name. *)
Theorem graph_reverse_label_last_wins h appId entities (pre post : LinksDef) n d :
  plain_names h entities (pre ++ (n, d) :: post) = true ->
  on (reverse d) ∈ dom entities ->
  (forall d', d' ∈ Object_values post -> rev_key d' ≠ rev_key d) ->
  exists g,
    graph_returns h appId entities (pre ++ (n, d) :: post) g /\
    entity_links (graph_entities g) (on (reverse d)) !! label (reverse d)
    = Some {| entityName := on (forward d); cardinality := has (reverse d) |}.
Proof.
  intros Hpl HB Hpost. exists (map_graph appId entities (pre ++ (n, d) :: post)).
  split; [by apply graph_plain|].
  by apply map_reverse_label_last_wins.
Qed.

Lemma graph_reverse_label_last_wins_witness :
  exists g,
    graph_returns fresh_realm "app" thread_entities ([] ++ related_links) g /\
    entity_links (graph_entities g) "posts" !! "related"
    = Some {| entityName := "posts"; cardinality := one |}.
Proof.
  apply (graph_reverse_label_last_wins fresh_realm "app" thread_entities [] []
           "postRelated"
           {| forward := {| on := "posts"; label := "related"; has := many |};
              reverse := {| on := "posts"; label := "related"; has := one |} |}).
  - vm_compute. reflexivity.
  - vm_compute. reflexivity.
  - intros d' Hd'. vm_compute in Hd'. inversion Hd'.
Defined.

(** ** Static and run-time links, with plain names *)

(** X14: with plain names, for every declared entity, the keys of the
    static [links] type ([EntityForwardLinksMap & EntityReverseLinksMap])
    are the keys of the [links] object of the graph that [graph]
    returns. *)
Theorem static_links_keys h appId entities (lnks : LinksDef) E :
  plain_names h entities lnks = true ->
  E ∈ dom entities ->
  exists g,
    graph_returns h appId entities lnks g /\
    dom (static_links_forward (EntityWithLinks E entities lnks))
    ∪ dom (static_links_reverse (EntityWithLinks E entities lnks))
    = dom (entity_links (graph_entities g) E).
Proof.
  intros Hpl HE. exists (map_graph appId entities lnks).
  split; [by apply graph_plain|]. by apply map_static_links_keys.
Qed.

Lemma static_links_keys_witness :
  exists g,
    graph_returns fresh_realm "app" blog_entities blog_links g /\
    dom (static_links_forward (EntityWithLinks "posts" blog_entities blog_links))
    ∪ dom (static_links_reverse (EntityWithLinks "posts" blog_entities blog_links))
    = dom (entity_links (graph_entities g) "posts").
Proof.
  apply (static_links_keys fresh_realm "app" blog_entities blog_links "posts").
  - vm_compute. reflexivity.
  - vm_compute. reflexivity.
Defined.

(** X15: with plain names, when no two definitions write the same key in
    the reverse direction, a link with forward side on [A] with
    cardinality [cf] and reverse [{on: B, label: y, has: cr}], [B]
    declared, has under [y] on [B]: in the graph that [graph] returns the
    entry [{entityName: A, cardinality: cr}], and in the static
    [EntityForwardLinksMap] the type [{entityName: B, cardinality: cf}].
    The entry is of that type exactly when [A = B] and [cf = cr]. *)
Theorem static_forward_links_entry h appId entities (lnks : LinksDef) d :
  plain_names h entities lnks = true ->
  NoDup (rev_key <$> Object_values lnks) ->
  d ∈ Object_values lnks ->
  on (reverse d) ∈ dom entities ->
  let t := {| static_entityName := [on (reverse d)];
              static_cardinality := [has (forward d)] |} in
  let v := {| entityName := on (forward d); cardinality := has (reverse d) |} in
  exists g,
    graph_returns h appId entities lnks g /\
    static_links_forward (EntityWithLinks (on (reverse d)) entities lnks)
      !! label (reverse d) = Some t /\
    entity_links (graph_entities g) (on (reverse d)) !! label (reverse d) = Some v /\
    (has_static_type v t <->
     on (forward d) = on (reverse d) /\ has (reverse d) = has (forward d)).
Proof.
  intros Hpl Hnd Hd HB t v. exists (map_graph appId entities lnks).
  split; [by apply graph_plain|].
  by apply map_static_forward_links_entry.
Qed.

Lemma static_forward_links_entry_witness :
  let t := {| static_entityName := ["posts"]; static_cardinality := [many] |} in
  let v := {| entityName := "authors"; cardinality := one |} in
  exists g,
    graph_returns fresh_realm "app" blog_entities blog_links g /\
    static_links_forward (EntityWithLinks "posts" blog_entities blog_links)
      !! "author" = Some t /\
    entity_links (graph_entities g) "posts" !! "author" = Some v /\
    (has_static_type v t <-> "authors" = "posts" /\ one = many).
Proof.
  apply (static_forward_links_entry fresh_realm "app" blog_entities blog_links
           {| forward := {| on := "authors"; label := "posts"; has := many |};
              reverse := {| on := "posts"; label := "author"; has := one |} |}).
  - vm_compute. reflexivity.
  - compute_done.
  - vm_compute. left.
  - vm_compute. reflexivity.
Defined.

(** X25: with plain names, when no two definitions write the same key in
    the forward direction and none writes it in the reverse direction, a
    link with forward [{on: A, label: x, has: cf}] and reverse side on [B]
    with cardinality [cr], [A] declared, has under [x] on [A]: in the graph
    that [graph] returns the entry [{entityName: B, cardinality: cf}], and
    in the static [EntityReverseLinksMap] the type
    [{entityName: A, cardinality: cr}].  The entry is of that type exactly
    when [A = B] and [cf = cr]. *)
Theorem static_reverse_links_entry h appId entities (lnks : LinksDef) d :
  plain_names h entities lnks = true ->
  NoDup (fwd_key <$> Object_values lnks) ->
  d ∈ Object_values lnks ->
  on (forward d) ∈ dom entities ->
  (forall d', d' ∈ Object_values lnks -> rev_key d' ≠ fwd_key d) ->
  let t := {| static_entityName := [on (forward d)];
              static_cardinality := [has (reverse d)] |} in
  let v := {| entityName := on (reverse d); cardinality := has (forward d) |} in
  exists g,
    graph_returns h appId entities lnks g /\
    static_links_reverse (EntityWithLinks (on (forward d)) entities lnks)
      !! label (forward d) = Some t /\
    entity_links (graph_entities g) (on (forward d)) !! label (forward d) = Some v /\
    (has_static_type v t <->
     on (reverse d) = on (forward d) /\ has (forward d) = has (reverse d)).
Proof.
  intros Hpl Hnd Hd HA Hcross t v. exists (map_graph appId entities lnks).
  split; [by apply graph_plain|].
  by apply map_static_reverse_links_entry.
Qed.

Lemma static_reverse_links_entry_witness :
  let t := {| static_entityName := ["authors"]; static_cardinality := [one] |} in
  let v := {| entityName := "posts"; cardinality := many |} in
  exists g,
    graph_returns fresh_realm "app" blog_entities blog_links g /\
    static_links_reverse (EntityWithLinks "authors" blog_entities blog_links)
      !! "posts" = Some t /\
    entity_links (graph_entities g) "authors" !! "posts" = Some v /\
    (has_static_type v t <-> "posts" = "authors" /\ many = one).
Proof.
  apply (static_reverse_links_entry fresh_realm "app" blog_entities blog_links
           {| forward := {| on := "authors"; label := "posts"; has := many |};
              reverse := {| on := "posts"; label := "author"; has := one |} |}).
  - vm_compute. reflexivity.
  - compute_done.
  - vm_compute. left.
  - vm_compute. reflexivity.
  - intros d' Hd'. vm_compute in Hd'.
    apply list_elem_of_singleton in Hd'. subst d'. vm_compute. discriminate.
Defined.
